(** * Variable elimination on discrete Bayesian networks

    A shallow embedding of [src/Python/variable_elim.py] (class
    [VariableElimination]) together with the part of pandas it calls:
    boolean-mask row selection, [drop(columns=...)], column assignment,
    [pd.merge(..., on=...)], [groupby(...)['prob'].sum().reset_index()] and
    [Series.sum()].

    Conventions of the embedding.
    - A [DataFrame] is an ordered list of column labels and a list of rows,
      each row a list of cells aligned with the labels.  Labels are looked up
      at their first occurrence; the embedding is meant for frames whose
      labels are distinct.
    - A cell is a string (the discrete values read from a network file) or a
      number.  Numbers are float64 idealised as exact rationals kept in lowest
      terms, extended with [NaN] and the two infinities so that division by
      zero returns what numpy returns instead of raising.  Rounding and
      signed zeros are not modelled: a statement about these frames says
      which sums, products and quotients the code forms, not what they round
      to.  Where rounding decides a property, the [prob] column is read in
      binary64 ([sum64], [sum_out64]).
    - Python exceptions are values of [exn]; a computation that may raise
      returns a [result].
    - [print] calls are omitted. *)

From Stdlib Require Import Floats.PrimFloat.
From Stdlib Require Import List String Ascii Bool Arith ZArith QArith Qreduction.
From Stdlib Require Import Lia Permutation Sorted.
Import ListNotations.
Open Scope string_scope.
Open Scope list_scope.

(* ================================================================== *)
(** ** Exceptions *)

Inductive exn : Type :=
| KeyError (label : string)
| ValueError (msg : string)
| TypeError
| AttributeError.

Inductive result (A : Type) : Type :=
| Ok (a : A)
| Raise (e : exn).

Arguments Ok {A} a.
Arguments Raise {A} e.

Definition bind {A B : Type} (m : result A) (k : A -> result B) : result B :=
  match m with
  | Ok a => k a
  | Raise e => Raise e
  end.

Notation "x <- m ;; k" := (bind m (fun x => k))
  (at level 61, m at next level, right associativity).

Fixpoint mapM {A B : Type} (f : A -> result B) (l : list A) : result (list B) :=
  match l with
  | [] => Ok []
  | a :: l' => b <- f a ;; bs <- mapM f l' ;; Ok (b :: bs)
  end.

(* ================================================================== *)
(** ** Numbers *)

Inductive num : Type :=
| Fin (q : Q)
| PInf
| NInf
| NaN.

Definition Qsign (q : Q) : comparison := (Qnum q ?= 0)%Z.

(** Addition, multiplication and division are exact: no rounding, no
    overflow.  Sums therefore do not depend on the order or grouping of the
    additions here, as they do in float64. *)
Definition num_add (a b : num) : num :=
  match a, b with
  | NaN, _ | _, NaN => NaN
  | PInf, NInf | NInf, PInf => NaN
  | PInf, _ | _, PInf => PInf
  | NInf, _ | _, NInf => NInf
  | Fin x, Fin y => Fin (Qred (x + y))
  end.

Definition inf_of (s : comparison) : num :=
  match s with
  | Gt => PInf
  | Lt => NInf
  | Eq => NaN
  end.

Definition flip (s : comparison) : comparison := CompOpp s.

Definition num_mul (a b : num) : num :=
  match a, b with
  | NaN, _ | _, NaN => NaN
  | Fin x, Fin y => Fin (Qred (x * y))
  | PInf, Fin y | Fin y, PInf => inf_of (Qsign y)
  | NInf, Fin y | Fin y, NInf => inf_of (flip (Qsign y))
  | PInf, PInf | NInf, NInf => PInf
  | PInf, NInf | NInf, PInf => NInf
  end.

(** float64 division: a zero divisor gives [NaN] or an infinity, never an
    exception. *)
Definition num_div (a b : num) : num :=
  match a, b with
  | NaN, _ | _, NaN => NaN
  | Fin x, Fin y =>
      match Qsign y with
      | Eq => inf_of (Qsign x)
      | _ => Fin (Qred (x / y))
      end
  | Fin _, (PInf | NInf) => Fin 0
  | PInf, Fin y => match Qsign y with Lt => NInf | _ => PInf end
  | NInf, Fin y => match Qsign y with Lt => PInf | _ => NInf end
  | (PInf | NInf), (PInf | NInf) => NaN
  end.

Definition num_eqb (a b : num) : bool :=
  match a, b with
  | Fin x, Fin y => Qeq_bool x y
  | PInf, PInf | NInf, NInf => true
  | _, _ => false
  end.

Definition is_nan (a : num) : bool :=
  match a with NaN => true | _ => false end.

(** [Series.sum()] and the group-wise [sum()]: missing values are skipped
    ([skipna=True]) and the empty sum is 0. *)
Fixpoint nansum (l : list num) : num :=
  match l with
  | [] => Fin 0
  | x :: l' => if is_nan x then nansum l' else num_add x (nansum l')
  end.

(* ================================================================== *)
(** ** Cells, rows and frames *)

Inductive cell : Type :=
| Str (s : string)
| Num (x : num).

(** Elementwise [==]. *)
Definition cell_eqb (a b : cell) : bool :=
  match a, b with
  | Str s, Str t => String.eqb s t
  | Num x, Num y => num_eqb x y
  | _, _ => false
  end.

Definition cell_is_nan (c : cell) : bool :=
  match c with Num NaN => true | _ => false end.

(** Join keys are factorised, so two missing keys match each other. *)
Definition key_eqb (a b : cell) : bool :=
  cell_eqb a b || (cell_is_nan a && cell_is_nan b).

Definition row : Type := list cell.

Record DataFrame : Type := mkDF {
  columns : list string;
  rows : list row
}.

Definition mem (c : string) (l : list string) : bool :=
  existsb (String.eqb c) l.

(** [c in df.columns] *)
Definition has_column (c : string) (df : DataFrame) : bool :=
  mem c (columns df).

(** The cell of row [r] under label [c], the row being laid out along
    [cols]. *)
Fixpoint row_get (cols : list string) (c : string) (r : row) : option cell :=
  match cols, r with
  | c' :: cols', x :: r' => if String.eqb c c' then Some x else row_get cols' c r'
  | _, _ => None
  end.

Fixpoint row_set (cols : list string) (c : string) (v : cell) (r : row) : row :=
  match cols, r with
  | c' :: cols', x :: r' =>
      if String.eqb c c' then v :: r' else x :: row_set cols' c v r'
  | _, _ => r
  end.

(** The cells of [r] whose label passes [keep]. *)
Fixpoint row_select (keep : string -> bool) (cols : list string) (r : row) : row :=
  match cols, r with
  | c :: cols', x :: r' =>
      if keep c then x :: row_select keep cols' r' else row_select keep cols' r'
  | _, _ => []
  end.

(** The cells of [r] under the labels [ks], in the order of [ks]. *)
Fixpoint row_project (cols : list string) (ks : list string) (r : row)
  : result row :=
  match ks with
  | [] => Ok []
  | k :: ks' =>
      match row_get cols k r with
      | Some x => xs <- row_project cols ks' r ;; Ok (x :: xs)
      | None => Raise (KeyError k)
      end
  end.

(** [df[c]] as the list of its cells. *)
Definition column (c : string) (df : DataFrame) : result (list cell) :=
  if has_column c df then
    Ok (map (fun r => match row_get (columns df) c r with
                      | Some x => x
                      | None => Num NaN
                      end) (rows df))
  else Raise (KeyError c).

(** [df[df[c] == v]]; [select_rows] is the selection once the label is known
    to be present. *)
Definition select_rows (c : string) (v : cell) (df : DataFrame) : DataFrame :=
  mkDF (columns df)
       (filter (fun r => match row_get (columns df) c r with
                         | Some x => cell_eqb x v
                         | None => false
                         end) (rows df)).

Definition select_eq (c : string) (v : cell) (df : DataFrame) : result DataFrame :=
  if has_column c df then Ok (select_rows c v df) else Raise (KeyError c).

Fixpoint first_missing (labels cols : list string) : option string :=
  match labels with
  | [] => None
  | l :: labels' => if mem l cols then first_missing labels' cols else Some l
  end.

(** [df.drop(columns=labels)]; [drop_columns] is the removal once the labels
    are known to be present. *)
Definition drop_columns (labels : list string) (df : DataFrame) : DataFrame :=
  let keep := fun c => negb (mem c labels) in
  mkDF (filter keep (columns df)) (map (row_select keep (columns df)) (rows df)).

Definition drop (labels : list string) (df : DataFrame) : result DataFrame :=
  match first_missing labels (columns df) with
  | Some l => Raise (KeyError l)
  | None => Ok (drop_columns labels df)
  end.

(** [df[c] = vals]: an existing column is overwritten in place, a new one is
    appended on the right. *)
Fixpoint zip_with {A B C : Type} (f : A -> B -> C) (l : list A) (m : list B)
  : list C :=
  match l, m with
  | a :: l', b :: m' => f a b :: zip_with f l' m'
  | _, _ => []
  end.

Definition assign (c : string) (vals : list cell) (df : DataFrame) : DataFrame :=
  if has_column c df then
    mkDF (columns df) (zip_with (fun r v => row_set (columns df) c v r) (rows df) vals)
  else
    mkDF (columns df ++ [c]) (zip_with (fun r v => r ++ [v]) (rows df) vals).

(** [df[c] = v] for a scalar [v]. *)
Definition assign_const (c : string) (v : cell) (df : DataFrame) : DataFrame :=
  assign c (map (fun _ => v) (rows df)) df.

Definition as_num (c : cell) : result num :=
  match c with
  | Num x => Ok x
  | Str _ => Raise TypeError
  end.

(** [df['prob'].sum()] *)
Definition prob_sum (df : DataFrame) : result num :=
  cs <- column "prob" df ;;
  xs <- mapM as_num cs ;;
  Ok (nansum xs).

(* ================================================================== *)
(** ** [pd.merge(left, right, on=keys)] (inner join) *)

Definition concat_str (a b : string) : string := String.append a b.

(** Labels present on both sides that are not join keys receive the default
    suffixes [_x] and [_y]. *)
Definition overlapping (keys lcols rcols : list string) (c : string) : bool :=
  negb (mem c keys) && mem c lcols && mem c rcols.

Definition not_key (keys : list string) (c : string) : bool :=
  negb (mem c keys).

Definition keys_agree (lcols rcols keys : list string) (r1 r2 : row) : bool :=
  forallb (fun k => match row_get lcols k r1, row_get rcols k r2 with
                    | Some a, Some b => key_eqb a b
                    | _, _ => false
                    end) keys.

(** The result keeps the left frame's row order; each left row is followed by
    its matches in the right frame's order.  Its labels are the left labels
    followed by the right labels that are not keys.  pandas refuses, with a
    [ValueError], to join a key column of strings with one of numbers, and
    frames whose key label is repeated; the embedding has neither check and
    covers frames with distinct labels whose key columns hold values of the
    same kind on both sides (see [string_keys], [factor]). *)
Definition merge (left right : DataFrame) (keys : list string) : result DataFrame :=
  match first_missing keys (columns left), first_missing keys (columns right) with
  | Some k, _ | None, Some k => Raise (KeyError k)
  | None, None =>
      let lc := columns left in
      let rc := columns right in
      let ov := overlapping keys lc rc in
      Ok (mkDF
            (map (fun c => if ov c then concat_str c "_x" else c) lc ++
             map (fun c => if ov c then concat_str c "_y" else c)
                 (filter (not_key keys) rc))
            (flat_map
               (fun r1 =>
                  map (fun r2 => r1 ++ row_select (not_key keys) rc r2)
                      (filter (keys_agree lc rc keys r1) (rows right)))
               (rows left)))
  end.

(* ================================================================== *)
(** ** [df.groupby(keys)['prob'].sum().reset_index()] *)

Fixpoint keys_eqb (a b : list cell) : bool :=
  match a, b with
  | [], [] => true
  | x :: a', y :: b' => cell_eqb x y && keys_eqb a' b'
  | _, _ => false
  end.

Definition num_leb (a b : num) : bool :=
  match a, b with
  | NInf, _ => true
  | _, PInf => true
  | Fin x, Fin y => Qle_bool x y
  | _, _ => false
  end.

(** Order used to sort group keys: numbers before strings, strings by code
    point. *)
Definition cell_leb (a b : cell) : bool :=
  match a, b with
  | Num x, Num y => num_leb x y
  | Num _, Str _ => true
  | Str _, Num _ => false
  | Str s, Str t => String.leb s t
  end.

Fixpoint key_leb (a b : list cell) : bool :=
  match a, b with
  | [], _ => true
  | _ :: _, [] => false
  | x :: a', y :: b' => if cell_eqb x y then key_leb a' b' else cell_leb x y
  end.

Fixpoint insert_key (k : list cell) (l : list (list cell)) : list (list cell) :=
  match l with
  | [] => [k]
  | k' :: l' => if key_leb k k' then k :: l else k' :: insert_key k l'
  end.

Fixpoint sort_keys (l : list (list cell)) : list (list cell) :=
  match l with
  | [] => []
  | k :: l' => insert_key k (sort_keys l')
  end.

(** First occurrences, in order of appearance. *)
Fixpoint distinct {A : Type} (eqb : A -> A -> bool) (l : list A) : list A :=
  match l with
  | [] => []
  | x :: l' => x :: filter (fun y => negb (eqb x y)) (distinct eqb l')
  end.

Definition group_rows (keyed : list (list cell * num)) (k : list cell) : list num :=
  map snd (filter (fun kx => keys_eqb (fst kx) k) keyed).

(** Groups are the observed key tuples, sorted ([sort=True]); rows with a
    missing key are left out ([dropna=True]).  With no key at all pandas
    raises on a frame that has rows, and on a frame without rows returns the
    empty series, whose unnamed index [reset_index] turns into a column
    [index]. *)
Definition groupby_prob_sum (keys : list string) (df : DataFrame) : result DataFrame :=
  match keys, rows df with
  | [], _ :: _ => Raise (ValueError "No group keys passed!")
  | [], [] =>
      if has_column "prob" df then Ok (mkDF ["index"; "prob"] [])
      else Raise (KeyError "prob")
  | _ :: _, _ =>
      ks <- mapM (row_project (columns df) keys) (rows df) ;;
      cs <- column "prob" df ;;
      xs <- mapM as_num cs ;;
      let keyed := filter (fun kx => negb (existsb cell_is_nan (fst kx)))
                          (combine ks xs) in
      let groups := sort_keys (distinct keys_eqb (map fst keyed)) in
      Ok (mkDF (keys ++ ["prob"])
               (map (fun k => k ++ [Num (nansum (group_rows keyed k))]) groups))
  end.

(* ================================================================== *)
(** ** Python dictionaries and sets *)

(** A [dict] keeps insertion order; keys are unique. *)
Definition dict (V : Type) : Type := list (string * V).

Fixpoint dict_get {V : Type} (k : string) (d : dict V) : option V :=
  match d with
  | [] => None
  | (k', v) :: d' => if String.eqb k k' then Some v else dict_get k d'
  end.

(** [d[k] = v]: an existing key keeps its position, a new key goes last. *)
Fixpoint dict_set {V : Type} (k : string) (v : V) (d : dict V) : dict V :=
  match d with
  | [] => [(k, v)]
  | (k', v') :: d' =>
      if String.eqb k k' then (k, v) :: d' else (k', v') :: dict_set k v d'
  end.

(** [del d[k]] *)
Fixpoint dict_del {V : Type} (k : string) (d : dict V) : dict V :=
  match d with
  | [] => []
  | (k', v') :: d' => if String.eqb k k' then d' else (k', v') :: dict_del k d'
  end.

Definition dict_keys {V : Type} (d : dict V) : list string := map fst d.
Definition dict_values {V : Type} (d : dict V) : list V := map snd d.

(** [d[k]] *)
Definition dict_item {V : Type} (k : string) (d : dict V) : result V :=
  match dict_get k d with
  | Some v => Ok v
  | None => Raise (KeyError k)
  end.

(** [set(l)].  CPython iterates a set of strings in an order that depends on
    the process's hash seed and on how the set was built (a difference
    copies or rebuilds the set, depending on the sizes of its operands); the
    embedding fixes it to the order of first occurrence.  Two calls whose
    sets are built from different operands are therefore not compared
    through the orderings this gives, but through [run_from], for every
    ordering. *)
Definition pyset (l : list string) : list string := distinct String.eqb l.

Definition set_diff (a b : list string) : list string :=
  filter (fun x => negb (mem x b)) a.

Definition set_remove (x : string) (a : list string) : list string :=
  filter (fun y => negb (String.eqb x y)) a.

(* ================================================================== *)
(** ** The network *)

(** Modelled from the spec: the network object is built by
    [read_bayesnet.BayesNet], which is not part of the sources.  Its fields
    are the node names, the values of each node, the parents of each node and
    one table per node whose labels are the node, its parents and [prob]. *)
Record Network : Type := mkNet {
  nodes : list string;
  values : dict (list cell);
  parents : dict (list string);
  probabilities : dict DataFrame
}.

Definition with_probabilities (net : Network) (p : dict DataFrame) : Network :=
  mkNet (nodes net) (values net) (parents net) p.

(** [observed]: a dictionary from variable to observed value. *)
Definition evidence : Type := dict cell.

(** The [heuristic] argument of [run]: a string or a list of variables. *)
Inductive heuristic : Type :=
| Named (name : string)
| Ordering (order : list string).

(** An argument of [multiplication] and [sum_out]: a frame, or the key of a
    table of the network. *)
Inductive factor_arg : Type :=
| Frame (df : DataFrame)
| Key (k : string).

Definition resolve (net : Network) (f : factor_arg) : result DataFrame :=
  match f with
  | Frame df => Ok df
  | Key k => dict_item k (probabilities net)
  end.

(* ================================================================== *)
(** ** [VariableElimination.simplification] *)

(** The body of the inner loop: the table stored back under [key].  Under the
    guard [var in df.columns] neither the selection nor the [drop] can raise,
    so the frame is computed directly. *)
Definition evidence_reduction (var : string) (value : cell) (df : DataFrame)
  : DataFrame :=
  if has_column var df then drop_columns [var] (select_rows var value df)
  else df.

(** The guarded statement as written, with the pandas calls that may
    raise. *)
Definition evidence_reduction_checked (var : string) (value : cell)
  (df : DataFrame) : result DataFrame :=
  if has_column var df then
    sel <- select_eq var value df ;; drop [var] sel
  else Ok df.

(** The inner loop visits every key once and assigns to that key only, which
    keeps the dictionary's order. *)
Definition reduce_all (var : string) (value : cell) (p : dict DataFrame)
  : dict DataFrame :=
  map (fun kv => (fst kv, evidence_reduction var value (snd kv))) p.

Fixpoint simplification (observed : evidence) (net : Network) : Network :=
  match observed with
  | [] => net
  | (var, value) :: observed' =>
      simplification observed'
        (with_probabilities net (reduce_all var value (probabilities net)))
  end.

(* ================================================================== *)
(** ** [VariableElimination.multiplication] *)

Definition cell_mul (a b : cell) : result cell :=
  x <- as_num a ;; y <- as_num b ;; Ok (Num (num_mul x y)).

Fixpoint zip_mul (l m : list cell) : result (list cell) :=
  match l, m with
  | a :: l', b :: m' => c <- cell_mul a b ;; cs <- zip_mul l' m' ;; Ok (c :: cs)
  | _, _ => Ok []
  end.

(** [list(set(df1.columns) & set(df2.columns))] without ["prob"]. *)
Definition common_vars (df1 df2 : DataFrame) : list string :=
  filter (fun c => negb (String.eqb c "prob"))
         (filter (fun c => mem c (columns df2)) (pyset (columns df1))).

(** Lines 111-116: without a common variable both frames are copied and
    given a constant column to join on. *)
Definition join_keys (df1 df2 : DataFrame)
  : DataFrame * DataFrame * list string :=
  match common_vars df1 df2 with
  | [] => (assign_const "dummy" (Num (Fin 1)) df1,
           assign_const "dummy" (Num (Fin 1)) df2,
           ["dummy"])
  | common => (df1, df2, common)
  end.

(** Lines 120-124: the product column and the removal of the columns that
    the join left behind. *)
Definition product_column (merged_df : DataFrame) : result DataFrame :=
  px <- column "prob_x" merged_df ;;
  py <- column "prob_y" merged_df ;;
  prod <- zip_mul px py ;;
  let merged_df := assign "prob" prod merged_df in
  merged_df <- drop ["prob_x"; "prob_y"] merged_df ;;
  if has_column "dummy" merged_df then drop ["dummy"] merged_df
  else Ok merged_df.

Definition multiplication (net : Network) (factor1 factor2 : factor_arg)
  : result DataFrame :=
  df1 <- resolve net factor1 ;;
  df2 <- resolve net factor2 ;;
  let '(df1, df2, common) := join_keys df1 df2 in
  merged_df <- merge df1 df2 common ;;
  product_column merged_df.

(* ================================================================== *)
(** ** [VariableElimination.sum_out] *)

Definition remaining_vars (variable : string) (df : DataFrame) : list string :=
  filter (fun col => negb (String.eqb col variable || String.eqb col "prob"))
         (columns df).

Definition sum_out (net : Network) (variable : string) (factor : factor_arg)
  : result DataFrame :=
  df <- resolve net factor ;;
  groupby_prob_sum (remaining_vars variable df) df.

(* ================================================================== *)
(** ** [VariableElimination.elimination_order] *)

(** The source of randomness is a tape of draws; [random.choice(seq)] reads
    one draw and returns [seq[draw mod len(seq)]]. *)
Definition tape : Type := list nat.

Definition random_choice (rng : tape) (seq : list string) : string * tape :=
  match rng with
  | [] => (nth 0 seq "", [])
  | d :: rng' => (nth (d mod List.length seq) seq "", rng')
  end.

(** [min(iterable, key=...)] and [max(iterable, key=...)] return the first
    extremal element. *)
Fixpoint first_min (best : string * nat) (l : list (string * nat)) : string :=
  match l with
  | [] => fst best
  | x :: l' => if Nat.ltb (snd x) (snd best) then first_min x l' else first_min best l'
  end.

Fixpoint first_max (best : string * nat) (l : list (string * nat)) : string :=
  match l with
  | [] => fst best
  | x :: l' => if Nat.ltb (snd best) (snd x) then first_max x l' else first_max best l'
  end.

Definition extremum (pick : string * nat -> list (string * nat) -> string)
  (key : string -> result nat) (remaining : list string) : result string :=
  scored <- mapM (fun v => k <- key v ;; Ok (v, k)) remaining ;;
  match scored with
  | [] => Raise (ValueError "min() arg is an empty sequence")
  | x :: l => Ok (pick x l)
  end.

Definition key_size (net : Network) (var : string) : result nat :=
  df <- dict_item var (probabilities net) ;; Ok (List.length (rows df)).

Definition key_incoming (net : Network) (var : string) : result nat :=
  ps <- dict_item var (parents net) ;; Ok (List.length ps).

Definition key_outgoing (net : Network) (var : string) : result nat :=
  Ok (List.length (filter (fun child =>
                        match dict_get child (parents net) with
                        | Some ps => mem var ps
                        | None => false
                        end) (nodes net))).

Definition key_factors (net : Network) (var : string) : result nat :=
  Ok (List.length (filter (has_column var) (dict_values (probabilities net)))).

(** One pass of the [while] loop: the variable chosen and the tape left. *)
Definition choose (h : heuristic) (net : Network) (remaining : list string)
  (rng : tape) : result (string * tape) :=
  let random := Ok (random_choice rng remaining) in
  let by_key := fun pick key =>
    v <- extremum pick key remaining ;; Ok (v, rng) in
  match h with
  | Named name =>
      if String.eqb name "random" then random
      else if String.eqb name "min-size" then by_key first_min (key_size net)
      else if String.eqb name "least-incoming-arcs" then by_key first_min (key_incoming net)
      else if String.eqb name "outgoing-arcs-first" then by_key first_max (key_outgoing net)
      else if String.eqb name "min-weight" then by_key first_min (key_size net)
      else if String.eqb name "fewest-factors" then by_key first_min (key_factors net)
      else random
  | Ordering _ => random
  end.

(** The loop runs while [remaining] is not empty; every pass removes one
    element, so [fuel] = the size of the set is enough. *)
Fixpoint order_loop (fuel : nat) (h : heuristic) (net : Network)
  (remaining : list string) (rng : tape) : result (list string) :=
  match remaining, fuel with
  | [], _ => Ok []
  | _ :: _, O => Raise (ValueError "out of fuel")
  | _ :: _, S fuel' =>
      vr <- choose h net remaining rng ;;
      rest <- order_loop fuel' h net (set_remove (fst vr) remaining) (snd vr) ;;
      Ok (fst vr :: rest)
  end.

Definition elimination_order (net : Network) (h : heuristic) (observed : evidence)
  (rng : tape) : result (list string) :=
  let remaining_variables := set_diff (pyset (nodes net)) (pyset (dict_keys observed)) in
  order_loop (List.length remaining_variables) h net remaining_variables rng.

(* ================================================================== *)
(** ** [VariableElimination.run] *)

(** [dict.copy()] is shallow: the working dictionary starts with the very
    frame objects held by the network.  The only statement of [run] that
    changes a frame in place is the normalisation of step 4, so it is enough
    to remember, for each tracked frame, under which key of the network it is
    stored, if any. *)
Record tracked : Type := mkTracked {
  origin : option string;
  frame : DataFrame
}.

Definition fresh (df : DataFrame) : tracked := mkTracked None df.

Definition copy_probabilities (p : dict DataFrame) : dict tracked :=
  map (fun kv => (fst kv, mkTracked (Some (fst kv)) (snd kv))) p.

(** [[f for f in factors if var in factors[f].columns]] *)
Definition related_factors (var : string) (factors : dict tracked) : list string :=
  dict_keys (filter (fun kv => has_column var (frame (snd kv))) factors).

Fixpoint multiply_related (net : Network) (factors : dict tracked)
  (combined : DataFrame) (fs : list string) : result DataFrame :=
  match fs with
  | [] => Ok combined
  | f :: fs' =>
      t <- dict_item f factors ;;
      c <- multiplication net (Frame combined) (Frame (frame t)) ;;
      multiply_related net factors c fs'
  end.

Definition delete_all (fs : list string) (factors : dict tracked) : dict tracked :=
  fold_left (fun d f => dict_del f d) fs factors.

(** One pass of the loop of step 1. *)
Definition eliminate_var (net : Network) (var : string) (factors : dict tracked)
  : result (dict tracked) :=
  match related_factors var factors with
  | [] => Ok factors
  | f0 :: fs =>
      t0 <- dict_item f0 factors ;;
      combined_factor <- multiply_related net factors (frame t0) fs ;;
      reduced_factor <- sum_out net var (Frame combined_factor) ;;
      Ok (dict_set (concat_str "reduced_" var) (fresh reduced_factor)
                   (delete_all (f0 :: fs) factors))
  end.

Fixpoint eliminate (net : Network) (order : list string) (factors : dict tracked)
  : result (dict tracked) :=
  match order with
  | [] => Ok factors
  | var :: order' =>
      factors' <- eliminate_var net var factors ;;
      eliminate net order' factors'
  end.

(** Step 2; [None] when there is no factor at all. *)
Fixpoint multiply_remaining (net : Network) (final_factor : option tracked)
  (fs : list tracked) : result (option tracked) :=
  match fs with
  | [] => Ok final_factor
  | f :: fs' =>
      match final_factor with
      | None => multiply_remaining net (Some f) fs'
      | Some acc =>
          m <- multiplication net (Frame (frame acc)) (Frame (frame f)) ;;
          multiply_remaining net (Some (fresh m)) fs'
      end
  end.

(** Step 3. *)
Definition extra_vars (query : string) (df : DataFrame) : list string :=
  filter (fun col => negb (String.eqb col query || String.eqb col "prob"))
         (columns df).

Fixpoint remove_extra (net : Network) (observed : evidence) (vars : list string)
  (final_factor : tracked) : result tracked :=
  match vars with
  | [] => Ok final_factor
  | var :: vars' =>
      f <- match dict_get var observed with
           | Some value =>
               sel <- select_eq var value (frame final_factor) ;;
               drop [var] sel
           | None => sum_out net var (Frame (frame final_factor))
           end ;;
      remove_extra net observed vars' (fresh f)
  end.

(** Step 4: [final_factor['prob'] /= final_factor['prob'].sum()]. *)
Definition normalize (df : DataFrame) : result DataFrame :=
  cs <- column "prob" df ;;
  xs <- mapM as_num cs ;;
  let total := nansum xs in
  Ok (assign "prob" (map (fun x => Num (num_div x total)) xs) df).

(** The in-place update reaches the network when the final factor is one of
    its own frames. *)
Definition write_back (net : Network) (final_factor : tracked) (df : DataFrame)
  : Network :=
  match origin final_factor with
  | Some key => with_probabilities net (dict_set key df (probabilities net))
  | None => net
  end.

(** Lines 36-38: the variables that step 1 eliminates, in order. *)
Definition elimination_sequence (net1 : Network) (query : string)
  (observed : evidence) (h : heuristic) (rng : tape) : result (list string) :=
  order <- elimination_order net1 h observed rng ;;
  Ok (filter (fun var => negb (String.eqb var query)) order).

(** What follows the evidence incorporation, up to the factor that step 4
    normalises. *)
Definition final_factor_of (net1 : Network) (query : string) (observed : evidence)
  (h : heuristic) (rng : tape) : result tracked :=
  order <- elimination_sequence net1 query observed h rng ;;
  factors <- eliminate net1 order (copy_probabilities (probabilities net1)) ;;
  final <- multiply_remaining net1 None (dict_values factors) ;;
  match final with
  | None => Raise AttributeError
  | Some final_factor =>
      remove_extra net1 observed (extra_vars query (frame final_factor))
                   final_factor
  end.

(** [run] returns what the call returns or raises, together with the network
    object as the call leaves it. *)
Definition run (net : Network) (query : string) (observed : evidence)
  (h : heuristic) (rng : tape) : result DataFrame * Network :=
  let net1 := simplification observed net in
  match final_factor_of net1 query observed h rng with
  | Raise e => (Raise e, net1)
  | Ok final_factor =>
      match normalize (frame final_factor) with
      | Raise e => (Raise e, net1)
      | Ok df => (Ok df, write_back net1 final_factor df)
      end
  end.

(** Lines 38-83 for a given outcome of the call at line 36.  The ordering
    that [elimination_order] returns depends on the order in which Python
    iterates a set, which varies with the process and with the way the set
    was built; everything after that call depends on the ordering only. *)
Definition final_factor_from (net1 : Network) (query : string)
  (observed : evidence) (elimination_order : result (list string))
  : result tracked :=
  order <- elimination_order ;;
  let order := filter (fun var => negb (String.eqb var query)) order in
  factors <- eliminate net1 order (copy_probabilities (probabilities net1)) ;;
  final <- multiply_remaining net1 None (dict_values factors) ;;
  match final with
  | None => Raise AttributeError
  | Some final_factor =>
      remove_extra net1 observed (extra_vars query (frame final_factor))
                   final_factor
  end.

Definition run_from (net : Network) (query : string) (observed : evidence)
  (elimination_order : result (list string)) : result DataFrame * Network :=
  let net1 := simplification observed net in
  match final_factor_from net1 query observed elimination_order with
  | Raise e => (Raise e, net1)
  | Ok final_factor =>
      match normalize (frame final_factor) with
      | Raise e => (Raise e, net1)
      | Ok df => (Ok df, write_back net1 final_factor df)
      end
  end.

(* ================================================================== *)
(** ** Factors *)

(** The variables of a table: its labels other than [prob]. *)
Definition scope (df : DataFrame) : list string :=
  filter (fun c => negb (String.eqb c "prob")) (columns df).

Definition prob_cell (df : DataFrame) (r : row) : option cell :=
  row_get (columns df) "prob" r.

(** A factor: distinct labels, one of them [prob]; every row has one cell per
    label, a string under each variable and a finite number under [prob]. *)
Record factor (df : DataFrame) : Prop := mkFactor {
  factor_labels : NoDup (columns df);
  factor_prob : In "prob" (columns df);
  factor_aligned :
    Forall (fun r => List.length r = List.length (columns df)) (rows df);
  factor_numeric :
    Forall (fun r => exists q, prob_cell df r = Some (Num (Fin q))) (rows df);
  factor_values :
    Forall (fun r => forall c, In c (scope df) ->
                     exists s, row_get (columns df) c r = Some (Str s)) (rows df)
}.

(** A table: as a factor, but the number under [prob] may be any number, an
    infinity included. *)
Record table (df : DataFrame) : Prop := mkTable {
  table_labels : NoDup (columns df);
  table_prob : In "prob" (columns df);
  table_aligned :
    Forall (fun r => List.length r = List.length (columns df)) (rows df);
  table_numeric :
    Forall (fun r => exists x, prob_cell df r = Some (Num x)) (rows df);
  table_values :
    Forall (fun r => forall c, In c (scope df) ->
                     exists s, row_get (columns df) c r = Some (Str s)) (rows df)
}.

Definition rows_distinct (df : DataFrame) : Prop := NoDup (rows df).

(** Equality of numbers as values: two fractions of the same rational are the
    same number. *)
Definition num_equiv (a b : num) : Prop :=
  match a, b with
  | Fin x, Fin y => (x == y)%Q
  | PInf, PInf | NInf, NInf | NaN, NaN => True
  | _, _ => False
  end.

Definition result_equiv (a b : result num) : Prop :=
  match a, b with
  | Ok x, Ok y => num_equiv x y
  | _, _ => False
  end.

(** The rational a finite number stands for, and exact sums. *)
Definition qval (x : num) : Q :=
  match x with
  | Fin q => q
  | _ => 0%Q
  end.

Fixpoint Qsum (l : list Q) : Q :=
  match l with
  | [] => 0%Q
  | q :: l' => (q + Qsum l')%Q
  end.

Definition finite (x : num) : Prop := exists q, x = Fin q.

Definition string_cell (c : cell) : Prop := exists s, c = Str s.

(** Summing out the variables [vs] one after the other. *)
Fixpoint sum_out_all (net : Network) (vs : list string) (df : DataFrame)
  : result DataFrame :=
  match vs with
  | [] => Ok df
  | v :: vs' => df' <- sum_out net v (Frame df) ;; sum_out_all net vs' df'
  end.

(** Labels that [multiplication] uses for its own bookkeeping. *)
Definition reserved : list string := ["dummy"; "prob_x"; "prob_y"].

Definition avoids_reserved (df : DataFrame) : Prop :=
  forall c, In c reserved -> ~ In c (columns df).

(** *** The relational join, following the specification

    The variables shared by [A] and [B]; two rows agree when they carry the
    same value under each shared variable; the joined pairs are the pairs of
    the cross product that agree. *)
Definition common_scope (A B : DataFrame) : list string :=
  filter (fun c => mem c (scope B)) (scope A).

Definition num_eq_dec (a b : num) : {a = b} + {a <> b}.
Proof.
  decide equality.
  destruct q as [n d], q0 as [n0 d0].
  destruct (Z.eq_dec n n0) as [->|]; [|right; congruence].
  destruct (Pos.eq_dec d d0) as [->|]; [left; reflexivity|right; congruence].
Defined.

Definition cell_eq_dec (a b : cell) : {a = b} + {a <> b}.
Proof.
  decide equality; [apply string_dec | apply num_eq_dec].
Defined.

Definition same_cell (a b : option cell) : bool :=
  match a, b with
  | Some x, Some y => if cell_eq_dec x y then true else false
  | None, None => true
  | _, _ => false
  end.

Definition agree (A B : DataFrame) (r1 r2 : row) : bool :=
  forallb (fun c => same_cell (row_get (columns A) c r1) (row_get (columns B) c r2))
          (common_scope A B).

Definition equi_join_pairs (A B : DataFrame) : list (row * row) :=
  filter (fun p => agree A B (fst p) (snd p)) (list_prod (rows A) (rows B)).

(** Row [r] of the product [M] is the join of the pair [p]. *)
Definition joined_row (A B M : DataFrame) (r : row) (p : row * row) : Prop :=
  List.length r = List.length (columns M) /\
  (forall c, In c (scope A) ->
             row_get (columns M) c r = row_get (columns A) c (fst p)) /\
  (forall c, In c (scope B) ->
             row_get (columns M) c r = row_get (columns B) c (snd p)) /\
  exists x y, prob_cell A (fst p) = Some (Num x) /\
              prob_cell B (snd p) = Some (Num y) /\
              prob_cell M r = Some (Num (num_mul x y)).

(** The labels [merge] gives to the left and to the right columns when
    [prob] is the only label the two sides share outside the keys, and the
    number in the [prob] cell of a row. *)
Definition suffix_x (c : string) : string :=
  if String.eqb c "prob" then "prob_x" else c.

Definition suffix_y (c : string) : string :=
  if String.eqb c "prob" then "prob_y" else c.

Definition prob_num (cols : list string) (r : row) : num :=
  match row_get cols "prob" r with
  | Some (Num x) => x
  | _ => NaN
  end.

(** The pairs of rows that [merge] matches, in the order of its result. *)
Definition matched_pairs (L R : DataFrame) (keys : list string)
  : list (row * row) :=
  filter (fun p => keys_agree (columns L) (columns R) keys (fst p) (snd p))
         (list_prod (rows L) (rows R)).

Definition merged_labels (L R : DataFrame) (keys : list string) : list string :=
  map suffix_x (columns L) ++ map suffix_y (filter (not_key keys) (columns R)).

Definition merged_row (R : DataFrame) (keys : list string) (p : row * row) : row :=
  fst p ++ row_select (not_key keys) (columns R) (snd p).

(** The frame after [merged_df['prob'] = ...], before the bookkeeping
    columns are dropped. *)
Definition product_labels (L R : DataFrame) (keys : list string) : list string :=
  merged_labels L R keys ++ ["prob"].

Definition product_row (L R : DataFrame) (keys : list string) (p : row * row)
  : row :=
  merged_row R keys p ++
  [Num (num_mul (prob_num (columns L) (fst p)) (prob_num (columns R) (snd p)))].

(** What the claim asks of the product [M] of [A] and [B]. *)
Definition is_product (A B M : DataFrame) : Prop :=
  NoDup (columns M) /\
  (forall c, In c (scope M) <-> In c (scope A) \/ In c (scope B)) /\
  In "prob" (columns M) /\
  avoids_reserved M /\
  Forall2 (joined_row A B M) (rows M) (equi_join_pairs A B).

(** The [prob] column of a frame, and the sums that can be formed from a list
    of numbers: [regrouped l t] when [t] is obtained by adding the elements
    of [l], each once, in some order and some grouping.  In exact arithmetic
    every such [t] is the sum of [l]; in float64 they differ by rounding. *)
Definition probs (df : DataFrame) : list num :=
  map (prob_num (columns df)) (rows df).

Inductive regrouped : list num -> num -> Prop :=
| regrouped_nil : regrouped [] (Fin 0)
| regrouped_one (x : num) : regrouped [x] x
| regrouped_add (l m : list num) (a b : num) :
    regrouped l a -> regrouped m b -> regrouped (l ++ m) (num_add a b)
| regrouped_perm (l m : list num) (a : num) :
    Permutation l m -> regrouped l a -> regrouped m a.

(** *** The [prob] column in binary64

    Whether a total survives a regrouping exactly is decided by the rounding
    of float64 addition.  [sum64] is [Series.sum()] and the group-wise
    [sum()] on binary64 numbers: missing values are skipped and the values
    are added from the first to the last (what numpy and pandas do on the
    columns of fewer than eight values used below).  [sum_out64] is
    [sum_out] on a frame [df] of variable columns whose [prob] column holds
    the binary64 numbers [prob], row by row: the groups are formed as in
    [groupby_prob_sum], the sums are binary64 sums. *)
Definition sum64 (l : list PrimFloat.float) : PrimFloat.float :=
  fold_left (fun acc x => if PrimFloat.is_nan x then acc else PrimFloat.add acc x)
            l PrimFloat.zero.

Definition groupby_prob_sum64 (keys : list string) (df : DataFrame)
  (prob : list PrimFloat.float) : result (DataFrame * list PrimFloat.float) :=
  match keys, rows df with
  | [], _ :: _ => Raise (ValueError "No group keys passed!")
  | [], [] => Ok (mkDF ["index"] [], [])
  | _ :: _, _ =>
      ks <- mapM (row_project (columns df) keys) (rows df) ;;
      let keyed := filter (fun kx => negb (existsb cell_is_nan (fst kx)))
                          (combine ks prob) in
      let groups := sort_keys (distinct keys_eqb (map fst keyed)) in
      Ok (mkDF keys groups,
          map (fun k => sum64 (map snd (filter (fun kx => keys_eqb (fst kx) k)
                                               keyed)))
              groups)
  end.

Definition sum_out64 (variable : string) (df : DataFrame)
  (prob : list PrimFloat.float) : result (DataFrame * list PrimFloat.float) :=
  groupby_prob_sum64 (remaining_vars variable df) df prob.

(** *** Networks *)

Definition labels_distinct (net : Network) : Prop :=
  forall key df, In (key, df) (probabilities net) -> NoDup (columns df).

Definition absent_from_tables (v : string) (net : Network) : Prop :=
  forall key df, In (key, df) (probabilities net) -> ~ In v (columns df).

Definition absent_from_factors (v : string) (factors : dict tracked) : Prop :=
  forall key t, In (key, t) factors -> ~ In v (columns (frame t)).

(** A name the network knows nothing of: no node, no label of a table, and
    not one of the two labels the computation itself introduces. *)
Definition unknown (net : Network) (v : string) : Prop :=
  ~ In v (nodes net) /\ absent_from_tables v net /\
  v <> "prob" /\ v <> "index".

(* ================================================================== *)
(** ** Sample tables and networks *)

Definition yes : cell := Str "True".
Definition no : cell := Str "False".
Definition pr (n : Z) (d : positive) : cell := Num (Fin (n # d)).

(** One node [A]. *)
Definition cpt_A : DataFrame :=
  mkDF ["A"; "prob"] [[yes; pr 3 10]; [no; pr 7 10]].

Definition net_A : Network :=
  mkNet ["A"] [("A", [yes; no])] [("A", [])] [("A", cpt_A)].

(** Two nodes, [A -> B]. *)
Definition cpt_B : DataFrame :=
  mkDF ["B"; "A"; "prob"]
       [[yes; yes; pr 9 10]; [no; yes; pr 1 10];
        [yes; no; pr 2 10]; [no; no; pr 8 10]].

Definition net_AB : Network :=
  mkNet ["A"; "B"] [("A", [yes; no]); ("B", [yes; no])]
        [("A", []); ("B", ["A"])] [("A", cpt_A); ("B", cpt_B)].

(** Three nodes, [A -> B -> C]. *)
Definition cpt_C : DataFrame :=
  mkDF ["C"; "B"; "prob"]
       [[yes; yes; pr 1 2]; [no; yes; pr 1 2];
        [yes; no; pr 1 4]; [no; no; pr 3 4]].

Definition net_ABC : Network :=
  mkNet ["A"; "B"; "C"]
        [("A", [yes; no]); ("B", [yes; no]); ("C", [yes; no])]
        [("A", []); ("B", ["A"]); ("C", ["B"])]
        [("A", cpt_A); ("B", cpt_B); ("C", cpt_C)].

(** [A -> B] where [A = True] has probability zero. *)
Definition cpt_A0 : DataFrame :=
  mkDF ["A"; "prob"] [[yes; pr 0 1]; [no; pr 1 1]].

Definition net_zero : Network :=
  mkNet ["A"; "B"] [("A", [yes; no]); ("B", [yes; no])]
        [("A", []); ("B", ["A"])] [("A", cpt_A0); ("B", cpt_B)].

(** A factor over a variable that happens to be called [dummy], and a factor
    over an unrelated variable. *)
Definition f_dummy : DataFrame :=
  mkDF ["dummy"; "prob"] [[yes; pr 1 4]; [no; pr 3 4]].

Definition f_X : DataFrame :=
  mkDF ["X"; "prob"] [[yes; pr 1 2]; [no; pr 1 2]].

(** A table of [B] given [A] whose [prob] values, read in binary64, add up
    to 2 in row order and to less when added group by group: as a frame of
    exact rationals, and as variable columns with a binary64 [prob]
    column. *)
Definition cpt_R : DataFrame :=
  mkDF ["B"; "A"; "prob"]
       [[yes; yes; pr 3 10]; [no; yes; pr 7 10];
        [yes; no; pr 4 10]; [no; no; pr 6 10]].

Definition vars_R : DataFrame :=
  mkDF ["B"; "A"] [[yes; yes]; [no; yes]; [yes; no]; [no; no]].

Definition tenths (n : PrimFloat.float) : PrimFloat.float :=
  PrimFloat.div n 10%float.

Definition prob_R : list PrimFloat.float :=
  [tenths 3%float; tenths 7%float; tenths 4%float; tenths 6%float].

(* ================================================================== *)
(** ** Notions used by the further properties *)

(** The scores that the heuristics of [elimination_order] compare. *)
Definition table_size (net : Network) (v : string) : nat :=
  match dict_get v (probabilities net) with
  | Some df => List.length (rows df)
  | None => O
  end.

Definition parent_count (net : Network) (v : string) : nat :=
  match dict_get v (parents net) with
  | Some ps => List.length ps
  | None => O
  end.

Definition child_count (net : Network) (v : string) : nat :=
  List.length (filter (fun child =>
                         match dict_get child (parents net) with
                         | Some ps => mem v ps
                         | None => false
                         end) (nodes net)).

Definition factor_count (net : Network) (v : string) : nat :=
  List.length (filter (has_column v) (dict_values (probabilities net))).

(** The score that each minimising heuristic compares. *)
Definition score_of (net : Network) (name : string) : option (string -> nat) :=
  if String.eqb name "min-size" then Some (table_size net)
  else if String.eqb name "least-incoming-arcs" then Some (parent_count net)
  else if String.eqb name "min-weight" then Some (table_size net)
  else if String.eqb name "fewest-factors" then Some (factor_count net)
  else None.

(** The names that [elimination_order] recognises. *)
Definition known_heuristics : list string :=
  ["random"; "min-size"; "least-incoming-arcs"; "outgoing-arcs-first";
   "min-weight"; "fewest-factors"].

(** The heuristics that look a variable up in [probabilities] or in
    [parents] with [d[k]], which raises on a missing key. *)
Definition lookup_heuristics : list string :=
  ["min-size"; "least-incoming-arcs"; "min-weight"].

(** Every tracked frame that claims to be a table of the network names a key
    of the network. *)
Definition origins_known (net : Network) (factors : dict tracked) : Prop :=
  forall k t key, In (k, t) factors -> origin t = Some key ->
                  In key (dict_keys (probabilities net)).

(** Row [r] of [F] and row [g] of [G] carry the same cell under each of the
    labels [keys]. *)
Definition agree_on (keys : list string) (F G : DataFrame) (r g : row) : bool :=
  forallb (fun c => same_cell (row_get (columns F) c r) (row_get (columns G) c g))
          keys.

(** The rows of [F] that the row [g] of the marginal [G] stands for. *)
Definition group_of (keys : list string) (F G : DataFrame) (g : row) : list row :=
  filter (fun r => agree_on keys F G r g) (rows F).

(** Two rows, of two frames, with the same cell under every label of the
    first frame. *)
Definition same_row (M M' : DataFrame) (m m' : row) : Prop :=
  forall c, In c (columns M) -> row_get (columns M) c m = row_get (columns M') c m'.

(** The labels shared by two frames hold strings in every row of both: the
    key columns that [pd.merge] compares then have the same dtype. *)
Definition string_keys (A B : DataFrame) : Prop :=
  forall c, In c (common_vars A B) ->
    Forall (fun r => exists s, row_get (columns A) c r = Some (Str s)) (rows A) /\
    Forall (fun r => exists s, row_get (columns B) c r = Some (Str s)) (rows B).

(** A network without tables. *)
Definition net_empty : Network := mkNet ["A"] [("A", [yes; no])] [("A", [])] [].

(* ================================================================== *)
(** * Properties *)

(** ** Labels and lookups *)

Lemma mem_In (c : string) (l : list string) : mem c l = true <-> In c l.
Proof.
  unfold mem. rewrite existsb_exists. split.
  - intros [x [Hx Heq]]. apply String.eqb_eq in Heq. now subst.
  - intros H. exists c. split; [assumption | apply String.eqb_refl].
Qed.

Lemma mem_false (c : string) (l : list string) : mem c l = false <-> ~ In c l.
Proof.
  rewrite <- mem_In. destruct (mem c l); split; congruence.
Qed.

Lemma has_column_In (c : string) (df : DataFrame) :
  has_column c df = true <-> In c (columns df).
Proof. apply mem_In. Qed.

Lemma mem_singleton (c v : string) : mem c [v] = String.eqb c v.
Proof. unfold mem. simpl. apply orb_false_r. Qed.

Lemma first_missing_none (labels cols : list string) :
  (forall l, In l labels -> In l cols) -> first_missing labels cols = None.
Proof.
  induction labels as [|l labels IH]; intros H; simpl; [reflexivity|].
  replace (mem l cols) with true
    by (symmetry; apply mem_In, H; now left).
  apply IH. intros l' Hl'. apply H. now right.
Qed.

(** ** Evidence incorporation *)

Lemma evidence_reduction_checked_ok (var : string) (value : cell) (df : DataFrame) :
  evidence_reduction_checked var value df = Ok (evidence_reduction var value df).
Proof.
  unfold evidence_reduction_checked, evidence_reduction, select_eq.
  destruct (has_column var df) eqn:Hc; [|reflexivity].
  simpl. unfold drop. rewrite first_missing_none; [reflexivity|].
  intros l [<-|[]]. simpl. now apply has_column_In.
Qed.

Lemma evidence_reduction_absent (var : string) (value : cell) (df : DataFrame) :
  ~ In var (columns df) -> evidence_reduction var value df = df.
Proof.
  intros H. unfold evidence_reduction.
  apply mem_false in H. unfold has_column. now rewrite H.
Qed.

Lemma evidence_reduction_columns (var : string) (value : cell) (df : DataFrame)
  (c : string) :
  In c (columns (evidence_reduction var value df)) ->
  In c (columns df) /\ c <> var.
Proof.
  unfold evidence_reduction. destruct (has_column var df) eqn:Hc.
  - unfold drop_columns, select_rows. cbn [columns].
    rewrite filter_In, mem_singleton. intros [Hin Hne]. split; [assumption|].
    apply negb_true_iff in Hne. now apply String.eqb_neq.
  - intros Hin. split; [assumption|]. intros ->.
    apply has_column_In in Hin. congruence.
Qed.

Lemma reduce_all_absent (var : string) (value : cell) (p : dict DataFrame) :
  (forall key df, In (key, df) p -> ~ In var (columns df)) ->
  reduce_all var value p = p.
Proof.
  induction p as [|[k df] p IH]; intros H; simpl; [reflexivity|].
  rewrite evidence_reduction_absent by (apply (H k); now left).
  f_equal. apply IH. intros key df' Hin. apply (H key). now right.
Qed.

Lemma reduce_all_In (var : string) (value : cell) (p : dict DataFrame)
  (key : string) (df' : DataFrame) :
  In (key, df') (reduce_all var value p) ->
  exists df, In (key, df) p /\ df' = evidence_reduction var value df.
Proof.
  unfold reduce_all. rewrite in_map_iff. intros [[k df] [Heq Hin]].
  simpl in Heq. injection Heq as <- <-. now exists df.
Qed.

Lemma with_probabilities_same (net : Network) :
  with_probabilities net (probabilities net) = net.
Proof. now destruct net. Qed.

Lemma probabilities_with (net : Network) (p : dict DataFrame) :
  probabilities (with_probabilities net p) = p.
Proof. reflexivity. Qed.

(** Every table left by [simplification] descends from a table of the network
    stored under the same key, has no label the original lacked, and has none
    of the evidence variables. *)
Lemma simplification_tables (observed : evidence) : forall (net : Network)
  (key : string) (df' : DataFrame),
  In (key, df') (probabilities (simplification observed net)) ->
  exists df, In (key, df) (probabilities net) /\
             forall c, In c (columns df') ->
                       In c (columns df) /\ ~ In c (dict_keys observed).
Proof.
  induction observed as [|[var value] observed IH]; intros net key df' Hin.
  - exists df'. split; [assumption|]. intros c Hc. split; [assumption|]. intros [].
  - simpl in Hin. apply IH in Hin. destruct Hin as [df1 [Hin1 Hcols]].
    rewrite probabilities_with in Hin1. apply reduce_all_In in Hin1.
    destruct Hin1 as [df [Hin ->]]. exists df. split; [assumption|].
    intros c Hc. destruct (Hcols c Hc) as [Hc1 Hnot].
    apply evidence_reduction_columns in Hc1. destruct Hc1 as [Hc0 Hne].
    split; [assumption|]. simpl. intros [Heq|Hk]; [now subst | now apply Hnot].
Qed.

Lemma simplification_absent (observed : evidence) : forall (net : Network),
  (forall v, In v (dict_keys observed) -> absent_from_tables v net) ->
  simplification observed net = net.
Proof.
  induction observed as [|[var value] observed IH]; intros net H; [reflexivity|].
  simpl. rewrite reduce_all_absent.
  - rewrite with_probabilities_same. apply IH. intros v Hv. apply H. now right.
  - apply (H var). now left.
Qed.

Lemma simplification_nodes (observed : evidence) : forall (net : Network),
  nodes (simplification observed net) = nodes net /\
  parents (simplification observed net) = parents net /\
  values (simplification observed net) = values net.
Proof.
  induction observed as [|[var value] observed IH]; intros net; [now repeat split|].
  simpl. destruct (IH (with_probabilities net
                         (reduce_all var value (probabilities net)))) as [H1 [H2 H3]].
  now rewrite H1, H2, H3.
Qed.

Ltac sample_labels :=
  intros key df Hin; simpl in Hin;
  repeat (destruct Hin as [Hin|Hin]; [injection Hin as <- <-|]);
  [repeat constructor; simpl; intuition discriminate .. | destruct Hin].

(** C7.  After [simplification] no evidence variable is a label of any table
    of the network (so none is in any scope), and reducing a table by a
    variable that is not among its labels returns the table itself without
    raising. *)
Theorem simplification_removes_evidence (net : Network) (observed : evidence)
  (Hnet : labels_distinct net) :
  (forall key df v,
      In (key, df) (probabilities (simplification observed net)) ->
      In v (dict_keys observed) -> ~ In v (columns df)) /\
  (forall v value df,
      ~ In v (columns df) ->
      evidence_reduction_checked v value df = Ok df /\
      evidence_reduction v value df = df).
Proof.
  split.
  - intros key df v Hin Hv Hc.
    destruct (simplification_tables observed net key df Hin) as [df0 [_ Hcols]].
    now apply (Hcols v Hc).
  - intros v value df Hv.
    rewrite evidence_reduction_checked_ok, evidence_reduction_absent by assumption.
    now split.
Qed.

Lemma simplification_removes_evidence_witness :
  labels_distinct net_AB /\
  (forall key df v,
      In (key, df) (probabilities (simplification [("A", yes)] net_AB)) ->
      In v (dict_keys [("A", yes)]) -> ~ In v (columns df)) /\
  (forall v value df,
      ~ In v (columns df) ->
      evidence_reduction_checked v value df = Ok df /\
      evidence_reduction v value df = df).
Proof.
  assert (H : labels_distinct net_AB) by sample_labels.
  split; [exact H|].
  exact (simplification_removes_evidence net_AB [("A", yes)] H).
Defined.

(** C10.  Incorporating the same evidence a second time changes nothing: the
    first pass has removed every evidence variable from every table, so the
    second pass skips every table. *)
Theorem simplification_idempotent (net : Network) (observed : evidence)
  (Hnet : labels_distinct net) :
  simplification observed (simplification observed net) =
  simplification observed net.
Proof.
  apply simplification_absent. intros v Hv key df Hin.
  destruct (simplification_tables observed net key df Hin) as [df0 [_ Hcols]].
  intros Hc. now apply (Hcols v Hc).
Qed.

Lemma simplification_idempotent_witness :
  labels_distinct net_AB /\
  simplification [("A", yes)] (simplification [("A", yes)] net_AB) =
  simplification [("A", yes)] net_AB.
Proof.
  assert (H : labels_distinct net_AB) by sample_labels.
  split; [exact H|].
  exact (simplification_idempotent net_AB [("A", yes)] H).
Defined.

(* ================================================================== *)
(** ** The entry point and the caller's network *)

(** C1.  [run] stores the evidence-reduced tables in the network it was
    given: after asking for [B] given [A = True] the table of [A] has lost
    its column [A] and one of its rows and the table of [B] keeps only the
    rows of [A = True]; a second call on the same network without evidence
    then returns the distribution of [B] given [A = True], not the prior of
    [B] that a call on the original network returns. *)
Theorem run_reduces_callers_network :
  let first := run net_AB "B" [("A", yes)] (Named "min-weight") [] in
  probabilities (snd first) =
    [("A", mkDF ["prob"] [[pr 3 10]]);
     ("B", mkDF ["B"; "prob"] [[yes; pr 9 10]; [no; pr 1 10]])] /\
  probabilities (snd first) <> probabilities net_AB /\
  fst (run net_AB "B" [] (Named "min-weight") []) =
    Ok (mkDF ["B"; "prob"] [[no; pr 59 100]; [yes; pr 41 100]]) /\
  fst (run (snd first) "B" [] (Named "min-weight") []) =
    Ok (mkDF ["B"; "prob"] [[yes; pr 9 10]; [no; pr 1 10]]).
Proof.
  cbv zeta. repeat split; try (vm_compute; reflexivity).
  vm_compute. discriminate.
Qed.

(** ** A literal ordering *)

Lemma choose_ordering (order : list string) (net : Network)
  (remaining : list string) (rng : tape) :
  choose (Ordering order) net remaining rng =
  choose (Named "random") net remaining rng.
Proof. reflexivity. Qed.

Lemma order_loop_ordering (order : list string) (net : Network) (fuel : nat) :
  forall (remaining : list string) (rng : tape),
  order_loop fuel (Ordering order) net remaining rng =
  order_loop fuel (Named "random") net remaining rng.
Proof.
  induction fuel as [|fuel IH]; intros remaining rng; destruct remaining;
    try reflexivity.
  cbn [order_loop]. rewrite choose_ordering.
  destruct (choose (Named "random") net (s :: remaining) rng) as [[v rng']|e];
    [|reflexivity].
  cbn [bind fst snd]. now rewrite IH.
Qed.

(** C2.  A list passed as [heuristic] is never read: it selects the same
    branch as ["random"], so for every network, evidence and random source
    the order is the one computed for ["random"].  On the chain
    [A -> B -> C] with query [C], the supplied order [B, A] and a random
    source that always draws the first remaining variable, the engine
    eliminates [A] and then [B]. *)
Theorem literal_ordering_ignored :
  (forall net order observed rng,
      elimination_order net (Ordering order) observed rng =
      elimination_order net (Named "random") observed rng) /\
  elimination_sequence net_ABC "C" [] (Ordering ["B"; "A"]) [0; 0; 0]%nat =
    Ok ["A"; "B"] /\
  elimination_sequence net_ABC "C" [] (Ordering ["B"; "A"]) [0; 0; 0]%nat <>
    Ok ["B"; "A"].
Proof.
  split; [|split].
  - intros. unfold elimination_order. apply order_loop_ordering.
  - vm_compute. reflexivity.
  - vm_compute. discriminate.
Qed.

(** ** Summing out the only variable *)

Lemma sum_out_whole_scope (net : Network) (F : DataFrame) (v : string) :
  rows F <> [] ->
  (forall c, In c (columns F) -> c = v \/ c = "prob") ->
  sum_out net v (Frame F) = Raise (ValueError "No group keys passed!").
Proof.
  intros Hrows Hcols. unfold sum_out. cbn [resolve bind].
  assert (Hrem : remaining_vars v F = []).
  { unfold remaining_vars.
    destruct (filter _ (columns F)) as [|c l] eqn:Hf; [reflexivity|].
    assert (Hin : In c (filter
      (fun col => negb (String.eqb col v || String.eqb col "prob")) (columns F)))
      by (rewrite Hf; now left).
    apply filter_In in Hin. destruct Hin as [Hin Hb].
    destruct (Hcols c Hin) as [->| ->].
    - now rewrite String.eqb_refl in Hb.
    - rewrite String.eqb_refl, orb_true_r in Hb. discriminate. }
  rewrite Hrem. unfold groupby_prob_sum.
  destruct (rows F); [contradiction|reflexivity].
Qed.

(** C3.  Summing [A] out of the table whose only variable is [A] raises
    [ValueError] in [groupby], which refuses an empty list of keys; no row
    holding the total is returned. *)
Theorem sum_out_only_variable_raises :
  sum_out net_A "A" (Frame cpt_A) = Raise (ValueError "No group keys passed!") /\
  prob_sum cpt_A = Ok (Fin 1).
Proof. split; vm_compute; reflexivity. Qed.

(** ** Evidence on the query variable *)

(** C8.  With evidence on the query variable the column of the query is
    dropped with the other evidence columns.  On the one-node network the
    result is a single row under the only label [prob]; on [A -> B] the
    elimination of [B] from what is left of its table raises [ValueError]. *)
Theorem query_in_evidence_loses_column :
  fst (run net_A "A" [("A", yes)] (Named "min-weight") []) =
    Ok (mkDF ["prob"] [[pr 1 1]]) /\
  fst (run net_AB "A" [("A", yes)] (Named "min-weight") []) =
    Raise (ValueError "No group keys passed!").
Proof. split; vm_compute; reflexivity. Qed.

(* ================================================================== *)
(** ** Normalisation *)

Lemma Qsign_zero (q : Q) : (q == 0)%Q -> Qsign q = Eq.
Proof.
  unfold Qsign, Qeq. simpl. intros H.
  rewrite Z.mul_1_r in H. now rewrite H.
Qed.

Lemma nansum_nonneg (qs : list Q) :
  Forall (fun q => (0 <= q)%Q) qs ->
  exists t, nansum (map Fin qs) = Fin t /\ (0 <= t)%Q /\
            ((t == 0)%Q -> Forall (fun q => (q == 0)%Q) qs).
Proof.
  induction 1 as [|q qs Hq Hqs IH].
  - exists 0%Q. simpl. split; [reflexivity|]. split; [apply Qle_refl|]. constructor.
  - destruct IH as [t [Ht [Hpos Hzero]]]. exists (Qred (q + t)).
    simpl. rewrite Ht. simpl. split; [reflexivity|].
    assert (Hsum : (0 <= q + t)%Q).
    { rewrite <- (Qplus_0_l 0). now apply Qplus_le_compat. }
    assert (Hred : (Qred (q + t) == q + t)%Q) by apply Qred_correct.
    split; [now rewrite Hred|].
    rewrite Hred. intros Hz.
    assert (Hq0 : (q == 0)%Q).
    { apply Qle_antisym; [|assumption].
      rewrite <- Hz. rewrite <- (Qplus_0_r q) at 1.
      now apply Qplus_le_compat; [apply Qle_refl|]. }
    constructor; [assumption|]. apply Hzero.
    rewrite Hq0, Qplus_0_l in Hz. assumption.
Qed.

(** The cells that [df['prob']] yields for a table whose [prob] cells are
    numbers. *)
Lemma column_prob_numeric (df : DataFrame) (P : Q -> Prop) :
  Forall (fun r => exists q, prob_cell df r = Some (Num (Fin q)) /\ P q) (rows df) ->
  exists qs, map (fun r => match row_get (columns df) "prob" r with
                           | Some x => x
                           | None => Num NaN
                           end) (rows df) = map (fun q => Num (Fin q)) qs /\
             Forall P qs /\ List.length qs = List.length (rows df).
Proof.
  unfold prob_cell. induction 1 as [|r rs [q [Hq HP]] _ [qs [IH [HPs Hlen]]]].
  - exists []. repeat split. constructor.
  - exists (q :: qs). simpl. rewrite Hq, IH. repeat split.
    + now constructor.
    + now rewrite Hlen.
Qed.

Lemma mapM_as_num_fin (qs : list Q) :
  mapM as_num (map (fun q => Num (Fin q)) qs) = Ok (map Fin qs).
Proof.
  induction qs as [|q qs IH]; simpl; [reflexivity|]. now rewrite IH.
Qed.

Lemma map_const_length {A B C : Type} (c : C) (l : list A) (m : list B) :
  List.length l = List.length m ->
  map (fun _ => c) l = map (fun _ => c) m.
Proof.
  revert m. induction l as [|a l IH]; intros [|b m] H; simpl in *;
    try discriminate; [reflexivity|]. f_equal. apply IH. lia.
Qed.

Lemma normalize_zero_sum (df : DataFrame) :
  Forall (fun r => exists q, prob_cell df r = Some (Num (Fin q)) /\ (0 <= q)%Q)
         (rows df) ->
  (exists s, prob_sum df = Ok (Fin s) /\ (s == 0)%Q) ->
  normalize df = Ok (assign_const "prob" (Num NaN) df).
Proof.
  intros Hrows [s [Hsum Hs]].
  unfold prob_sum, normalize, column in *.
  destruct (has_column "prob" df) eqn:Hc; [|discriminate].
  destruct (column_prob_numeric df _ Hrows) as [qs [Hcol [Hpos Hlen]]].
  rewrite Hcol in *. cbn [bind] in *. rewrite mapM_as_num_fin in *. cbn [bind] in *.
  destruct (nansum_nonneg qs Hpos) as [t [Ht [_ Hzero]]].
  rewrite Ht in *. injection Hsum as <-. specialize (Hzero Hs).
  unfold assign_const. do 2 f_equal.
  rewrite map_map. rewrite <- (map_const_length (Num NaN) qs (rows df) Hlen).
  apply map_ext_in. intros q Hq. rewrite Forall_forall in Hzero.
  simpl. now rewrite (Qsign_zero t Hs), (Qsign_zero q (Hzero q Hq)).
Qed.

(** C4, the claim fails.  On [A -> B] with [P(A = True) = 0], the evidence
    [A = True] and the query [B], the factor reaching step 4 sums to zero,
    and [run] raises nothing: it returns the table with [NaN] in both rows. *)
Lemma zero_sum_not_reported :
  (exists ff,
      final_factor_of (simplification [("A", yes)] net_zero) "B" [("A", yes)]
                      (Named "min-weight") [] = Ok ff /\
      prob_sum (frame ff) = Ok (Fin 0)) /\
  fst (run net_zero "B" [("A", yes)] (Named "min-weight") []) =
    Ok (mkDF ["B"; "prob"] [[yes; Num NaN]; [no; Num NaN]]) /\
  forall e, fst (run net_zero "B" [("A", yes)] (Named "min-weight") []) <> Raise e.
Proof.
  split; [|split].
  - eexists. split; vm_compute; reflexivity.
  - vm_compute. reflexivity.
  - intros e. vm_compute. discriminate.
Qed.

(** C4, amended.  When the factor that reaches step 4 has non-negative
    finite [prob] values whose sum is zero, [run] does not raise: it divides
    by the zero sum and returns that factor with [NaN] in every row of
    [prob]. *)
Theorem run_zero_sum_returns_nan (net : Network) (query : string)
  (observed : evidence) (h : heuristic) (rng : tape) (ff : tracked) :
  final_factor_of (simplification observed net) query observed h rng = Ok ff ->
  Forall (fun r => exists q, prob_cell (frame ff) r = Some (Num (Fin q)) /\ (0 <= q)%Q)
         (rows (frame ff)) ->
  (exists s, prob_sum (frame ff) = Ok (Fin s) /\ (s == 0)%Q) ->
  fst (run net query observed h rng) =
    Ok (assign_const "prob" (Num NaN) (frame ff)).
Proof.
  intros Hff Hrows Hsum. unfold run. cbv zeta. rewrite Hff.
  now rewrite (normalize_zero_sum (frame ff) Hrows Hsum).
Qed.

Lemma run_zero_sum_returns_nan_witness :
  fst (run net_zero "B" [("A", yes)] (Named "min-weight") []) =
    Ok (assign_const "prob" (Num NaN)
          (mkDF ["B"; "prob"] [[yes; pr 0 1]; [no; pr 0 1]])).
Proof.
  apply (run_zero_sum_returns_nan net_zero "B" [("A", yes)] (Named "min-weight") []
           (fresh (mkDF ["B"; "prob"] [[yes; pr 0 1]; [no; pr 0 1]]))).
  - vm_compute. reflexivity.
  - repeat constructor; exists 0%Q; (split; [reflexivity | apply Qle_refl]).
  - exists 0%Q. split; [vm_compute; reflexivity | reflexivity].
Defined.

(* ================================================================== *)
(** ** Labels of the frames the engine builds *)

Lemma In_pyset (c : string) (l : list string) : In c (pyset l) <-> In c l.
Proof.
  unfold pyset. induction l as [|x l IH]; simpl; [tauto|].
  rewrite filter_In, IH, negb_true_iff, String.eqb_neq.
  destruct (string_dec x c) as [->|Hne]; [tauto|].
  split; [tauto|]. intros [H|H]; [contradiction | right; split; assumption].
Qed.

Lemma mem_pyset (c : string) (l : list string) : mem c (pyset l) = mem c l.
Proof.
  destruct (mem c l) eqn:H.
  - apply mem_In, In_pyset, mem_In, H.
  - apply mem_false. rewrite In_pyset. now apply mem_false.
Qed.

Lemma common_vars_In (A B : DataFrame) (c : string) :
  In c (common_vars A B) <->
  In c (columns A) /\ In c (columns B) /\ c <> "prob".
Proof.
  unfold common_vars.
  rewrite !filter_In, In_pyset, mem_In, negb_true_iff, String.eqb_neq. tauto.
Qed.

Lemma assign_columns (c : string) (vals : list cell) (df : DataFrame) (c' : string) :
  In c' (columns (assign c vals df)) <-> In c' (columns df) \/ c' = c.
Proof.
  unfold assign. destruct (has_column c df) eqn:Hc; cbn [columns].
  - apply has_column_In in Hc. split; [tauto|]. intros [H| ->]; assumption.
  - rewrite in_app_iff. simpl. intuition congruence.
Qed.

Lemma drop_labels (labels : list string) (df M : DataFrame) :
  drop labels df = Ok M ->
  forall c, In c (columns M) <-> In c (columns df) /\ ~ In c labels.
Proof.
  unfold drop. destruct (first_missing labels (columns df)); [discriminate|].
  intros H c. injection H as <-. unfold drop_columns. cbn [columns].
  now rewrite filter_In, negb_true_iff, mem_false.
Qed.

Lemma product_column_labels (merged M : DataFrame) :
  product_column merged = Ok M ->
  forall c, In c (columns M) ->
            (In c (columns merged) \/ c = "prob") /\
            c <> "prob_x" /\ c <> "prob_y" /\ c <> "dummy".
Proof.
  unfold product_column.
  destruct (column "prob_x" merged) as [px|]; cbn [bind]; [|discriminate].
  destruct (column "prob_y" merged) as [py|]; cbn [bind]; [|discriminate].
  destruct (zip_mul px py) as [prod|]; cbn [bind]; [|discriminate].
  destruct (drop ["prob_x"; "prob_y"] (assign "prob" prod merged)) as [D|] eqn:HD;
    cbn [bind]; [|discriminate].
  pose proof (drop_labels _ _ _ HD) as HDl.
  assert (Hfrom : forall c, In c (columns D) ->
            (In c (columns merged) \/ c = "prob") /\ c <> "prob_x" /\ c <> "prob_y").
  { intros c Hc. apply HDl in Hc. destruct Hc as [Hc Hn].
    apply assign_columns in Hc. simpl in Hn. intuition. }
  destruct (has_column "dummy" D) eqn:Hd.
  - intros Hdrop c Hc. apply (drop_labels _ _ _ Hdrop) in Hc.
    destruct Hc as [Hc Hn]. destruct (Hfrom c Hc) as [H1 [H2 H3]].
    simpl in Hn. intuition.
  - intros H c Hc. injection H as <-. destruct (Hfrom c Hc) as [H1 [H2 H3]].
    repeat split; try assumption. intros ->.
    apply has_column_In in Hc. congruence.
Qed.

Lemma merge_labels (L R : DataFrame) (keys : list string) (M : DataFrame) :
  merge L R keys = Ok M ->
  forall c, In c (columns M) ->
            In c (columns L) \/ In c (columns R) \/
            exists c', overlapping keys (columns L) (columns R) c' = true /\
                       (c = concat_str c' "_x" \/ c = concat_str c' "_y").
Proof.
  unfold merge.
  destruct (first_missing keys (columns L)); [discriminate|].
  destruct (first_missing keys (columns R)); [discriminate|].
  intros H c. injection H as <-. cbn [columns].
  rewrite in_app_iff, !in_map_iff.
  intros [[c' [Heq Hin]]|[c' [Heq Hin]]];
    destruct (overlapping keys (columns L) (columns R) c') eqn:Hov; subst c.
  - right. right. exists c'. tauto.
  - now left.
  - right. right. exists c'. tauto.
  - right. left. now apply filter_In in Hin.
Qed.

Lemma overlapping_inv (keys lc rc : list string) (c : string) :
  overlapping keys lc rc c = true -> ~ In c keys /\ In c lc /\ In c rc.
Proof.
  unfold overlapping. rewrite !andb_true_iff, negb_true_iff, mem_false, !mem_In.
  tauto.
Qed.

Lemma join_keys_labels (A B L R : DataFrame) (keys : list string) :
  join_keys A B = (L, R, keys) ->
  (forall c, In c (columns L) -> In c (columns A) \/ c = "dummy") /\
  (forall c, In c (columns R) -> In c (columns B) \/ c = "dummy") /\
  (forall c, overlapping keys (columns L) (columns R) c = true -> c = "prob").
Proof.
  unfold join_keys. destruct (common_vars A B) as [|k ks] eqn:Hcommon; intros H;
    injection H as <- <- <-.
  - unfold assign_const. split; [|split].
    + intros c Hc. now apply assign_columns in Hc.
    + intros c Hc. now apply assign_columns in Hc.
    + intros c Hov. apply overlapping_inv in Hov. destruct Hov as [Hk [HL HR]].
      apply assign_columns in HL, HR. simpl in Hk.
      destruct HL as [HL|HL]; [|intuition congruence].
      destruct HR as [HR|HR]; [|intuition congruence].
      destruct (string_dec c "prob") as [|Hne]; [assumption|].
      assert (Hin : In c (common_vars A B)) by now apply common_vars_In.
      rewrite Hcommon in Hin. destruct Hin.
  - split; [|split]; try (intros c Hc; now left).
    intros c Hov. apply overlapping_inv in Hov. destruct Hov as [Hk [HL HR]].
    destruct (string_dec c "prob") as [|Hne]; [assumption|].
    exfalso. apply Hk. rewrite <- Hcommon. now apply common_vars_In.
Qed.

(** The labels of a product are labels of its arguments, or [prob]. *)
Lemma multiplication_labels (net : Network) (A B M : DataFrame) :
  multiplication net (Frame A) (Frame B) = Ok M ->
  forall c, In c (columns M) ->
            In c (columns A) \/ In c (columns B) \/ c = "prob".
Proof.
  unfold multiplication. cbn [resolve bind].
  destruct (join_keys A B) as [[L R] keys] eqn:Hjk.
  destruct (join_keys_labels _ _ _ _ _ Hjk) as [HL [HR Hov]].
  destruct (merge L R keys) as [merged|] eqn:Hm; cbn [bind]; [|discriminate].
  intros Hp c Hc.
  destruct (product_column_labels _ _ Hp c Hc) as [Hfrom [Hx [Hy Hd]]].
  destruct Hfrom as [Hfrom|]; [|tauto].
  destruct (merge_labels _ _ _ _ Hm c Hfrom) as [H|[H|[c' [Hc' Hren]]]].
  - destruct (HL c H); tauto.
  - destruct (HR c H); tauto.
  - apply Hov in Hc'. subst c'. destruct Hren; contradiction.
Qed.

Lemma groupby_labels (keys : list string) (df G : DataFrame) :
  groupby_prob_sum keys df = Ok G ->
  columns G = keys ++ ["prob"] \/ columns G = ["index"; "prob"].
Proof.
  unfold groupby_prob_sum. destruct keys as [|k keys].
  - destruct (rows df); [|discriminate].
    destruct (has_column "prob" df); [|discriminate].
    intros H. injection H as <-. now right.
  - destruct (mapM _ (rows df)) as [ks|]; cbn [bind]; [|discriminate].
    destruct (column "prob" df) as [cs|]; cbn [bind]; [|discriminate].
    destruct (mapM as_num cs) as [xs|]; cbn [bind]; [|discriminate].
    intros H. injection H as <-. now left.
Qed.

(** The labels of a marginal are labels of the argument, or [prob], or the
    label [index] that [reset_index] gives to the index of an empty series. *)
Lemma sum_out_labels (net : Network) (v : string) (df G : DataFrame) :
  sum_out net v (Frame df) = Ok G ->
  forall c, In c (columns G) ->
            (In c (columns df) /\ c <> v) \/ c = "prob" \/ c = "index".
Proof.
  unfold sum_out. cbn [resolve bind]. intros H c Hc.
  destruct (groupby_labels _ _ _ H) as [Hg|Hg]; rewrite Hg in Hc.
  - apply in_app_iff in Hc. destruct Hc as [Hc|[<-|[]]]; [|tauto].
    left. unfold remaining_vars in Hc. apply filter_In in Hc.
    destruct Hc as [Hin Hb]. split; [assumption|].
    apply negb_true_iff, orb_false_iff in Hb. destruct Hb as [Hb _].
    now apply String.eqb_neq.
  - simpl in Hc. intuition.
Qed.

(* ================================================================== *)
(** ** Evidence on a variable the network does not have *)

Lemma dict_item_In {V : Type} (k : string) (d : dict V) (v : V) :
  dict_item k d = Ok v -> In (k, v) d.
Proof.
  unfold dict_item. induction d as [|[k' v'] d IH]; simpl; [discriminate|].
  destruct (String.eqb k k') eqn:Hk.
  - apply String.eqb_eq in Hk. subst. intros H. injection H as ->. now left.
  - intros H. right. now apply IH.
Qed.

Lemma dict_del_In {V : Type} (k : string) (d : dict V) (x : string * V) :
  In x (dict_del k d) -> In x d.
Proof.
  induction d as [|[k' v'] d IH]; simpl; [tauto|].
  destruct (String.eqb k k'); simpl; tauto.
Qed.

Lemma delete_all_In (fs : list string) : forall (d : dict tracked) (x : string * tracked),
  In x (delete_all fs d) -> In x d.
Proof.
  unfold delete_all. induction fs as [|f fs IH]; intros d x; simpl; [tauto|].
  intros H. apply IH in H. now apply dict_del_In in H.
Qed.

Lemma dict_set_In {V : Type} (k : string) (v : V) (d : dict V) (x : string * V) :
  In x (dict_set k v d) -> x = (k, v) \/ In x d.
Proof.
  induction d as [|[k' v'] d IH]; simpl.
  - intros [<-|[]]. now left.
  - destruct (String.eqb k k'); simpl; intuition.
Qed.

Lemma dict_get_skip (var v : string) (x : cell) (obs1 obs2 : evidence) :
  var <> v ->
  dict_get var (obs1 ++ (v, x) :: obs2) = dict_get var (obs1 ++ obs2).
Proof.
  intros Hne. induction obs1 as [|[k y] obs1 IH]; simpl.
  - apply String.eqb_neq in Hne. now rewrite Hne.
  - now rewrite IH.
Qed.

Lemma absent_reduce_all (v var : string) (value : cell) (net : Network) :
  absent_from_tables v net ->
  absent_from_tables v (with_probabilities net
                          (reduce_all var value (probabilities net))).
Proof.
  intros H key df Hin. rewrite probabilities_with in Hin.
  apply reduce_all_In in Hin. destruct Hin as [df0 [Hin ->]].
  intros Hc. apply evidence_reduction_columns in Hc. now apply (H key df0).
Qed.

Lemma simplification_skip (v : string) (x : cell) (obs1 obs2 : evidence) :
  forall net, absent_from_tables v net ->
  simplification (obs1 ++ (v, x) :: obs2) net = simplification (obs1 ++ obs2) net.
Proof.
  induction obs1 as [|[var value] obs1 IH]; intros net Habs; simpl.
  - now rewrite reduce_all_absent, with_probabilities_same.
  - apply IH. now apply absent_reduce_all.
Qed.

Lemma absent_simplification (v : string) (observed : evidence) (net : Network) :
  absent_from_tables v net -> absent_from_tables v (simplification observed net).
Proof.
  intros H key df Hin.
  destruct (simplification_tables observed net key df Hin) as [df0 [Hin0 Hcols]].
  intros Hc. apply (H key df0 Hin0). now apply Hcols.
Qed.

Section UnknownVariable.

Variable v : string.
Hypothesis v_not_prob : v <> "prob".
Hypothesis v_not_index : v <> "index".

Lemma multiplication_absent (net : Network) (A B M : DataFrame) :
  ~ In v (columns A) -> ~ In v (columns B) ->
  multiplication net (Frame A) (Frame B) = Ok M -> ~ In v (columns M).
Proof.
  intros HA HB HM Hc.
  destruct (multiplication_labels net A B M HM v Hc) as [H|[H|H]]; tauto.
Qed.

Lemma sum_out_absent (net : Network) (var : string) (df G : DataFrame) :
  ~ In v (columns df) -> sum_out net var (Frame df) = Ok G -> ~ In v (columns G).
Proof.
  intros Hdf HG Hc.
  destruct (sum_out_labels net var df G HG v Hc) as [[H _]|[H|H]]; tauto.
Qed.

Lemma multiply_related_absent (net : Network) (factors : dict tracked)
  (fs : list string) : forall (combined c : DataFrame),
  absent_from_factors v factors -> ~ In v (columns combined) ->
  multiply_related net factors combined fs = Ok c -> ~ In v (columns c).
Proof.
  induction fs as [|f fs IH]; intros combined c Hfac Hcomb; simpl.
  - intros H. now injection H as <-.
  - destruct (dict_item f factors) as [t|] eqn:Ht; cbn [bind]; [|discriminate].
    destruct (multiplication net (Frame combined) (Frame (frame t))) as [m|] eqn:Hm;
      cbn [bind]; [|discriminate].
    apply IH; [assumption|].
    apply (multiplication_absent net combined (frame t) m); try assumption.
    apply (Hfac f). now apply dict_item_In.
Qed.

Lemma eliminate_var_absent (net : Network) (var : string)
  (factors factors' : dict tracked) :
  absent_from_factors v factors ->
  eliminate_var net var factors = Ok factors' ->
  absent_from_factors v factors'.
Proof.
  intros Hfac. unfold eliminate_var.
  destruct (related_factors var factors) as [|f0 fs].
  - intros H. now injection H as <-.
  - destruct (dict_item f0 factors) as [t0|] eqn:Ht0; cbn [bind]; [|discriminate].
    destruct (multiply_related net factors (frame t0) fs) as [c|] eqn:Hc;
      cbn [bind]; [|discriminate].
    destruct (sum_out net var (Frame c)) as [r|] eqn:Hr; cbn [bind]; [|discriminate].
    intros H. injection H as <-. intros key t Hin.
    apply dict_set_In in Hin. destruct Hin as [Heq|Hin].
    + injection Heq as _ ->. cbn [frame fresh].
      apply (sum_out_absent net var c r); [|assumption].
      apply (multiply_related_absent net factors fs (frame t0) c); try assumption.
      apply (Hfac f0). now apply dict_item_In.
    + apply (delete_all_In (f0 :: fs)) in Hin. now apply (Hfac key).
Qed.

Lemma eliminate_absent (net : Network) (order : list string) :
  forall (factors factors' : dict tracked),
  absent_from_factors v factors ->
  eliminate net order factors = Ok factors' ->
  absent_from_factors v factors'.
Proof.
  induction order as [|var order IH]; intros factors factors' Hfac; simpl.
  - intros H. now injection H as <-.
  - destruct (eliminate_var net var factors) as [f1|] eqn:H1; cbn [bind];
      [|discriminate].
    apply IH. now apply (eliminate_var_absent net var factors).
Qed.

Lemma multiply_remaining_absent (net : Network) (fs : list tracked) :
  forall (acc : option tracked) (ff : tracked),
  Forall (fun t => ~ In v (columns (frame t))) fs ->
  (forall a, acc = Some a -> ~ In v (columns (frame a))) ->
  multiply_remaining net acc fs = Ok (Some ff) -> ~ In v (columns (frame ff)).
Proof.
  induction fs as [|f fs IH]; intros acc ff Hfs Hacc; simpl.
  - intros H. injection H as ->. now apply Hacc.
  - inversion Hfs as [|? ? Hf Hfs']; subst. destruct acc as [a|].
    + destruct (multiplication net (Frame (frame a)) (Frame (frame f))) as [m|] eqn:Hm;
        cbn [bind]; [|discriminate].
      apply IH; [assumption|]. intros a' Ha'. injection Ha' as <-. cbn [frame fresh].
      apply (multiplication_absent net (frame a) (frame f) m); auto.
    + apply IH; [assumption|]. intros a' Ha'. now injection Ha' as <-.
Qed.

Lemma remove_extra_skip (net : Network) (x : cell) (obs1 obs2 : evidence)
  (vars : list string) : forall (ff : tracked),
  ~ In v vars ->
  remove_extra net (obs1 ++ (v, x) :: obs2) vars ff =
  remove_extra net (obs1 ++ obs2) vars ff.
Proof.
  induction vars as [|var vars IH]; intros ff Hv; simpl; [reflexivity|].
  rewrite dict_get_skip by (intros ->; apply Hv; now left).
  destruct (match dict_get var (obs1 ++ obs2) with
            | Some value => _
            | None => _
            end) as [f|]; cbn [bind]; [|reflexivity].
  apply IH. intros H. apply Hv. now right.
Qed.

Lemma copy_absent (net : Network) :
  absent_from_tables v net ->
  absent_from_factors v (copy_probabilities (probabilities net)).
Proof.
  intros H key t Hin. unfold copy_probabilities in Hin.
  apply in_map_iff in Hin. destruct Hin as [[k df] [Heq Hin]].
  injection Heq as <- <-. cbn [frame]. now apply (H k).
Qed.

Lemma final_factor_from_skip (net1 : Network) (query : string) (x : cell)
  (obs1 obs2 : evidence) (order : result (list string)) :
  absent_from_tables v net1 ->
  final_factor_from net1 query (obs1 ++ (v, x) :: obs2) order =
  final_factor_from net1 query (obs1 ++ obs2) order.
Proof.
  intros Htab. unfold final_factor_from.
  destruct order as [order|]; cbn [bind]; [|reflexivity]. cbv zeta.
  destruct (eliminate net1 _ (copy_probabilities (probabilities net1)))
    as [factors|] eqn:He; cbn [bind]; [|reflexivity].
  pose proof (eliminate_absent _ _ _ _ (copy_absent net1 Htab) He) as Hfac.
  destruct (multiply_remaining net1 None (dict_values factors)) as [[ff|]|] eqn:Hm;
    cbn [bind]; try reflexivity.
  apply remove_extra_skip. intros Hin.
  unfold extra_vars in Hin. apply filter_In in Hin. destruct Hin as [Hin _].
  revert Hin. apply (multiply_remaining_absent net1 (dict_values factors) None ff);
    [|discriminate|assumption].
  apply Forall_forall. intros t Ht. unfold dict_values in Ht.
  apply in_map_iff in Ht. destruct Ht as [[k t'] [<- Hin]]. now apply (Hfac k).
Qed.

Lemma remove_extra_absent (net : Network) (observed : evidence)
  (vars : list string) : forall (ff out : tracked),
  ~ In v (columns (frame ff)) ->
  remove_extra net observed vars ff = Ok out -> ~ In v (columns (frame out)).
Proof.
  induction vars as [|var vars IH]; intros ff out Hff; simpl.
  - intros H. now injection H as <-.
  - destruct (match dict_get var observed with
              | Some value => _
              | None => _
              end) as [f|] eqn:Hf; cbn [bind]; [|discriminate].
    apply IH. cbn [frame fresh].
    destruct (dict_get var observed) as [value|].
    + unfold select_eq in Hf.
      destruct (has_column var (frame ff)); cbn [bind] in Hf; [|discriminate].
      intros Hin. apply (drop_labels _ _ _ Hf) in Hin. now destruct Hin.
    + now apply (sum_out_absent net var (frame ff)).
Qed.

Lemma final_factor_absent (net1 : Network) (query : string) (observed : evidence)
  (h : heuristic) (rng : tape) (ff : tracked) :
  absent_from_tables v net1 ->
  final_factor_of net1 query observed h rng = Ok ff ->
  ~ In v (columns (frame ff)).
Proof.
  intros Htab. unfold final_factor_of.
  destruct (elimination_sequence net1 query observed h rng) as [order|];
    cbn [bind]; [|discriminate].
  destruct (eliminate net1 order (copy_probabilities (probabilities net1)))
    as [factors|] eqn:He; cbn [bind]; [|discriminate].
  pose proof (eliminate_absent _ _ _ _ (copy_absent net1 Htab) He) as Hfac.
  destruct (multiply_remaining net1 None (dict_values factors)) as [[f0|]|] eqn:Hm;
    cbn [bind]; try discriminate.
  apply remove_extra_absent.
  apply (multiply_remaining_absent net1 (dict_values factors) None f0);
    [|discriminate|assumption].
  apply Forall_forall. intros t Ht. unfold dict_values in Ht.
  apply in_map_iff in Ht. destruct Ht as [[k t'] [<- Hin]]. now apply (Hfac k).
Qed.

End UnknownVariable.

(** Whatever the network, a call whose query is among the evidence variables
    never returns a table that has the query as a label. *)
Lemma observed_query_never_returned (net : Network) (query : string)
  (observed : evidence) (h : heuristic) (rng : tape) (df : DataFrame) :
  In query (dict_keys observed) -> query <> "prob" -> query <> "index" ->
  fst (run net query observed h rng) = Ok df -> ~ In query (columns df).
Proof.
  intros Hq Hp Hi. unfold run. cbv zeta.
  destruct (final_factor_of (simplification observed net) query observed h rng)
    as [ff|] eqn:Hff; [|discriminate].
  assert (Habs : ~ In query (columns (frame ff))).
  { apply (final_factor_absent query Hp Hi _ _ _ _ _ _) in Hff; [assumption|].
    intros key t Hin Hc.
    destruct (simplification_tables observed net key t Hin) as [df0 [_ Hcols]].
    now apply (Hcols query Hc). }
  unfold normalize.
  destruct (column "prob" (frame ff)) as [cs|]; cbn [bind]; [|discriminate].
  destruct (mapM as_num cs) as [xs|]; cbn [bind]; [|discriminate].
  cbn [fst]. intros H. injection H as <-. intros Hin.
  apply assign_columns in Hin. tauto.
Qed.

(** C5, the claim fails.  Evidence on [Burglary], which is not a node of the
    one-node network, is not rejected: [run] returns the prior of [A].  A
    value outside the value set is not rejected either: with [A = Maybe] the
    call on [A -> B] returns the table of [B] without any row.  Nor is a
    query that is not a node: asked for [Z], [run] returns a table with the
    single label [prob]. *)
Lemma unknown_evidence_not_rejected :
  ~ In "Burglary" (nodes net_A) /\
  fst (run net_A "A" [("Burglary", yes)] (Named "min-weight") []) =
    Ok (mkDF ["A"; "prob"] [[yes; pr 3 10]; [no; pr 7 10]]) /\
  dict_get "A" (values net_AB) = Some [yes; no] /\
  fst (run net_AB "B" [("A", Str "Maybe")] (Named "min-weight") []) =
    Ok (mkDF ["B"; "prob"] []) /\
  ~ In "Z" (nodes net_A) /\
  fst (run net_A "Z" [("A", yes)] (Named "min-weight") []) =
    Ok (mkDF ["prob"] [[pr 1 1]]).
Proof.
  repeat split; try (vm_compute; reflexivity);
    simpl; intuition discriminate.
Qed.

(* ================================================================== *)
(** ** Rows *)

Lemma row_get_app_left (l1 l2 : list string) (c : string) : forall (r1 r2 : row),
  List.length r1 = List.length l1 -> In c l1 ->
  row_get (l1 ++ l2) c (r1 ++ r2) = row_get l1 c r1.
Proof.
  induction l1 as [|c1 l1 IH]; intros r1 r2 Hlen Hin; [destruct Hin|].
  destruct r1 as [|x r1]; [discriminate|]. simpl.
  destruct (String.eqb c c1) eqn:Hc; [reflexivity|].
  apply IH; [simpl in Hlen; lia|].
  destruct Hin as [->|Hin]; [|assumption]. now rewrite String.eqb_refl in Hc.
Qed.

Lemma row_get_app_right (l1 l2 : list string) (c : string) : forall (r1 r2 : row),
  List.length r1 = List.length l1 -> ~ In c l1 ->
  row_get (l1 ++ l2) c (r1 ++ r2) = row_get l2 c r2.
Proof.
  induction l1 as [|c1 l1 IH]; intros r1 r2 Hlen Hin.
  - now destruct r1.
  - destruct r1 as [|x r1]; [discriminate|]. simpl.
    destruct (String.eqb c c1) eqn:Hc.
    + apply String.eqb_eq in Hc. subst. exfalso. apply Hin. now left.
    + apply IH; [simpl in Hlen; lia|]. intros H. apply Hin. now right.
Qed.

Lemma row_get_present (cols : list string) (c : string) : forall (r : row),
  List.length r = List.length cols -> In c cols ->
  exists x, row_get cols c r = Some x.
Proof.
  induction cols as [|c1 cols IH]; intros r Hlen Hin; [destruct Hin|].
  destruct r as [|x r]; [discriminate|]. simpl.
  destruct (String.eqb c c1) eqn:Hc; [now exists x|].
  apply IH; [simpl in Hlen; lia|].
  destruct Hin as [->|Hin]; [|assumption]. now rewrite String.eqb_refl in Hc.
Qed.

Lemma row_get_In (cols : list string) (c : string) : forall (r : row) (x : cell),
  row_get cols c r = Some x -> In c cols /\ In x r.
Proof.
  induction cols as [|c1 cols IH]; intros r x; [discriminate|].
  destruct r as [|y r]; [discriminate|]. simpl.
  destruct (String.eqb c c1) eqn:Hc.
  - apply String.eqb_eq in Hc. intros H. injection H as ->. subst. split; now left.
  - intros H. apply IH in H. tauto.
Qed.

(** Projecting a row on labels that it has. *)
Lemma row_project_ok (cols : list string) (r : row) (P : cell -> Prop) :
  forall keys : list string,
  (forall k, In k keys -> exists x, row_get cols k r = Some x /\ P x) ->
  exists ks, row_project cols keys r = Ok ks /\
             List.length ks = List.length keys /\
             Forall P ks /\
             forall c, In c keys -> row_get keys c ks = row_get cols c r.
Proof.
  induction keys as [|k keys IH]; intros H.
  - exists []. repeat split; [constructor | intros c []].
  - destruct (H k (or_introl eq_refl)) as [x [Hx HP]].
    destruct IH as [ks [Hks [Hlen [HPs Hget]]]].
    { intros k' Hk'. apply H. now right. }
    exists (x :: ks). simpl. rewrite Hx, Hks. cbn [bind].
    repeat split; [now rewrite Hlen | now constructor |].
    intros c Hc. destruct (String.eqb c k) eqn:Hck.
    + apply String.eqb_eq in Hck. now subst.
    + apply Hget. destruct Hc as [->|Hc]; [|assumption].
      now rewrite String.eqb_refl in Hck.
Qed.

Lemma mapM_Forall2 {A B : Type} (f : A -> result B) (R : A -> B -> Prop)
  (l : list A) :
  Forall (fun a => exists b, f a = Ok b /\ R a b) l ->
  exists bs, mapM f l = Ok bs /\ Forall2 R l bs.
Proof.
  induction 1 as [|a l [b [Hb HR]] _ [bs [Hbs HF]]].
  - exists []. split; [reflexivity | constructor].
  - exists (b :: bs). simpl. rewrite Hb, Hbs. split; [reflexivity | now constructor].
Qed.

Lemma mapM_as_num_map {A : Type} (f : A -> num) (l : list A) :
  mapM as_num (map (fun a => Num (f a)) l) = Ok (map f l).
Proof.
  induction l as [|a l IH]; simpl; [reflexivity|]. now rewrite IH.
Qed.

(* ================================================================== *)
(** ** Exact sums *)

Lemma nansum_finite (l : list num) :
  Forall finite l ->
  exists t, nansum l = Fin t /\ (t == Qsum (map qval l))%Q.
Proof.
  induction 1 as [|x l [q ->] _ [t [Ht Heq]]].
  - exists 0%Q. split; reflexivity.
  - exists (Qred (q + t)). simpl. rewrite Ht. split; [reflexivity|].
    assert (Hred : (Qred (q + t) == q + t)%Q) by apply Qred_correct.
    rewrite Hred. simpl. now rewrite Heq.
Qed.

Lemma Qsum_map_plus {A : Type} (f g : A -> Q) (l : list A) :
  (Qsum (map (fun a => f a + g a) l) == Qsum (map f l) + Qsum (map g l))%Q.
Proof.
  induction l as [|a l IH]; simpl; [reflexivity|]. rewrite IH. ring.
Qed.

Lemma Qsum_map_ext {A : Type} (f g : A -> Q) (l : list A) :
  (forall a, In a l -> (f a == g a)%Q) ->
  (Qsum (map f l) == Qsum (map g l))%Q.
Proof.
  induction l as [|a l IH]; intros H; simpl; [reflexivity|].
  rewrite (H a (or_introl eq_refl)), IH; [reflexivity|].
  intros b Hb. apply H. now right.
Qed.

Lemma Qsum_zero {A : Type} (l : list A) :
  (Qsum (map (fun _ => 0) l) == 0)%Q.
Proof.
  induction l as [|a l IH]; simpl; [reflexivity|]. rewrite IH. ring.
Qed.

Lemma Qsum_indicator {A : Type} (eqb : A -> bool) (k : A) (a : Q) (l : list A) :
  NoDup l -> In k l ->
  (forall g, In g l -> (eqb g = true <-> k = g)) ->
  (Qsum (map (fun g => if eqb g then a else 0) l) == a)%Q.
Proof.
  induction 1 as [|g l Hg Hnd IH]; intros Hin Heqb; [destruct Hin|]. simpl.
  destruct Hin as [->|Hin].
  - replace (eqb k) with true
      by (symmetry; now apply (Heqb k (or_introl eq_refl))).
    rewrite (Qsum_map_ext _ (fun _ => 0%Q)).
    + rewrite Qsum_zero. ring.
    + intros b Hb. destruct (eqb b) eqn:Hbk; [|reflexivity].
      apply (Heqb b (or_intror Hb)) in Hbk. subst. contradiction.
  - replace (eqb g) with false.
    + rewrite IH; [ring|assumption|]. intros b Hb. apply Heqb. now right.
    + symmetry. destruct (eqb g) eqn:Hgk; [|reflexivity].
      apply (Heqb g (or_introl eq_refl)) in Hgk. subst. contradiction.
Qed.

(** The sums of the groups add up to the sum of all rows. *)
Lemma group_sums (groups : list (list cell)) (keyed : list (list cell * num)) :
  NoDup groups ->
  (forall kx, In kx keyed -> In (fst kx) groups) ->
  (forall kx g, In kx keyed -> In g groups ->
                (keys_eqb (fst kx) g = true <-> fst kx = g)) ->
  (Qsum (map (fun g => Qsum (map qval (group_rows keyed g))) groups) ==
   Qsum (map qval (map snd keyed)))%Q.
Proof.
  intros Hnd. induction keyed as [|[k x] keyed IH]; intros Hin Heqb.
  - unfold group_rows. simpl. apply Qsum_zero.
  - rewrite (Qsum_map_ext _
      (fun g => (if keys_eqb k g then qval x else 0) +
                Qsum (map qval (group_rows keyed g)))%Q).
    + rewrite Qsum_map_plus, IH.
      * rewrite (Qsum_indicator (keys_eqb k) k); [reflexivity|assumption| |].
        -- apply (Hin (k, x)). now left.
        -- intros g Hg. apply (Heqb (k, x) g); [now left | assumption].
      * intros kx Hkx. apply Hin. now right.
      * intros kx g Hkx. apply Heqb. now right.
    + intros g _. unfold group_rows. simpl.
      destruct (keys_eqb k g); simpl; ring.
Qed.

(* ================================================================== *)
(** ** Group keys *)

Lemma insert_key_perm (k : list cell) (l : list (list cell)) :
  Permutation (insert_key k l) (k :: l).
Proof.
  induction l as [|k' l IH]; simpl; [reflexivity|].
  destruct (key_leb k k'); [reflexivity|].
  rewrite IH. apply perm_swap.
Qed.

Lemma sort_keys_perm (l : list (list cell)) : Permutation (sort_keys l) l.
Proof.
  induction l as [|k l IH]; simpl; [reflexivity|].
  rewrite insert_key_perm. now apply perm_skip.
Qed.

Lemma distinct_spec {A : Type} (eqb : A -> A -> bool) (l : list A) :
  (forall x y, In x l -> In y l -> (eqb x y = true <-> x = y)) ->
  NoDup (distinct eqb l) /\ forall x, In x (distinct eqb l) <-> In x l.
Proof.
  induction l as [|a l IH]; intros Heqb; simpl.
  - split; [constructor | tauto].
  - destruct IH as [Hnd Hin].
    { intros x y Hx Hy. apply Heqb; now right. }
    split.
    + constructor; [|now apply NoDup_filter].
      rewrite filter_In. intros [_ Hb].
      rewrite (proj2 (Heqb a a (or_introl eq_refl) (or_introl eq_refl)) eq_refl) in Hb.
      discriminate.
    + intros x. rewrite filter_In, Hin, negb_true_iff. split; [tauto|].
      intros [->|Hx]; [now left|].
      destruct (eqb a x) eqn:Hax; [|tauto].
      left. now apply (Heqb a x (or_introl eq_refl) (or_intror Hx)).
Qed.

Lemma keys_eqb_string (a : list cell) : forall b : list cell,
  Forall string_cell a -> (keys_eqb a b = true <-> a = b).
Proof.
  induction a as [|x a IH]; intros [|y b] Ha; simpl;
    try (split; [discriminate|discriminate]); [tauto|].
  inversion Ha as [|? ? [s ->] Ha']; subst.
  rewrite andb_true_iff, (IH b Ha'). destruct y as [t|n]; simpl.
  - rewrite String.eqb_eq. split; [intros [-> ->]; reflexivity|].
    intros H. injection H as -> ->. now split.
  - split; [intros [H _]; discriminate | discriminate].
Qed.

Lemma string_key_no_nan (k : list cell) :
  Forall string_cell k -> existsb cell_is_nan k = false.
Proof.
  induction 1 as [|x k [s ->] _ IH]; simpl; [reflexivity | assumption].
Qed.

Lemma filter_all {A : Type} (f : A -> bool) (l : list A) :
  (forall x, In x l -> f x = true) -> filter f l = l.
Proof.
  induction l as [|a l IH]; intros H; simpl; [reflexivity|].
  rewrite (H a (or_introl eq_refl)). f_equal. apply IH. intros x Hx. apply H. now right.
Qed.

Lemma combine_fst {A B : Type} (l : list A) : forall m : list B,
  List.length l = List.length m -> map fst (combine l m) = l.
Proof.
  induction l as [|a l IH]; intros [|b m] H; simpl in *; try discriminate;
    [reflexivity|]. f_equal. apply IH. lia.
Qed.

Lemma combine_snd {A B : Type} (l : list A) : forall m : list B,
  List.length l = List.length m -> map snd (combine l m) = m.
Proof.
  induction l as [|a l IH]; intros [|b m] H; simpl in *; try discriminate;
    [reflexivity|]. f_equal. apply IH. lia.
Qed.

Lemma Forall2_In_r {A B : Type} (R : A -> B -> Prop) (l : list A) (m : list B)
  (b : B) : Forall2 R l m -> In b m -> exists a, In a l /\ R a b.
Proof.
  induction 1 as [|a b' l m HR _ IH]; intros Hin; [destruct Hin|].
  destruct Hin as [->|Hin].
  - exists a. split; [now left | assumption].
  - destruct (IH Hin) as [a' [Ha' HR']]. exists a'. split; [now right | assumption].
Qed.

Lemma groupby_nonempty (keys : list string) (df : DataFrame) :
  keys <> [] ->
  groupby_prob_sum keys df =
    (ks <- mapM (row_project (columns df) keys) (rows df) ;;
     cs <- column "prob" df ;;
     xs <- mapM as_num cs ;;
     let keyed := filter (fun kx => negb (existsb cell_is_nan (fst kx)))
                         (combine ks xs) in
     let groups := sort_keys (distinct keys_eqb (map fst keyed)) in
     Ok (mkDF (keys ++ ["prob"])
              (map (fun k => k ++ [Num (nansum (group_rows keyed k))]) groups))).
Proof.
  intros H. unfold groupby_prob_sum. destruct keys; [contradiction|reflexivity].
Qed.

(* ================================================================== *)
(** ** Grouping a factor *)

Section GroupFactor.

Variable F : DataFrame.
Variable keys : list string.
Hypothesis F_factor : factor F.
Hypothesis keys_nonempty : keys <> [].
Hypothesis keys_nodup : NoDup keys.
Hypothesis keys_scope : forall c, In c keys -> In c (scope F).

Lemma keys_not_prob : ~ In "prob" keys.
Proof.
  intros H. apply keys_scope in H. unfold scope in H.
  apply filter_In in H. destruct H as [_ H]. discriminate.
Qed.

(** The frame that [groupby] builds, in terms of the projected keys [ks] and
    the probabilities [qs] of the rows. *)
Lemma groupby_factor_rows :
  exists (ks : list (list cell)) (qs : list Q),
    Forall2 (fun r k => List.length k = List.length keys /\
                        Forall string_cell k) (rows F) ks /\
    List.length qs = List.length (rows F) /\
    prob_sum F = Ok (nansum (map Fin qs)) /\
    groupby_prob_sum keys F =
      Ok (mkDF (keys ++ ["prob"])
               (map (fun k => k ++ [Num (nansum (group_rows
                                                   (combine ks (map Fin qs)) k))])
                    (sort_keys (distinct keys_eqb ks)))).
Proof.
  destruct F_factor as [Hlab Hprob Halign Hnum Hval].
  destruct (mapM_Forall2 (row_project (columns F) keys)
              (fun r k => List.length k = List.length keys /\ Forall string_cell k)
              (rows F)) as [ks [Hks HR]].
  { apply Forall_forall. intros r Hr.
    rewrite Forall_forall in Hval. specialize (Hval r Hr).
    destruct (row_project_ok (columns F) r string_cell keys)
      as [k [Hk [Hlen [Hstr _]]]].
    { intros c Hc. destruct (Hval c (keys_scope c Hc)) as [s Hs].
      exists (Str s). split; [assumption | now exists s]. }
    exists k. repeat split; assumption. }
  destruct (column_prob_numeric F (fun _ => True)) as [qs [Hcol [_ Hlen]]].
  { eapply Forall_impl; [|exact Hnum]. intros r [q Hq]. exists q. now split. }
  exists ks, qs. split; [exact HR|]. split; [exact Hlen|].
  assert (Hc : column "prob" F = Ok (map (fun q => Num (Fin q)) qs)).
  { unfold column. rewrite (proj2 (has_column_In _ _) Hprob). now rewrite Hcol. }
  split.
  - unfold prob_sum. rewrite Hc. cbn [bind]. now rewrite mapM_as_num_fin.
  - rewrite groupby_nonempty by assumption.
    rewrite Hks. cbn [bind]. rewrite Hc. cbn [bind].
    rewrite mapM_as_num_fin. cbn [bind]. cbv zeta.
    assert (Hl : List.length ks = List.length (map Fin qs)).
    { rewrite length_map, Hlen. symmetry. exact (Forall2_length HR). }
    rewrite filter_all.
    + repeat f_equal. exact (combine_fst ks (map Fin qs) Hl).
    + intros [k x] Hin. apply in_combine_l in Hin. cbn [fst].
      destruct (Forall2_In_r _ _ _ _ HR Hin) as [r [_ [_ Hstr]]].
      now rewrite string_key_no_nan.
Qed.

Lemma groupby_factor :
  exists G, groupby_prob_sum keys F = Ok G /\
            factor G /\ scope G = keys /\
            result_equiv (prob_sum G) (prob_sum F).
Proof.
  destruct groupby_factor_rows as [ks [qs [HR [Hlen [HsumF HG]]]]].
  eexists. split; [exact HG|].
  assert (Hl : List.length ks = List.length (map Fin qs)).
  { rewrite length_map, Hlen. symmetry. exact (Forall2_length HR). }
  pose proof keys_not_prob as Hnp.
  assert (Hks : forall k, In k ks ->
                  List.length k = List.length keys /\ Forall string_cell k).
  { intros k Hk. destruct (Forall2_In_r _ _ _ _ HR Hk) as [r [_ H]]. exact H. }
  destruct (distinct_spec keys_eqb ks) as [Hnd Hin].
  { intros x y Hx _. apply keys_eqb_string. now apply Hks. }
  assert (Hgroups : forall g, In g (sort_keys (distinct keys_eqb ks)) <-> In g ks).
  { intros g. rewrite <- Hin. split; apply Permutation_in;
      [|symmetry]; apply sort_keys_perm. }
  assert (Hgnd : NoDup (sort_keys (distinct keys_eqb ks))).
  { apply (Permutation_NoDup (l := distinct keys_eqb ks));
      [symmetry; apply sort_keys_perm | exact Hnd]. }
  assert (Hfin : forall g, Forall finite (group_rows (combine ks (map Fin qs)) g)).
  { intros g. apply Forall_forall. intros x Hx. unfold group_rows in Hx.
    apply in_map_iff in Hx. destruct Hx as [[k y] [<- Hx]].
    apply filter_In in Hx. destruct Hx as [Hx _]. apply in_combine_r in Hx.
    apply in_map_iff in Hx. destruct Hx as [q [<- _]]. now exists q. }
  assert (Hcell : forall g x, In g ks ->
            row_get (keys ++ ["prob"]) "prob" (g ++ [x]) = Some x).
  { intros g x Hg. rewrite row_get_app_right; [reflexivity| |assumption].
    now apply Hks. }
  split; [|split].
  - constructor; cbn [columns rows].
    + apply NoDup_app; [assumption|repeat constructor; intros []|].
      intros a Ha [<-|[]]. contradiction.
    + apply in_or_app. right. now left.
    + apply Forall_forall. intros r Hr. apply in_map_iff in Hr.
      destruct Hr as [g [<- Hg]]. apply Hgroups in Hg.
      rewrite !length_app. simpl. now rewrite (proj1 (Hks g Hg)).
    + apply Forall_forall. intros r Hr. apply in_map_iff in Hr.
      destruct Hr as [g [<- Hg]]. apply Hgroups in Hg.
      destruct (nansum_finite _ (Hfin g)) as [t [Ht _]].
      exists t. unfold prob_cell. cbn [columns]. now rewrite Hcell, Ht.
    + apply Forall_forall. intros r Hr. apply in_map_iff in Hr.
      destruct Hr as [g [<- Hg]]. apply Hgroups in Hg.
      intros c Hc. unfold scope in Hc. cbn [columns] in *.
      apply filter_In in Hc. destruct Hc as [Hc Hne].
      apply in_app_or in Hc. destruct Hc as [Hc|[<-|[]]]; [|discriminate].
      destruct (Hks g Hg) as [Hglen Hgstr].
      rewrite row_get_app_left by assumption.
      destruct (row_get_present keys c g Hglen Hc) as [x Hx].
      rewrite Hx. apply row_get_In in Hx. destruct Hx as [_ Hx].
      rewrite Forall_forall in Hgstr. destruct (Hgstr x Hx) as [s ->]. now exists s.
  - unfold scope. cbn [columns]. rewrite filter_app. simpl. rewrite app_nil_r.
    apply filter_all. intros c Hc. apply negb_true_iff, String.eqb_neq.
    intros ->. contradiction.
  - rewrite HsumF. unfold prob_sum, column, has_column. cbn [columns rows].
    replace (mem "prob" (keys ++ ["prob"])) with true
      by (symmetry; apply mem_In, in_or_app; right; now left).
    rewrite map_map.
    rewrite (map_ext_in _
      (fun g => Num (nansum (group_rows (combine ks (map Fin qs)) g)))).
    2:{ intros g Hg. apply Hgroups in Hg. now rewrite Hcell. }
    cbn [bind]. rewrite mapM_as_num_map. cbn [bind result_equiv].
    destruct (nansum_finite (map Fin qs)) as [tF [HtF HeF]].
    { apply Forall_forall. intros x Hx. apply in_map_iff in Hx.
      destruct Hx as [q [<- _]]. now exists q. }
    destruct (nansum_finite
      (map (fun g => nansum (group_rows (combine ks (map Fin qs)) g))
           (sort_keys (distinct keys_eqb ks)))) as [tG [HtG HeG]].
    { apply Forall_forall. intros x Hx. apply in_map_iff in Hx.
      destruct Hx as [g [<- _]].
      destruct (nansum_finite _ (Hfin g)) as [t [Ht _]]. now exists t. }
    rewrite HtF, HtG. cbn [num_equiv]. rewrite HeG, HeF, map_map.
    rewrite (Qsum_map_ext _
      (fun g => Qsum (map qval (group_rows (combine ks (map Fin qs)) g)))).
    2:{ intros g _. destruct (nansum_finite _ (Hfin g)) as [t [Ht He]].
        now rewrite Ht. }
    rewrite group_sums.
    + now rewrite (combine_snd ks (map Fin qs) Hl).
    + assumption.
    + intros [k x] Hkx. apply in_combine_l in Hkx. now apply Hgroups.
    + intros [k x] g Hkx _. apply in_combine_l in Hkx. cbn [fst].
      apply keys_eqb_string. now apply Hks.
Qed.

End GroupFactor.

(* ================================================================== *)
(** ** Marginalisation *)

Lemma remaining_vars_scope (v : string) (F : DataFrame) :
  remaining_vars v F = filter (fun c => negb (String.eqb c v)) (scope F).
Proof.
  unfold remaining_vars, scope. induction (columns F) as [|c l IH]; simpl;
    [reflexivity|].
  destruct (String.eqb c "prob") eqn:Hp, (String.eqb c v) eqn:Hv; simpl;
    rewrite ?Hv; simpl; rewrite IH; reflexivity.
Qed.

Lemma result_equiv_trans (a b c : result num) :
  result_equiv a b -> result_equiv b c -> result_equiv a c.
Proof.
  destruct a as [[x| | |]|], b as [[y| | |]|], c as [[z| | |]|]; simpl;
    try tauto. apply Qeq_trans.
Qed.

Lemma factor_prob_sum (F : DataFrame) :
  factor F -> exists q, prob_sum F = Ok (Fin q).
Proof.
  intros [_ Hprob _ Hnum _].
  destruct (column_prob_numeric F (fun _ => True)) as [qs [Hcol _]].
  { eapply Forall_impl; [|exact Hnum]. intros r [q Hq]. exists q. now split. }
  unfold prob_sum, column. rewrite (proj2 (has_column_In _ _) Hprob), Hcol.
  cbn [bind]. rewrite mapM_as_num_fin. cbn [bind].
  destruct (nansum_finite (map Fin qs)) as [t [Ht _]].
  - apply Forall_forall. intros x Hx. apply in_map_iff in Hx.
    destruct Hx as [q [<- _]]. now exists q.
  - exists t. now rewrite Ht.
Qed.

Lemma sum_out_factor (net : Network) (F : DataFrame) (v : string) :
  factor F -> remaining_vars v F <> [] ->
  exists G, sum_out net v (Frame F) = Ok G /\
            factor G /\ scope G = remaining_vars v F /\
            result_equiv (prob_sum G) (prob_sum F).
Proof.
  intros HF Hne. unfold sum_out. cbn [resolve bind].
  apply groupby_factor; try assumption.
  - unfold remaining_vars. apply NoDup_filter. now destruct HF.
  - intros c Hc. rewrite remaining_vars_scope in Hc. now apply filter_In in Hc.
Qed.

Lemma filter_only (vs : list string) (w : string) (l : list string) :
  NoDup l -> In w l -> ~ In w vs ->
  (forall c, In c l -> c = w \/ In c vs) ->
  filter (fun c => negb (mem c vs)) l = [w].
Proof.
  intros Hnd Hw Hwvs Hall.
  assert (Hout : forall l', (forall c, In c l' -> In c vs) ->
                            filter (fun c => negb (mem c vs)) l' = []).
  { induction l' as [|c l' IH]; intros H; simpl; [reflexivity|].
    rewrite (proj2 (mem_In c vs) (H c (or_introl eq_refl))). simpl.
    apply IH. intros c' Hc'. apply H. now right. }
  induction Hnd as [|c l Hc Hnd IH]; [destruct Hw|]. simpl.
  destruct Hw as [->|Hw].
  - rewrite (proj2 (mem_false w vs) Hwvs). simpl. f_equal. apply Hout.
    intros c Hcl. destruct (Hall c (or_intror Hcl)) as [->|H]; [contradiction|assumption].
  - destruct (Hall c (or_introl eq_refl)) as [->|Hcvs]; [contradiction|].
    rewrite (proj2 (mem_In c vs) Hcvs). simpl. apply IH; [assumption|].
    intros c' Hc'. apply Hall. now right.
Qed.

Lemma filter_remove_mem (v : string) (vs l : list string) :
  filter (fun c => negb (mem c vs)) (filter (fun c => negb (String.eqb c v)) l) =
  filter (fun c => negb (mem c (v :: vs))) l.
Proof.
  induction l as [|c l IH]; simpl; [reflexivity|].
  destruct (String.eqb c v); simpl; [assumption|].
  unfold mem in *. destruct (existsb (String.eqb c) vs); simpl;
    [assumption | now f_equal].
Qed.

Ltac sample_factor :=
  constructor; simpl;
  [ repeat constructor; simpl; intuition discriminate
  | tauto
  | repeat constructor
  | repeat constructor; eexists; reflexivity
  | repeat constructor; intros c Hc; simpl in Hc;
    repeat (destruct Hc as [<-|Hc]; [eexists; reflexivity|]); destruct Hc ].

(* ================================================================== *)
(** ** Lists of pairs of rows *)

Lemma filter_map_pair {A B C : Type} (f : A -> B -> bool) (g : A -> B -> C)
  (a : A) (m : list B) :
  map (fun p => g (fst p) (snd p))
      (filter (fun p => f (fst p) (snd p)) (map (pair a) m)) =
  map (g a) (filter (f a) m).
Proof.
  induction m as [|b m IH]; simpl; [reflexivity|].
  destruct (f a b); simpl; now rewrite IH.
Qed.

Lemma flat_map_filter_prod {A B C : Type} (f : A -> B -> bool) (g : A -> B -> C)
  (l : list A) (m : list B) :
  flat_map (fun a => map (g a) (filter (f a) m)) l =
  map (fun p => g (fst p) (snd p))
      (filter (fun p => f (fst p) (snd p)) (list_prod l m)).
Proof.
  induction l as [|a l IH]; simpl; [reflexivity|].
  now rewrite filter_app, map_app, filter_map_pair, IH.
Qed.

Lemma zip_with_map {A B C D : Type} (h : B -> C -> D) (f : A -> B) (g : A -> C)
  (l : list A) :
  zip_with h (map f l) (map g l) = map (fun a => h (f a) (g a)) l.
Proof.
  induction l as [|a l IH]; simpl; [reflexivity|]. now rewrite IH.
Qed.

Lemma zip_mul_map {A : Type} (f g : A -> num) (l : list A) :
  zip_mul (map (fun a => Num (f a)) l) (map (fun a => Num (g a)) l) =
  Ok (map (fun a => Num (num_mul (f a) (g a))) l).
Proof.
  induction l as [|a l IH]; simpl; [reflexivity|]. now rewrite IH.
Qed.

Lemma Forall2_map_l {A B : Type} (R : B -> A -> Prop) (h : A -> B) (l : list A) :
  (forall a, In a l -> R (h a) a) -> Forall2 R (map h l) l.
Proof.
  induction l as [|a l IH]; intros H; simpl; constructor.
  - apply H. now left.
  - apply IH. intros b Hb. apply H. now right.
Qed.

Lemma Forall2_map_r {A B C : Type} (R : A -> C -> Prop) (h : B -> C)
  (l : list A) (m : list B) :
  Forall2 R l (map h m) <-> Forall2 (fun a b => R a (h b)) l m.
Proof.
  revert l. induction m as [|b m IH]; intros l; simpl.
  - split; intros H; inversion H; constructor.
  - split; intros H; inversion H; subst; constructor; try assumption; now apply IH.
Qed.

Lemma Forall2_impl_In {A B : Type} (R S : A -> B -> Prop) (l : list A) (m : list B) :
  (forall a b, In b m -> R a b -> S a b) -> Forall2 R l m -> Forall2 S l m.
Proof.
  intros H HF. induction HF as [|a b l m HR HF IH]; constructor.
  - apply H; [now left | assumption].
  - apply IH. intros a' b' Hb'. apply H. now right.
Qed.

Lemma list_prod_map {A B C D : Type} (f : A -> C) (g : B -> D)
  (l : list A) (m : list B) :
  list_prod (map f l) (map g m) =
  map (fun p => (f (fst p), g (snd p))) (list_prod l m).
Proof.
  induction l as [|a l IH]; simpl; [reflexivity|].
  rewrite map_app, IH. f_equal. rewrite !map_map. reflexivity.
Qed.

(** ** Rows under selection and renaming *)

Lemma row_get_select (keep : string -> bool) (c : string) (cols : list string) :
  forall r : row, keep c = true ->
  row_get (filter keep cols) c (row_select keep cols r) = row_get cols c r.
Proof.
  induction cols as [|c' cols IH]; intros r Hk; [reflexivity|].
  destruct r as [|x r]; simpl.
  - destruct (keep c'); [reflexivity|]. now destruct (filter keep cols).
  - destruct (keep c') eqn:Hk'; simpl.
    + destruct (String.eqb c c'); [reflexivity | now apply IH].
    + destruct (String.eqb c c') eqn:Hc; [|now apply IH].
      apply String.eqb_eq in Hc. congruence.
Qed.

Lemma length_row_select (keep : string -> bool) (cols : list string) :
  forall r : row, List.length r = List.length cols ->
  List.length (row_select keep cols r) = List.length (filter keep cols).
Proof.
  induction cols as [|c cols IH]; intros [|x r] H; simpl in *; try discriminate;
    [reflexivity|].
  destruct (keep c); simpl; rewrite IH; lia.
Qed.

Lemma row_get_map (ren : string -> string) (c : string) (cols : list string) :
  forall r : row,
  (forall c', In c' cols -> ren c' = ren c -> c' = c) ->
  row_get (map ren cols) (ren c) r = row_get cols c r.
Proof.
  induction cols as [|c' cols IH]; intros r H; [reflexivity|].
  destruct r as [|x r]; [reflexivity|]. simpl.
  destruct (String.eqb c c') eqn:Hc.
  - apply String.eqb_eq in Hc. subst. now rewrite String.eqb_refl.
  - destruct (String.eqb (ren c) (ren c')) eqn:Hr.
    + apply String.eqb_eq in Hr. symmetry in Hr.
      apply (H c' (or_introl eq_refl)) in Hr. subst.
      now rewrite String.eqb_refl in Hc.
    + apply IH. intros c'' Hc''. apply H. now right.
Qed.

Lemma suffix_x_other (c : string) : c <> "prob" -> suffix_x c = c.
Proof.
  intros H. unfold suffix_x. apply String.eqb_neq in H. now rewrite H.
Qed.

Lemma suffix_y_other (c : string) : c <> "prob" -> suffix_y c = c.
Proof.
  intros H. unfold suffix_y. apply String.eqb_neq in H. now rewrite H.
Qed.

Lemma suffix_x_inv (c : string) : suffix_x c = "prob_x" \/ suffix_x c = c /\ c <> "prob".
Proof.
  unfold suffix_x. destruct (String.eqb c "prob") eqn:H; [now left|].
  right. split; [reflexivity | now apply String.eqb_neq].
Qed.

Lemma suffix_y_inv (c : string) : suffix_y c = "prob_y" \/ suffix_y c = c /\ c <> "prob".
Proof.
  unfold suffix_y. destruct (String.eqb c "prob") eqn:H; [now left|].
  right. split; [reflexivity | now apply String.eqb_neq].
Qed.

(* ================================================================== *)
(** ** Joining two frames that share [prob] and the keys only *)

Section Join.

Variables L R : DataFrame.
Variable keys : list string.

Hypothesis L_labels : NoDup (columns L).
Hypothesis R_labels : NoDup (columns R).
Hypothesis L_aligned :
  Forall (fun r => List.length r = List.length (columns L)) (rows L).
Hypothesis R_aligned :
  Forall (fun r => List.length r = List.length (columns R)) (rows R).
Hypothesis L_prob : In "prob" (columns L).
Hypothesis R_prob : In "prob" (columns R).
Hypothesis L_numeric :
  Forall (fun r => exists x, row_get (columns L) "prob" r = Some (Num x)) (rows L).
Hypothesis R_numeric :
  Forall (fun r => exists x, row_get (columns R) "prob" r = Some (Num x)) (rows R).
Hypothesis keys_left : forall k, In k keys -> In k (columns L).
Hypothesis keys_right : forall k, In k keys -> In k (columns R).
Hypothesis keys_prob : ~ In "prob" keys.
Hypothesis shared :
  forall c, In c (columns L) -> In c (columns R) -> c = "prob" \/ In c keys.
Hypothesis L_plain : ~ In "prob_x" (columns L) /\ ~ In "prob_y" (columns L).
Hypothesis R_plain : ~ In "prob_x" (columns R) /\ ~ In "prob_y" (columns R).

Lemma overlapping_left (c : string) :
  In c (columns L) ->
  overlapping keys (columns L) (columns R) c = String.eqb c "prob".
Proof.
  intros Hc. unfold overlapping. destruct (String.eqb c "prob") eqn:Hp.
  - apply String.eqb_eq in Hp. subst.
    rewrite (proj2 (mem_false _ _) keys_prob).
    now rewrite (proj2 (mem_In _ _) L_prob), (proj2 (mem_In _ _) R_prob).
  - apply String.eqb_neq in Hp. destruct (mem c (columns R)) eqn:HR.
    + apply mem_In in HR. destruct (shared c Hc HR) as [|Hk]; [contradiction|].
      now rewrite (proj2 (mem_In _ _) Hk).
    + now rewrite andb_false_r.
Qed.

Lemma overlapping_right (c : string) :
  In c (columns R) ->
  overlapping keys (columns L) (columns R) c = String.eqb c "prob".
Proof.
  intros Hc. unfold overlapping. destruct (String.eqb c "prob") eqn:Hp.
  - apply String.eqb_eq in Hp. subst.
    rewrite (proj2 (mem_false _ _) keys_prob).
    now rewrite (proj2 (mem_In _ _) L_prob), (proj2 (mem_In _ _) R_prob).
  - apply String.eqb_neq in Hp. destruct (mem c (columns L)) eqn:HL.
    + apply mem_In in HL. destruct (shared c HL Hc) as [|Hk]; [contradiction|].
      now rewrite (proj2 (mem_In _ _) Hk).
    + now rewrite andb_false_r.
Qed.

Lemma merge_form :
  merge L R keys =
  Ok (mkDF (merged_labels L R keys)
           (map (merged_row R keys) (matched_pairs L R keys))).
Proof.
  unfold merge. rewrite !first_missing_none by assumption.
  unfold merged_labels, matched_pairs. f_equal. f_equal.
  - f_equal.
    + apply map_ext_in. intros c Hc. rewrite overlapping_left by assumption.
      unfold suffix_x. destruct (String.eqb c "prob") eqn:Hp; [|reflexivity].
      apply String.eqb_eq in Hp. now subst.
    + apply map_ext_in. intros c Hc. apply filter_In in Hc.
      rewrite overlapping_right by tauto.
      unfold suffix_y. destruct (String.eqb c "prob") eqn:Hp; [|reflexivity].
      apply String.eqb_eq in Hp. now subst.
  - apply (flat_map_filter_prod
             (keys_agree (columns L) (columns R) keys)
             (fun r1 r2 => r1 ++ row_select (not_key keys) (columns R) r2)).
Qed.

Lemma in_suffix_x (c : string) :
  In c (map suffix_x (columns L)) <->
  c = "prob_x" \/ (In c (columns L) /\ c <> "prob").
Proof.
  rewrite in_map_iff. split.
  - intros [c' [Heq Hin]]. destruct (suffix_x_inv c') as [H|[H Hne]].
    + left. congruence.
    + right. rewrite H in Heq. subst. now split.
  - intros [->|[Hin Hne]].
    + exists "prob". split; [reflexivity | assumption].
    + exists c. split; [now apply suffix_x_other | assumption].
Qed.

Lemma in_suffix_y (c : string) :
  In c (map suffix_y (filter (not_key keys) (columns R))) <->
  c = "prob_y" \/ (In c (columns R) /\ ~ In c keys /\ c <> "prob").
Proof.
  rewrite in_map_iff. unfold not_key. split.
  - intros [c' [Heq Hin]]. apply filter_In in Hin. destruct Hin as [Hin Hk].
    apply negb_true_iff, mem_false in Hk.
    destruct (suffix_y_inv c') as [H|[H Hne]].
    + left. congruence.
    + right. rewrite H in Heq. subst. tauto.
  - intros [->|[Hin [Hk Hne]]].
    + exists "prob". split; [reflexivity|]. apply filter_In. split; [assumption|].
      now apply negb_true_iff, mem_false.
    + exists c. split; [now apply suffix_y_other|]. apply filter_In.
      split; [assumption|]. now apply negb_true_iff, mem_false.
Qed.

Lemma suffix_x_injective (c c' : string) :
  In c (columns L) -> In c' (columns L) -> suffix_x c = suffix_x c' -> c = c'.
Proof.
  intros Hc Hc' Heq.
  destruct (suffix_x_inv c) as [H|[H Hne]], (suffix_x_inv c') as [H'|[H' Hne']];
    rewrite ?H, ?H' in Heq.
  - unfold suffix_x in H, H'.
    destruct (String.eqb c "prob") eqn:E; [|subst; tauto].
    destruct (String.eqb c' "prob") eqn:E'; [|subst; tauto].
    apply String.eqb_eq in E, E'. congruence.
  - subst. tauto.
  - subst. tauto.
  - assumption.
Qed.

Lemma suffix_y_injective (c c' : string) :
  In c (columns R) -> In c' (columns R) -> suffix_y c = suffix_y c' -> c = c'.
Proof.
  intros Hc Hc' Heq.
  destruct (suffix_y_inv c) as [H|[H Hne]], (suffix_y_inv c') as [H'|[H' Hne']];
    rewrite ?H, ?H' in Heq.
  - unfold suffix_y in H, H'.
    destruct (String.eqb c "prob") eqn:E; [|subst; tauto].
    destruct (String.eqb c' "prob") eqn:E'; [|subst; tauto].
    apply String.eqb_eq in E, E'. congruence.
  - subst. tauto.
  - subst. tauto.
  - assumption.
Qed.

Lemma NoDup_map_injective {A B : Type} (f : A -> B) (l : list A) :
  (forall a a', In a l -> In a' l -> f a = f a' -> a = a') ->
  NoDup l -> NoDup (map f l).
Proof.
  intros Hinj Hnd. induction Hnd as [|a l Ha Hnd IH]; simpl; constructor.
  - rewrite in_map_iff. intros [a' [Heq Hin]].
    apply Hinj in Heq; [subst; contradiction | now right | now left].
  - apply IH. intros x y Hx Hy. apply Hinj; now right.
Qed.

Lemma merged_labels_nodup : NoDup (merged_labels L R keys).
Proof.
  unfold merged_labels. apply NoDup_app.
  - apply NoDup_map_injective; [|assumption]. apply suffix_x_injective.
  - apply NoDup_map_injective; [|now apply NoDup_filter].
    intros a a' Ha Ha'. apply filter_In in Ha, Ha'. apply suffix_y_injective; tauto.
  - intros c Hx Hy. apply in_suffix_x in Hx. apply in_suffix_y in Hy.
    destruct Hx as [->|[HcL Hne]], Hy as [Hy|[HcR [Hk _]]];
      try discriminate; try tauto.
    + subst. tauto.
    + destruct (shared c HcL HcR); contradiction.
Qed.

Lemma merged_labels_prob : ~ In "prob" (merged_labels L R keys).
Proof.
  unfold merged_labels. rewrite in_app_iff, in_suffix_x, in_suffix_y.
  intros [[H|[_ H]]|[H|[_ [_ H]]]]; try discriminate; now apply H.
Qed.

Lemma in_matched (p : row * row) :
  In p (matched_pairs L R keys) -> In (fst p) (rows L) /\ In (snd p) (rows R).
Proof.
  unfold matched_pairs. rewrite filter_In. intros [H _].
  destruct p as [r1 r2]. now apply in_prod_iff in H.
Qed.

Lemma matched_aligned (p : row * row) :
  In p (matched_pairs L R keys) ->
  List.length (fst p) = List.length (columns L) /\
  List.length (snd p) = List.length (columns R).
Proof.
  intros H. apply in_matched in H. destruct H as [H1 H2].
  rewrite Forall_forall in L_aligned, R_aligned. split; auto.
Qed.

Lemma merged_row_length (p : row * row) :
  In p (matched_pairs L R keys) ->
  List.length (merged_row R keys p) = List.length (merged_labels L R keys).
Proof.
  intros H. apply matched_aligned in H. destruct H as [H1 H2].
  unfold merged_row, merged_labels. rewrite !length_app, !length_map.
  now rewrite (length_row_select _ _ _ H2), H1.
Qed.

Lemma merged_get_left (p : row * row) (c : string) :
  In p (matched_pairs L R keys) -> In c (columns L) ->
  row_get (merged_labels L R keys) (suffix_x c) (merged_row R keys p) =
  row_get (columns L) c (fst p).
Proof.
  intros Hp Hc. apply matched_aligned in Hp. destruct Hp as [H1 _].
  unfold merged_labels, merged_row. rewrite row_get_app_left.
  - apply row_get_map. intros c' Hc' Heq. now apply suffix_x_injective.
  - now rewrite length_map.
  - now apply in_map.
Qed.

Lemma merged_get_right (p : row * row) (c : string) :
  In p (matched_pairs L R keys) -> In c (columns R) -> ~ In c keys ->
  row_get (merged_labels L R keys) (suffix_y c) (merged_row R keys p) =
  row_get (columns R) c (snd p).
Proof.
  intros Hp Hc Hk. apply matched_aligned in Hp. destruct Hp as [H1 _].
  unfold merged_labels, merged_row. rewrite row_get_app_right.
  - rewrite row_get_map.
    + apply row_get_select. unfold not_key. now apply negb_true_iff, mem_false.
    + intros c' Hc' Heq. apply filter_In in Hc'. apply suffix_y_injective; tauto.
  - now rewrite length_map.
  - rewrite in_suffix_x. intros [Heq|[HcL Hne]].
    + destruct (suffix_y_inv c) as [H|[H _]]; rewrite H in Heq;
        [discriminate | subst; tauto].
    + destruct (suffix_y_inv c) as [H|[H Hp]]; rewrite H in HcL; [tauto|].
      destruct (shared c HcL Hc); contradiction.
Qed.

Lemma matched_numeric (p : row * row) :
  In p (matched_pairs L R keys) ->
  row_get (columns L) "prob" (fst p) = Some (Num (prob_num (columns L) (fst p))) /\
  row_get (columns R) "prob" (snd p) = Some (Num (prob_num (columns R) (snd p))).
Proof.
  intros H. apply in_matched in H. destruct H as [H1 H2].
  rewrite Forall_forall in L_numeric, R_numeric.
  destruct (L_numeric _ H1) as [x Hx], (R_numeric _ H2) as [y Hy].
  unfold prob_num. now rewrite Hx, Hy.
Qed.

Lemma product_labels_x : In "prob_x" (product_labels L R keys).
Proof.
  unfold product_labels, merged_labels. rewrite !in_app_iff, in_suffix_x. tauto.
Qed.

Lemma product_labels_y : In "prob_y" (product_labels L R keys).
Proof.
  unfold product_labels, merged_labels. rewrite !in_app_iff, in_suffix_y. tauto.
Qed.

(** The product column and the removal of [prob_x] and [prob_y], computed on
    the merged frame. *)
Lemma product_column_form :
  product_column (mkDF (merged_labels L R keys)
                       (map (merged_row R keys) (matched_pairs L R keys))) =
  let M0 := drop_columns ["prob_x"; "prob_y"]
              (mkDF (product_labels L R keys)
                    (map (product_row L R keys) (matched_pairs L R keys))) in
  if has_column "dummy" M0 then Ok (drop_columns ["dummy"] M0) else Ok M0.
Proof.
  unfold product_column.
  assert (Hx : column "prob_x"
                 (mkDF (merged_labels L R keys)
                       (map (merged_row R keys) (matched_pairs L R keys))) =
               Ok (map (fun p => Num (prob_num (columns L) (fst p)))
                       (matched_pairs L R keys))).
  { unfold column, has_column. cbn [columns rows].
    replace (mem "prob_x" (merged_labels L R keys)) with true.
    - f_equal. rewrite map_map. apply map_ext_in. intros p Hp.
      change "prob_x" with (suffix_x "prob").
      rewrite merged_get_left by assumption.
      now rewrite (proj1 (matched_numeric p Hp)).
    - symmetry. apply mem_In. unfold merged_labels.
      rewrite in_app_iff, in_suffix_x. tauto. }
  assert (Hy : column "prob_y"
                 (mkDF (merged_labels L R keys)
                       (map (merged_row R keys) (matched_pairs L R keys))) =
               Ok (map (fun p => Num (prob_num (columns R) (snd p)))
                       (matched_pairs L R keys))).
  { unfold column, has_column. cbn [columns rows].
    replace (mem "prob_y" (merged_labels L R keys)) with true.
    - f_equal. rewrite map_map. apply map_ext_in. intros p Hp.
      change "prob_y" with (suffix_y "prob").
      rewrite merged_get_right by assumption.
      now rewrite (proj2 (matched_numeric p Hp)).
    - symmetry. apply mem_In. unfold merged_labels.
      rewrite in_app_iff, in_suffix_y. tauto. }
  rewrite Hx, Hy. cbn [bind].
  rewrite (zip_mul_map (fun p => prob_num (columns L) (fst p))
                       (fun p => prob_num (columns R) (snd p))).
  cbn [bind]. unfold assign, has_column. cbn [columns rows].
  rewrite (proj2 (mem_false _ _) merged_labels_prob).
  rewrite (zip_with_map (fun r v => r ++ [v]) (merged_row R keys)
             (fun p => Num (num_mul (prob_num (columns L) (fst p))
                                    (prob_num (columns R) (snd p))))).
  unfold drop at 1. cbn [columns].
  rewrite first_missing_none.
  - cbn [bind]. cbv zeta. fold (product_labels L R keys).
    destruct (mem "dummy" _) eqn:Hd; [|reflexivity].
    unfold drop. rewrite first_missing_none; [reflexivity|].
    intros l [<-|[]]. now apply mem_In.
  - intros l [<-|[<-|[]]]; [apply product_labels_x | apply product_labels_y].
Qed.

Lemma product_row_facts (p : row * row) :
  In p (matched_pairs L R keys) ->
  List.length (product_row L R keys p) = List.length (product_labels L R keys) /\
  (forall c, In c (columns L) -> c <> "prob" ->
             row_get (product_labels L R keys) c (product_row L R keys p) =
             row_get (columns L) c (fst p)) /\
  (forall c, In c (columns R) -> ~ In c keys -> c <> "prob" ->
             row_get (product_labels L R keys) c (product_row L R keys p) =
             row_get (columns R) c (snd p)) /\
  row_get (product_labels L R keys) "prob" (product_row L R keys p) =
    Some (Num (num_mul (prob_num (columns L) (fst p))
                       (prob_num (columns R) (snd p)))).
Proof.
  intros Hp. pose proof (merged_row_length p Hp) as Hlen.
  unfold product_labels, product_row. repeat split.
  - rewrite !length_app. simpl. now rewrite Hlen.
  - intros c Hc Hne. rewrite row_get_app_left; [|assumption|].
    + rewrite <- (suffix_x_other c Hne) at 1. now apply merged_get_left.
    + unfold merged_labels. rewrite in_app_iff, in_suffix_x. tauto.
  - intros c Hc Hk Hne. rewrite row_get_app_left; [|assumption|].
    + rewrite <- (suffix_y_other c Hne) at 1. now apply merged_get_right.
    + unfold merged_labels. rewrite in_app_iff, in_suffix_y. tauto.
  - rewrite row_get_app_right; [reflexivity | assumption | apply merged_labels_prob].
Qed.

Lemma kept_labels (c : string) :
  In c (filter (fun c => negb (mem c ["prob_x"; "prob_y"]))
               (product_labels L R keys)) <->
  In c (columns L) \/ In c (columns R).
Proof.
  rewrite filter_In, negb_true_iff, mem_false.
  unfold product_labels, merged_labels.
  rewrite !in_app_iff, in_suffix_x, in_suffix_y. simpl.
  destruct L_plain as [Lx Ly], R_plain as [Rx Ry]. split.
  - intros [[[[->|[H _]]|[->|[H _]]]|[<-|[]]] Hn]; tauto.
  - intros [H|H].
    + destruct (string_dec c "prob") as [->|Hne].
      * split; [tauto|]. intros [H'|[H'|[]]]; discriminate.
      * split; [tauto|]. intros [<-|[<-|[]]]; tauto.
    + destruct (string_dec c "prob") as [->|Hne].
      * split; [tauto|]. intros [H'|[H'|[]]]; discriminate.
      * split.
        -- destruct (in_dec string_dec c keys) as [Hk|Hk]; [|tauto].
           left. left. right. split; [now apply keys_left | assumption].
        -- intros [<-|[<-|[]]]; tauto.
Qed.

Lemma kept_labels_nodup :
  NoDup (filter (fun c => negb (mem c ["prob_x"; "prob_y"]))
                (product_labels L R keys)).
Proof.
  apply NoDup_filter. unfold product_labels. apply NoDup_app.
  - apply merged_labels_nodup.
  - repeat constructor. intros [].
  - intros c Hc [<-|[]]. now apply merged_labels_prob.
Qed.

(** The frame that [merge] followed by the product column returns. *)
Lemma join_result :
  exists M,
    (merged_df <- merge L R keys ;; product_column merged_df) = Ok M /\
    NoDup (columns M) /\
    (forall c, In c (columns M) <->
               (In c (columns L) \/ In c (columns R)) /\ c <> "dummy") /\
    Forall2
      (fun r p =>
         List.length r = List.length (columns M) /\
         (forall c, In c (columns L) -> c <> "prob" -> c <> "dummy" ->
                    row_get (columns M) c r = row_get (columns L) c (fst p)) /\
         (forall c, In c (columns R) -> ~ In c keys -> c <> "prob" -> c <> "dummy" ->
                    row_get (columns M) c r = row_get (columns R) c (snd p)) /\
         row_get (columns M) "prob" r =
           Some (Num (num_mul (prob_num (columns L) (fst p))
                              (prob_num (columns R) (snd p)))))
      (rows M) (matched_pairs L R keys).
Proof.
  rewrite merge_form. cbn [bind]. rewrite product_column_form. cbv zeta.
  assert (Hk1 : forall c, In c (columns L) \/ In c (columns R) ->
                          negb (mem c ["prob_x"; "prob_y"]) = true).
  { intros c Hc. apply kept_labels in Hc. now apply filter_In in Hc. }
  unfold drop_columns at 2 3. cbn [columns rows]. unfold has_column. cbn [columns].
  destruct (mem "dummy" _) eqn:Hd.
  - eexists. split; [reflexivity|]. unfold drop_columns. cbn [columns rows].
    split; [apply NoDup_filter, kept_labels_nodup|]. split.
    + intros c. rewrite filter_In, kept_labels, negb_true_iff, mem_singleton.
      rewrite String.eqb_neq. tauto.
    + rewrite !map_map. apply Forall2_map_l. intros p Hp.
      destruct (product_row_facts p Hp) as [Hlen [HL [HR Hprob]]].
      assert (Hkd : forall c, c <> "dummy" -> negb (mem c ["dummy"]) = true).
      { intros c Hc. rewrite mem_singleton. now apply negb_true_iff, String.eqb_neq. }
      repeat split.
      * apply length_row_select. now apply length_row_select.
      * intros c Hc Hne Hnd.
        rewrite row_get_select by now apply Hkd.
        rewrite row_get_select by (apply Hk1; now left). now apply HL.
      * intros c Hc Hk Hne Hnd.
        rewrite row_get_select by now apply Hkd.
        rewrite row_get_select by (apply Hk1; now right). now apply HR.
      * rewrite row_get_select by (apply Hkd; discriminate).
        rewrite row_get_select by (apply Hk1; now left). exact Hprob.
  - apply mem_false in Hd.
    eexists. split; [reflexivity|]. unfold drop_columns. cbn [columns rows].
    split; [apply kept_labels_nodup|]. split.
    + intros c. split.
      * intros Hc. split; [now apply kept_labels|]. intros ->. contradiction.
      * intros [Hc _]. now apply kept_labels.
    + rewrite !map_map. apply Forall2_map_l. intros p Hp.
      destruct (product_row_facts p Hp) as [Hlen [HL [HR Hprob]]].
      repeat split.
      * now apply length_row_select.
      * intros c Hc Hne Hnd.
        rewrite row_get_select by (apply Hk1; now left). now apply HL.
      * intros c Hc Hk Hne Hnd.
        rewrite row_get_select by (apply Hk1; now right). now apply HR.
      * rewrite row_get_select by (apply Hk1; now left). exact Hprob.
Qed.

End Join.

(* ================================================================== *)
(** ** The product of two factors *)

Lemma pyset_nodup (l : list string) : NoDup l -> pyset l = l.
Proof.
  unfold pyset. induction 1 as [|x l Hx Hnd IH]; simpl; [reflexivity|].
  rewrite IH. f_equal. apply filter_all. intros y Hy.
  apply negb_true_iff, String.eqb_neq. intros ->. contradiction.
Qed.

Lemma assign_const_new (c : string) (v : cell) (df : DataFrame) :
  ~ In c (columns df) ->
  assign_const c v df =
  mkDF (columns df ++ [c]) (map (fun r => r ++ [v]) (rows df)).
Proof.
  intros H. unfold assign_const, assign, has_column.
  rewrite (proj2 (mem_false _ _) H). f_equal.
  induction (rows df) as [|r l IH]; simpl; [reflexivity|]. now rewrite IH.
Qed.

Lemma reserved_absent (df : DataFrame) :
  avoids_reserved df ->
  ~ In "dummy" (columns df) /\ ~ In "prob_x" (columns df) /\
  ~ In "prob_y" (columns df).
Proof.
  intros H. repeat split; apply H; simpl; tauto.
Qed.

Lemma scope_In (df : DataFrame) (c : string) :
  In c (scope df) <-> In c (columns df) /\ c <> "prob".
Proof.
  unfold scope. now rewrite filter_In, negb_true_iff, String.eqb_neq.
Qed.

Lemma common_scope_In (A B : DataFrame) (c : string) :
  In c (common_scope A B) <-> In c (common_vars A B).
Proof.
  unfold common_scope. rewrite filter_In, mem_In, !scope_In, common_vars_In. tauto.
Qed.

Lemma same_cell_eq (a b : option cell) : same_cell a b = true <-> a = b.
Proof.
  destruct a as [x|], b as [y|]; simpl; try (split; [discriminate|discriminate]);
    [|tauto].
  destruct (cell_eq_dec x y) as [->|Hne]; split; try tauto; try discriminate.
  intros H. injection H as ->. contradiction.
Qed.

Lemma key_eqb_string (s t : string) :
  key_eqb (Str s) (Str t) = true <-> Some (Str s) = Some (Str t).
Proof.
  unfold key_eqb. simpl. rewrite orb_false_r, String.eqb_eq.
  split; [now intros -> | intros H; now injection H].
Qed.

(** On rows of factors the keys that [merge] compares agree exactly when the
    rows carry the same values under the shared variables. *)
Lemma agree_keys (A B : DataFrame) (r1 r2 : row) :
  factor A -> factor B -> In r1 (rows A) -> In r2 (rows B) ->
  keys_agree (columns A) (columns B) (common_vars A B) r1 r2 = agree A B r1 r2.
Proof.
  intros HA HB H1 H2. unfold keys_agree, agree.
  destruct HA as [_ _ _ _ HvA], HB as [_ _ _ _ HvB].
  rewrite Forall_forall in HvA, HvB.
  apply eq_true_iff_eq. rewrite !forallb_forall. split; intros H c Hc.
  - apply common_scope_In in Hc. specialize (H c Hc).
    apply common_vars_In in Hc. destruct Hc as [HcA [HcB Hne]].
    destruct (HvA r1 H1 c (proj2 (scope_In A c) (conj HcA Hne))) as [s Hs].
    destruct (HvB r2 H2 c (proj2 (scope_In B c) (conj HcB Hne))) as [t Ht].
    rewrite Hs, Ht in *. apply same_cell_eq. now apply key_eqb_string.
  - pose proof Hc as Hc'. apply common_scope_In in Hc'. specialize (H c Hc').
    apply common_vars_In in Hc. destruct Hc as [HcA [HcB Hne]].
    destruct (HvA r1 H1 c (proj2 (scope_In A c) (conj HcA Hne))) as [s Hs].
    destruct (HvB r2 H2 c (proj2 (scope_In B c) (conj HcB Hne))) as [t Ht].
    rewrite Hs, Ht in *. apply key_eqb_string. now apply same_cell_eq.
Qed.

Lemma multiplication_shared_form (net : Network) (A B : DataFrame) :
  common_vars A B <> [] ->
  multiplication net (Frame A) (Frame B) =
  (merged_df <- merge A B (common_vars A B) ;; product_column merged_df).
Proof.
  intros H. unfold multiplication, join_keys. cbn [resolve bind].
  destruct (common_vars A B); [contradiction | reflexivity].
Qed.

Lemma multiplication_disjoint_form (net : Network) (A B : DataFrame) :
  common_vars A B = [] ->
  multiplication net (Frame A) (Frame B) =
  (merged_df <- merge (assign_const "dummy" (Num (Fin 1)) A)
                      (assign_const "dummy" (Num (Fin 1)) B) ["dummy"] ;;
   product_column merged_df).
Proof.
  intros H. unfold multiplication, join_keys. cbn [resolve bind].
  now rewrite H.
Qed.

Lemma factor_prob_num (A : DataFrame) (r : row) :
  factor A -> In r (rows A) ->
  prob_cell A r = Some (Num (prob_num (columns A) r)).
Proof.
  intros [_ _ _ Hnum _] Hr. rewrite Forall_forall in Hnum.
  destruct (Hnum r Hr) as [q Hq]. unfold prob_num, prob_cell in *. now rewrite Hq.
Qed.

Lemma factor_numeric_any (A : DataFrame) :
  factor A ->
  Forall (fun r => exists x, row_get (columns A) "prob" r = Some (Num x)) (rows A).
Proof.
  intros [_ _ _ Hnum _]. eapply Forall_impl; [|exact Hnum].
  intros r [q Hq]. now exists (Fin q).
Qed.

Lemma multiplication_shared (net : Network) (A B : DataFrame) :
  factor A -> factor B -> avoids_reserved A -> avoids_reserved B ->
  common_vars A B <> [] ->
  exists M, multiplication net (Frame A) (Frame B) = Ok M /\ is_product A B M.
Proof.
  intros HA HB RA RB Hne.
  destruct (reserved_absent A RA) as [Ad [Ax Ay]].
  destruct (reserved_absent B RB) as [Bd [Bx By]].
  destruct (join_result A B (common_vars A B)) as [M [HM [Hnd [Hcols HF2]]]];
    try (now destruct HA); try (now destruct HB);
    try (now apply factor_numeric_any); try (now split).
  { intros k Hk. now apply common_vars_In in Hk. }
  { intros k Hk. now apply common_vars_In in Hk. }
  { intros Hk. apply common_vars_In in Hk. tauto. }
  { intros c HcA HcB. destruct (string_dec c "prob") as [|Hp]; [now left|].
    right. now apply common_vars_In. }
  exists M. split; [now rewrite multiplication_shared_form|].
  assert (Hpairs : matched_pairs A B (common_vars A B) = equi_join_pairs A B).
  { unfold matched_pairs, equi_join_pairs. apply filter_ext_in.
    intros [r1 r2] Hin. apply in_prod_iff in Hin. now apply agree_keys. }
  rewrite Hpairs in HF2. unfold is_product.
  split; [assumption|]. split; [|split; [|split]].
  - intros c. rewrite !scope_In, Hcols. split; [tauto|].
    intros [[H Hp]|[H Hp]]; (split; [split; [tauto|]|assumption]); intros ->; tauto.
  - apply Hcols. split; [left; now destruct HA | discriminate].
  - intros c Hc Hin. apply Hcols in Hin. destruct Hin as [[H|H] Hd].
    + now apply (RA c).
    + now apply (RB c).
  - revert HF2. apply Forall2_impl_In.
    intros r [r1 r2] Hp [Hlen [HL [HR Hprob]]]. cbn [fst snd] in *.
    unfold equi_join_pairs in Hp. apply filter_In in Hp.
    destruct Hp as [Hin Hag]. apply in_prod_iff in Hin. destruct Hin as [H1 H2].
    cbn [fst snd] in Hag. unfold agree in Hag. rewrite forallb_forall in Hag.
    unfold joined_row. cbn [fst snd].
    split; [assumption|]. split; [|split].
    + intros c Hc. apply scope_In in Hc. destruct Hc as [Hc Hp].
      apply HL; try assumption. intros ->. contradiction.
    + intros c Hc. apply scope_In in Hc. destruct Hc as [Hc Hp].
      destruct (in_dec string_dec c (common_vars A B)) as [Hk|Hk].
      * pose proof Hk as Hk'. apply common_vars_In in Hk'.
        rewrite HL by (try tauto; intros ->; contradiction).
        apply same_cell_eq, Hag. now apply common_scope_In.
      * apply HR; try assumption. intros ->. contradiction.
    + exists (prob_num (columns A) r1), (prob_num (columns B) r2).
      split; [now apply factor_prob_num|]. split; [now apply factor_prob_num|].
      exact Hprob.
Qed.

Lemma equi_join_disjoint (A B : DataFrame) :
  common_scope A B = [] -> equi_join_pairs A B = list_prod (rows A) (rows B).
Proof.
  intros H. unfold equi_join_pairs, agree. rewrite H. now apply filter_all.
Qed.

Lemma common_scope_nil (A B : DataFrame) :
  common_vars A B = [] -> common_scope A B = [].
Proof.
  intros H. destruct (common_scope A B) as [|c l] eqn:E; [reflexivity|].
  assert (Hin : In c (common_scope A B)) by (rewrite E; now left).
  apply common_scope_In in Hin. rewrite H in Hin. destruct Hin.
Qed.

Lemma multiplication_disjoint (net : Network) (A B : DataFrame) :
  factor A -> factor B -> avoids_reserved A -> avoids_reserved B ->
  common_vars A B = [] ->
  exists M, multiplication net (Frame A) (Frame B) = Ok M /\ is_product A B M.
Proof.
  intros HA HB RA RB Hnil.
  destruct (reserved_absent A RA) as [Ad [Ax Ay]].
  destruct (reserved_absent B RB) as [Bd [Bx By]].
  pose proof HA as [AL AP AA AN AV]. pose proof HB as [BL BP BA BN BV].
  rewrite Forall_forall in AA, BA.
  rewrite multiplication_disjoint_form by assumption.
  rewrite (assign_const_new "dummy" _ A Ad), (assign_const_new "dummy" _ B Bd).
  set (one := Num (Fin 1)).
  set (L := mkDF (columns A ++ ["dummy"]) (map (fun r => r ++ [one]) (rows A))).
  set (R := mkDF (columns B ++ ["dummy"]) (map (fun r => r ++ [one]) (rows B))).
  assert (Hnd : forall l, NoDup l -> ~ In "dummy" l -> NoDup (l ++ ["dummy"])).
  { intros l Hl Hd. apply NoDup_app; [assumption|repeat constructor; intros []|].
    intros a Ha [<-|[]]. contradiction. }
  assert (Hal : forall (df : DataFrame),
            (forall r, In r (rows df) -> List.length r = List.length (columns df)) ->
            Forall (fun r => List.length r = List.length (columns df ++ ["dummy"]))
                   (map (fun r => r ++ [one]) (rows df))).
  { intros df H. apply Forall_forall. intros r Hr. apply in_map_iff in Hr.
    destruct Hr as [r0 [<- Hr0]]. rewrite !length_app. simpl. now rewrite H. }
  assert (Hnum : forall (df : DataFrame), factor df ->
            Forall (fun r => exists x,
                      row_get (columns df ++ ["dummy"]) "prob" r = Some (Num x))
                   (map (fun r => r ++ [one]) (rows df))).
  { intros df Hdf. pose proof (factor_numeric_any df Hdf) as Hn.
    destruct Hdf as [_ Hp Ha _ _]. rewrite Forall_forall in Hn, Ha.
    apply Forall_forall. intros r Hr. apply in_map_iff in Hr.
    destruct Hr as [r0 [<- Hr0]]. rewrite row_get_app_left; auto. }
  destruct (join_result L R ["dummy"]) as [M [HM [HMnd [Hcols HF2]]]];
    subst L R; cbn [columns rows] in *;
    try (now apply Hnd); try (now apply Hal); try (now apply Hnum);
    try (apply in_or_app; now left).
  { intros k [<-|[]]. apply in_or_app. right. now left. }
  { intros k [<-|[]]. apply in_or_app. right. now left. }
  { intros [H|[]]. discriminate. }
  { intros c HcA HcB. apply in_app_or in HcA, HcB.
    destruct HcA as [HcA|[<-|[]]]; [|right; now left].
    destruct HcB as [HcB|[<-|[]]]; [|right; now left].
    destruct (string_dec c "prob") as [|Hp]; [now left|].
    assert (Hin : In c (common_vars A B)) by now apply common_vars_In.
    rewrite Hnil in Hin. destruct Hin. }
  { rewrite !in_app_iff. simpl. split; intros [H|[H|H]]; try discriminate; tauto. }
  { rewrite !in_app_iff. simpl. split; intros [H|[H|H]]; try discriminate; tauto. }
  exists M. split; [exact HM|].
  assert (Hpairs :
    matched_pairs (mkDF (columns A ++ ["dummy"]) (map (fun r => r ++ [one]) (rows A)))
                  (mkDF (columns B ++ ["dummy"]) (map (fun r => r ++ [one]) (rows B)))
                  ["dummy"] =
    map (fun p => (fst p ++ [one], snd p ++ [one])) (equi_join_pairs A B)).
  { rewrite (equi_join_disjoint A B (common_scope_nil A B Hnil)).
    unfold matched_pairs. cbn [columns rows]. rewrite list_prod_map.
    apply filter_all. intros x Hx. apply in_map_iff in Hx.
    destruct Hx as [[r1 r2] [<- Hin]]. apply in_prod_iff in Hin.
    destruct Hin as [H1 H2]. cbn [fst snd]. unfold keys_agree. simpl.
    rewrite !row_get_app_right by auto. simpl. reflexivity. }
  rewrite Hpairs in HF2. apply Forall2_map_r in HF2. unfold is_product.
  split; [assumption|]. split; [|split; [|split]].
  - intros c. rewrite !scope_In, Hcols, !in_app_iff. simpl. split.
    + intros [[[[H|[H|[]]]|[H|[H|[]]]] Hd] Hp]; try tauto; subst; tauto.
    + intros [[H Hp]|[H Hp]]; (split; [split; [tauto|]|assumption]); intros ->; tauto.
  - apply Hcols. split; [left; apply in_or_app; now left | discriminate].
  - intros c Hc Hin. apply Hcols in Hin. destruct Hin as [[H|H] Hd];
      apply in_app_or in H; destruct H as [H|[<-|[]]]; try tauto.
    + now apply (RA c).
    + now apply (RB c).
  - revert HF2. apply Forall2_impl_In.
    intros r [r1 r2] Hp [Hlen [HL [HR Hprob]]]. cbn [fst snd] in *.
    rewrite (equi_join_disjoint A B (common_scope_nil A B Hnil)) in Hp.
    apply in_prod_iff in Hp. destruct Hp as [H1 H2].
    unfold joined_row. cbn [fst snd].
    split; [assumption|]. split; [|split].
    + intros c Hc. apply scope_In in Hc. destruct Hc as [Hc Hp].
      rewrite HL; [apply row_get_app_left; auto | apply in_or_app; now left
                  | assumption | intros ->; contradiction].
    + intros c Hc. apply scope_In in Hc. destruct Hc as [Hc Hp].
      rewrite HR; [apply row_get_app_left; auto | apply in_or_app; now left
                  | intros [<-|[]]; contradiction | assumption
                  | intros ->; contradiction].
    + exists (prob_num (columns A) r1), (prob_num (columns B) r2).
      split; [now apply factor_prob_num|]. split; [now apply factor_prob_num|].
      unfold prob_cell. rewrite Hprob. unfold prob_num.
      rewrite !row_get_app_left by auto. reflexivity.
Qed.

(** C6, the claim fails.  [f_dummy] and [f_X] are factors with distinct rows
    and no common variable; the constant join column overwrites the variable
    called [dummy] and is dropped afterwards, so the product has lost that
    variable: its scope is [X] alone. *)
Lemma product_loses_dummy_variable :
  factor f_dummy /\ factor f_X /\
  rows_distinct f_dummy /\ rows_distinct f_X /\
  multiplication net_A (Frame f_dummy) (Frame f_X) =
    Ok (mkDF ["X"; "prob"]
             [[yes; pr 1 8]; [no; pr 1 8]; [yes; pr 3 8]; [no; pr 3 8]]) /\
  In "dummy" (scope f_dummy) /\
  ~ In "dummy" (scope (mkDF ["X"; "prob"]
             [[yes; pr 1 8]; [no; pr 1 8]; [yes; pr 3 8]; [no; pr 3 8]])).
Proof.
  split; [sample_factor|]. split; [sample_factor|].
  split; [repeat constructor; simpl; intuition discriminate|].
  split; [repeat constructor; simpl; intuition discriminate|].
  split; [vm_compute; reflexivity|]. split; [simpl; tauto|].
  simpl. intuition discriminate.
Qed.

(** C6, amended.  For factors [A] and [B] none of whose labels is [dummy],
    [prob_x] or [prob_y], [multiplication] returns a frame [M] with distinct
    labels whose scope is the union of the two scopes, with a [prob] column
    and none of the three bookkeeping labels; its rows are, in order, the
    joins of the pairs of rows of [A] and [B] that agree on the common
    variables, each with the product of the two [prob] values; without a
    common variable these pairs are the whole cross product.  Rows need not
    be distinct. *)
Theorem multiplication_is_equi_join (net : Network) (A B : DataFrame) :
  factor A -> factor B -> avoids_reserved A -> avoids_reserved B ->
  exists M, multiplication net (Frame A) (Frame B) = Ok M /\
            is_product A B M /\
            (common_scope A B = [] ->
             equi_join_pairs A B = list_prod (rows A) (rows B)).
Proof.
  intros HA HB RA RB.
  destruct (common_vars A B) as [|k ks] eqn:Hc.
  - destruct (multiplication_disjoint net A B HA HB RA RB Hc) as [M [HM HP]].
    exists M. split; [assumption|]. split; [assumption|]. apply equi_join_disjoint.
  - destruct (multiplication_shared net A B HA HB RA RB) as [M [HM HP]].
    + rewrite Hc. discriminate.
    + exists M. split; [assumption|]. split; [assumption|]. apply equi_join_disjoint.
Qed.

Lemma multiplication_is_equi_join_witness :
  factor cpt_A /\ factor cpt_B /\
  exists M, multiplication net_AB (Frame cpt_A) (Frame cpt_B) = Ok M /\
            is_product cpt_A cpt_B M /\
            (common_scope cpt_A cpt_B = [] ->
             equi_join_pairs cpt_A cpt_B = list_prod (rows cpt_A) (rows cpt_B)).
Proof.
  assert (HA : factor cpt_A) by sample_factor.
  assert (HB : factor cpt_B) by sample_factor.
  split; [exact HA|]. split; [exact HB|].
  apply (multiplication_is_equi_join net_AB cpt_A cpt_B HA HB).
  - intros c [<-|[<-|[<-|[]]]]; simpl; intuition discriminate.
  - intros c [<-|[<-|[<-|[]]]]; simpl; intuition discriminate.
Defined.

(* ================================================================== *)
(** ** The ordering loop terminates *)

Lemma random_choice_In (rng : tape) (seq : list string) :
  seq <> [] -> In (fst (random_choice rng seq)) seq.
Proof.
  intros H. destruct rng as [|d rng]; simpl.
  - destruct seq; [contradiction | now left].
  - apply nth_In. apply Nat.mod_upper_bound. now destruct seq.
Qed.

Lemma first_min_In (l : list (string * nat)) : forall best,
  In (first_min best l) (map fst (best :: l)).
Proof.
  induction l as [|x l IH]; intros best; simpl; [now left|].
  destruct (Nat.ltb (snd x) (snd best)).
  - right. apply IH.
  - destruct (IH best) as [H|H]; [now left | right; now right].
Qed.

Lemma first_max_In (l : list (string * nat)) : forall best,
  In (first_max best l) (map fst (best :: l)).
Proof.
  induction l as [|x l IH]; intros best; simpl; [now left|].
  destruct (Nat.ltb (snd best) (snd x)).
  - right. apply IH.
  - destruct (IH best) as [H|H]; [now left | right; now right].
Qed.

Lemma scored_fst (key : string -> result nat) (l : list string) :
  forall scored,
  mapM (fun v => k <- key v ;; Ok (v, k)) l = Ok scored -> map fst scored = l.
Proof.
  induction l as [|v l IH]; intros scored; simpl.
  - intros H. now injection H as <-.
  - destruct (key v) as [k|]; cbn [bind]; [|discriminate].
    destruct (mapM _ l) as [rest|]; cbn [bind]; [|discriminate].
    intros H. injection H as <-. simpl. f_equal. now apply IH.
Qed.

Lemma extremum_In (pick : string * nat -> list (string * nat) -> string)
  (key : string -> result nat) (remaining : list string) (v : string) :
  (forall best l, In (pick best l) (map fst (best :: l))) ->
  extremum pick key remaining = Ok v -> In v remaining.
Proof.
  intros Hpick. unfold extremum.
  destruct (mapM _ remaining) as [scored|] eqn:Hs; cbn [bind]; [|discriminate].
  apply scored_fst in Hs. destruct scored as [|x l]; [discriminate|].
  intros H. injection H as <-. rewrite <- Hs. apply Hpick.
Qed.

Lemma choose_In (h : heuristic) (net : Network) (remaining : list string)
  (rng : tape) (vr : string * tape) :
  remaining <> [] -> choose h net remaining rng = Ok vr -> In (fst vr) remaining.
Proof.
  intros Hne.
  assert (Hrandom : Ok (random_choice rng remaining) = Ok vr -> In (fst vr) remaining).
  { intros H. injection H as <-. now apply random_choice_In. }
  assert (Hmin : forall key,
            (v <- extremum first_min key remaining ;; Ok (v, rng)) = Ok vr ->
            In (fst vr) remaining).
  { intros key. destruct (extremum first_min key remaining) as [v|] eqn:He;
      cbn [bind]; [|discriminate].
    intros H. injection H as <-.
    apply (extremum_In _ _ _ _ (fun best l => first_min_In l best) He). }
  assert (Hmax : forall key,
            (v <- extremum first_max key remaining ;; Ok (v, rng)) = Ok vr ->
            In (fst vr) remaining).
  { intros key. destruct (extremum first_max key remaining) as [v|] eqn:He;
      cbn [bind]; [|discriminate].
    intros H. injection H as <-.
    apply (extremum_In _ _ _ _ (fun best l => first_max_In l best) He). }
  unfold choose. cbv zeta. destruct h as [name|order]; [|exact Hrandom].
  repeat (match goal with
          | |- context [if String.eqb name ?s then _ else _] =>
              destruct (String.eqb name s)
          end);
    first [exact Hrandom | apply Hmin | apply Hmax].
Qed.

Lemma set_remove_length (x : string) (l : list string) :
  In x l -> (List.length (set_remove x l) < List.length l)%nat.
Proof.
  unfold set_remove. induction l as [|y l IH]; intros Hin; [destruct Hin|]. simpl.
  destruct (String.eqb x y) eqn:Hxy; simpl.
  - pose proof (filter_length_le (fun y0 => negb (String.eqb x y0)) l). lia.
  - destruct Hin as [->|Hin]; [now rewrite String.eqb_refl in Hxy|].
    specialize (IH Hin). lia.
Qed.

Lemma mapM_raise {A B : Type} (f : A -> result B) (l : list A) (e : exn) :
  mapM f l = Raise e -> exists a, f a = Raise e.
Proof.
  induction l as [|a l IH]; simpl; [discriminate|].
  destruct (f a) as [b|e'] eqn:Hf; cbn [bind].
  - destruct (mapM f l) as [bs|e'']; cbn [bind]; [discriminate|].
    intros H. injection H as ->. now apply IH.
  - intros H. injection H as ->. now exists a.
Qed.

Lemma extremum_raise (pick : string * nat -> list (string * nat) -> string)
  (key : string -> result nat) (remaining : list string) (e : exn) :
  (forall v e', key v = Raise e' -> exists k, e' = KeyError k) ->
  extremum pick key remaining = Raise e ->
  e <> ValueError "out of fuel".
Proof.
  intros Hkey. unfold extremum.
  destruct (mapM _ remaining) as [[|x l]|e'] eqn:Hs; cbn [bind].
  - intros H. injection H as <-. discriminate.
  - discriminate.
  - intros H. injection H as ->. apply mapM_raise in Hs. destruct Hs as [v Hv].
    destruct (key v) as [k|e''] eqn:Hk; cbn [bind] in Hv; [discriminate|].
    injection Hv as ->. destruct (Hkey v e Hk) as [k ->]. discriminate.
Qed.

Lemma dict_item_raise {V : Type} (k : string) (d : dict V) (e : exn) :
  dict_item k d = Raise e -> e = KeyError k.
Proof.
  unfold dict_item. destruct (dict_get k d); [discriminate|].
  intros H. now injection H.
Qed.

Lemma choose_raise (h : heuristic) (net : Network) (remaining : list string)
  (rng : tape) (e : exn) :
  choose h net remaining rng = Raise e -> e <> ValueError "out of fuel".
Proof.
  assert (Hsize : forall v e', key_size net v = Raise e' -> exists k, e' = KeyError k).
  { intros v e'. unfold key_size.
    destruct (dict_item v (probabilities net)) eqn:Hd; cbn [bind]; [discriminate|].
    intros H. injection H as <-. exists v. now apply dict_item_raise in Hd. }
  assert (Hinc : forall v e', key_incoming net v = Raise e' -> exists k, e' = KeyError k).
  { intros v e'. unfold key_incoming.
    destruct (dict_item v (parents net)) eqn:Hd; cbn [bind]; [discriminate|].
    intros H. injection H as <-. exists v. now apply dict_item_raise in Hd. }
  assert (Hby : forall pick key,
            (forall v e', key v = Raise e' -> exists k, e' = KeyError k) ->
            (v <- extremum pick key remaining ;; Ok (v, rng)) = Raise e ->
            e <> ValueError "out of fuel").
  { intros pick key Hkey.
    destruct (extremum pick key remaining) as [v|e'] eqn:He; cbn [bind];
      [discriminate|].
    intros H. injection H as ->. now apply (extremum_raise pick key remaining). }
  unfold choose. cbv zeta. destruct h as [name|order]; [|discriminate].
  repeat (match goal with
          | |- context [if String.eqb name ?s then _ else _] =>
              destruct (String.eqb name s)
          end); try discriminate; apply Hby; try assumption; discriminate.
Qed.

(** The clock of [order_loop] never runs out when it starts at the size of
    the set, as it does in [elimination_order]. *)
Lemma order_loop_fuel (h : heuristic) (net : Network) (fuel : nat) :
  forall (remaining : list string) (rng : tape),
  (List.length remaining <= fuel)%nat ->
  order_loop fuel h net remaining rng <> Raise (ValueError "out of fuel").
Proof.
  induction fuel as [|fuel IH]; intros remaining rng Hlen.
  - destruct remaining; [discriminate | simpl in Hlen; lia].
  - destruct remaining as [|x remaining]; [discriminate|].
    cbn [order_loop].
    destruct (choose h net (x :: remaining) rng) as [vr|e] eqn:Hc; cbn [bind].
    + assert (Hin : In (fst vr) (x :: remaining))
        by (apply (choose_In h net _ rng); [discriminate | assumption]).
      apply set_remove_length in Hin.
      specialize (IH (set_remove (fst vr) (x :: remaining)) (snd vr)).
      destruct (order_loop fuel h net _ (snd vr)) as [rest|e'] eqn:Hr;
        cbn [bind]; [discriminate|].
      intros H. injection H as ->. apply IH; [simpl in *; lia | reflexivity].
    + intros H. injection H as ->. now apply choose_raise in Hc.
Qed.

Lemma elimination_order_fuel (net : Network) (h : heuristic) (observed : evidence)
  (rng : tape) :
  elimination_order net h observed rng <> Raise (ValueError "out of fuel").
Proof. unfold elimination_order. now apply order_loop_fuel. Qed.

(* ================================================================== *)
(** * Further properties *)

(** ** The elimination ordering *)

Lemma set_remove_In (x y : string) (l : list string) :
  In y (set_remove x l) <-> In y l /\ x <> y.
Proof.
  unfold set_remove. now rewrite filter_In, negb_true_iff, String.eqb_neq.
Qed.

(** What the loop returns is the set it started from, each element once. *)
Lemma order_loop_spec (h : heuristic) (net : Network) (fuel : nat) :
  forall (remaining : list string) (rng : tape) (order : list string),
  NoDup remaining ->
  order_loop fuel h net remaining rng = Ok order ->
  NoDup order /\ forall v, In v order <-> In v remaining.
Proof.
  induction fuel as [|fuel IH]; intros remaining rng order Hnd;
    destruct remaining as [|x remaining]; cbn [order_loop];
    try discriminate;
    try (intros H; injection H as <-; split; [constructor | tauto]).
  destruct (choose h net (x :: remaining) rng) as [vr|] eqn:Hc; cbn [bind];
    [|discriminate].
  destruct (order_loop fuel h net _ (snd vr)) as [rest|] eqn:Hr; cbn [bind];
    [|discriminate].
  intros H. injection H as <-.
  assert (Hin : In (fst vr) (x :: remaining))
    by (apply (choose_In h net _ rng); [discriminate | assumption]).
  destruct (IH (set_remove (fst vr) (x :: remaining)) _ _
              (NoDup_filter _ Hnd) Hr) as [Hrest Hmem].
  split.
  - constructor; [|assumption]. intros Hv. apply Hmem, set_remove_In in Hv. tauto.
  - intros v. simpl In at 1. rewrite Hmem, set_remove_In.
    destruct (string_dec (fst vr) v) as [<-|Hne]; tauto.
Qed.

Lemma remaining_nodup (ns ks : list string) : NoDup (set_diff (pyset ns) (pyset ks)).
Proof.
  unfold set_diff. apply NoDup_filter.
  apply (distinct_spec String.eqb ns). intros x y _ _. apply String.eqb_eq.
Qed.

Lemma remaining_In (ns ks : list string) (v : string) :
  In v (set_diff (pyset ns) (pyset ks)) <-> In v ns /\ ~ In v ks.
Proof.
  unfold set_diff. now rewrite filter_In, In_pyset, negb_true_iff, mem_pyset, mem_false.
Qed.

(** X1.  The sequence of variables that [run] eliminates lists every node of
    the network that is neither observed nor the query, each exactly once. *)
Theorem elimination_sequence_permutation (net : Network) (query : string)
  (observed : evidence) (h : heuristic) (rng : tape) (order : list string) :
  elimination_sequence net query observed h rng = Ok order ->
  NoDup order /\
  forall v, In v order <->
            In v (nodes net) /\ ~ In v (dict_keys observed) /\ v <> query.
Proof.
  unfold elimination_sequence, elimination_order.
  destruct (order_loop _ h net _ rng) as [full|] eqn:Hl; cbn [bind]; [|discriminate].
  intros H. injection H as <-.
  destruct (order_loop_spec _ _ _ _ _ _ (remaining_nodup _ _) Hl) as [Hnd Hmem].
  split; [now apply NoDup_filter|].
  intros v. rewrite filter_In, Hmem, remaining_In, negb_true_iff, String.eqb_neq.
  tauto.
Qed.

Lemma elimination_sequence_permutation_witness :
  NoDup ["A"; "B"] /\
  forall v, In v ["A"; "B"] <->
            In v (nodes net_ABC) /\ ~ In v (dict_keys (@nil (string * cell))) /\
            v <> "C".
Proof.
  apply (elimination_sequence_permutation net_ABC "C" [] (Named "min-size") []).
  vm_compute. reflexivity.
Defined.

Lemma mapM_ok {A B : Type} (f : A -> result B) (l : list A) :
  (forall a, In a l -> exists b, f a = Ok b) -> exists bs, mapM f l = Ok bs.
Proof.
  induction l as [|a l IH]; intros H; simpl; [now exists []|].
  destruct (H a (or_introl eq_refl)) as [b Hb].
  destruct IH as [bs Hbs]; [intros a' Ha'; apply H; now right|].
  exists (b :: bs). now rewrite Hb, Hbs.
Qed.

Lemma extremum_ok (pick : string * nat -> list (string * nat) -> string)
  (key : string -> result nat) (remaining : list string) :
  remaining <> [] ->
  (forall v, In v remaining -> exists k, key v = Ok k) ->
  exists v, extremum pick key remaining = Ok v.
Proof.
  intros Hne Hkey. unfold extremum.
  destruct (mapM_ok (fun v => k <- key v ;; Ok (v, k)) remaining) as [scored Hs].
  { intros v Hv. destruct (Hkey v Hv) as [k Hk]. exists (v, k). now rewrite Hk. }
  rewrite Hs. cbn [bind]. pose proof (scored_fst key remaining scored Hs) as Hf.
  destruct scored as [|x l]; [now destruct remaining|]. now eexists.
Qed.

Lemma dict_item_ok {V : Type} (k : string) (d : dict V) :
  dict_get k d <> None -> exists v, dict_item k d = Ok v.
Proof.
  unfold dict_item. destruct (dict_get k d) as [v|]; [now exists v | congruence].
Qed.

(** One pass of the loop succeeds when the heuristic looks nothing up or
    every remaining variable has its entries. *)
Lemma choose_ok (h : heuristic) (net : Network) (remaining : list string)
  (rng : tape) :
  remaining <> [] ->
  (forall name, h = Named name -> In name lookup_heuristics ->
     forall v, In v remaining ->
       dict_get v (probabilities net) <> None /\ dict_get v (parents net) <> None) ->
  exists vr, choose h net remaining rng = Ok vr.
Proof.
  intros Hne Hkeys. unfold choose. cbv zeta.
  assert (Hby : forall pick key,
            (forall v, In v remaining -> exists k, key v = Ok k) ->
            exists vr, (v <- extremum pick key remaining ;; Ok (v, rng)) = Ok vr).
  { intros pick key Hk. destruct (extremum_ok pick key remaining Hne Hk) as [v Hv].
    rewrite Hv. now eexists. }
  destruct h as [name|order]; [|now eexists].
  destruct (String.eqb name "random") eqn:E1; [now eexists|].
  destruct (String.eqb name "min-size") eqn:E2.
  { apply String.eqb_eq in E2. apply Hby. intros v Hv. unfold key_size.
    destruct (dict_item_ok v (probabilities net)) as [df Hdf].
    - apply (Hkeys name eq_refl); [subst; simpl; tauto | assumption].
    - rewrite Hdf. now eexists. }
  destruct (String.eqb name "least-incoming-arcs") eqn:E3.
  { apply String.eqb_eq in E3. apply Hby. intros v Hv. unfold key_incoming.
    destruct (dict_item_ok v (parents net)) as [ps Hps].
    - apply (Hkeys name eq_refl); [subst; simpl; tauto | assumption].
    - rewrite Hps. now eexists. }
  destruct (String.eqb name "outgoing-arcs-first") eqn:E4.
  { apply Hby. intros v _. now eexists. }
  destruct (String.eqb name "min-weight") eqn:E5.
  { apply String.eqb_eq in E5. apply Hby. intros v Hv. unfold key_size.
    destruct (dict_item_ok v (probabilities net)) as [df Hdf].
    - apply (Hkeys name eq_refl); [subst; simpl; tauto | assumption].
    - rewrite Hdf. now eexists. }
  destruct (String.eqb name "fewest-factors") eqn:E6.
  { apply Hby. intros v _. now eexists. }
  now eexists.
Qed.

Lemma order_loop_total (h : heuristic) (net : Network) (fuel : nat) :
  forall (remaining : list string) (rng : tape),
  (List.length remaining <= fuel)%nat ->
  (forall name, h = Named name -> In name lookup_heuristics ->
     forall v, In v remaining ->
       dict_get v (probabilities net) <> None /\ dict_get v (parents net) <> None) ->
  exists order, order_loop fuel h net remaining rng = Ok order.
Proof.
  induction fuel as [|fuel IH]; intros remaining rng Hlen Hkeys;
    destruct remaining as [|x remaining]; cbn [order_loop];
    try (simpl in Hlen; lia); try (now exists []).
  destruct (choose_ok h net (x :: remaining) rng) as [vr Hc];
    [discriminate | assumption |].
  rewrite Hc. cbn [bind].
  assert (Hin : In (fst vr) (x :: remaining))
    by (apply (choose_In h net _ rng); [discriminate | assumption]).
  destruct (IH (set_remove (fst vr) (x :: remaining)) (snd vr)) as [rest Hr].
  - apply set_remove_length in Hin. simpl in *. lia.
  - intros name Hn Hl v Hv. apply set_remove_In in Hv.
    now apply (Hkeys name Hn Hl).
  - rewrite Hr. now eexists.
Qed.

(** X2.  [elimination_order] returns an ordering, whatever the random source,
    when the heuristic is not one of the three that read [probabilities[var]]
    or [parents[var]]; for those three it does so when every node that is not
    observed has a table and a list of parents. *)
Theorem elimination_order_total (net : Network) (h : heuristic)
  (observed : evidence) (rng : tape) :
  (forall name, h = Named name -> In name lookup_heuristics ->
     forall v, In v (nodes net) -> ~ In v (dict_keys observed) ->
       dict_get v (probabilities net) <> None /\ dict_get v (parents net) <> None) ->
  exists order, elimination_order net h observed rng = Ok order.
Proof.
  intros H. unfold elimination_order. apply order_loop_total; [lia|].
  intros name Hn Hl v Hv. apply remaining_In in Hv. now apply (H name Hn Hl).
Qed.

Lemma elimination_order_total_witness :
  exists order, elimination_order net_ABC (Named "min-size") [("B", yes)] [] = Ok order.
Proof.
  apply (elimination_order_total net_ABC (Named "min-size") [("B", yes)] []).
  intros name _ _ v Hv _. simpl in Hv.
  destruct Hv as [<-|[<-|[<-|[]]]]; split; discriminate.
Defined.

Lemma order_loop_ext (h1 h2 : heuristic) (net : Network) (fuel : nat) :
  (forall remaining rng, choose h1 net remaining rng = choose h2 net remaining rng) ->
  forall (remaining : list string) (rng : tape),
  order_loop fuel h1 net remaining rng = order_loop fuel h2 net remaining rng.
Proof.
  intros Hc. induction fuel as [|fuel IH]; intros remaining rng;
    destruct remaining as [|x remaining]; try reflexivity.
  cbn [order_loop]. rewrite Hc.
  destruct (choose h2 net (x :: remaining) rng) as [vr|]; cbn [bind]; [|reflexivity].
  now rewrite IH.
Qed.

(** X3.  A heuristic name that is not one of the six known names gives the
    ordering of ["random"]. *)
Theorem unknown_heuristic_is_random (net : Network) (name : string)
  (observed : evidence) (rng : tape) :
  ~ In name known_heuristics ->
  elimination_order net (Named name) observed rng =
  elimination_order net (Named "random") observed rng.
Proof.
  intros Hn. unfold elimination_order. apply order_loop_ext.
  intros remaining rng'. unfold choose. cbv zeta.
  assert (H : forall s, In s known_heuristics -> String.eqb name s = false).
  { intros s Hs. apply String.eqb_neq. intros ->. contradiction. }
  rewrite !H by (simpl; tauto). reflexivity.
Qed.

Lemma unknown_heuristic_is_random_witness :
  elimination_order net_ABC (Named "min-fill") [] [2; 0; 0]%nat =
  elimination_order net_ABC (Named "random") [] [2; 0; 0]%nat.
Proof.
  apply (unknown_heuristic_is_random net_ABC "min-fill" [] [2; 0; 0]%nat).
  simpl. intuition discriminate.
Defined.

Lemma mapM_raise_In {A B : Type} (f : A -> result B) (l : list A) (e : exn) :
  mapM f l = Raise e -> exists a, In a l /\ f a = Raise e.
Proof.
  induction l as [|a l IH]; simpl; [discriminate|].
  destruct (f a) as [b|e'] eqn:Hf; cbn [bind].
  - destruct (mapM f l) as [bs|e'']; cbn [bind]; [discriminate|].
    intros H. injection H as ->. destruct (IH eq_refl) as [a' [Hin Ha']].
    exists a'. split; [now right | assumption].
  - intros H. injection H as ->. exists a. split; [now left | assumption].
Qed.

Lemma extremum_raise_In (pick : string * nat -> list (string * nat) -> string)
  (key : string -> result nat) (remaining : list string) (e : exn) :
  remaining <> [] ->
  extremum pick key remaining = Raise e ->
  exists v, In v remaining /\ key v = Raise e.
Proof.
  intros Hne. unfold extremum.
  destruct (mapM _ remaining) as [[|x l]|e'] eqn:Hs; cbn [bind].
  - apply scored_fst in Hs. simpl in Hs. now subst.
  - discriminate.
  - intros H. injection H as ->. apply mapM_raise_In in Hs.
    destruct Hs as [v [Hin Hv]]. exists v. split; [assumption|].
    cbv beta in Hv.
    destruct (key v) as [k|]; cbn [bind] in Hv; [discriminate|].
    now injection Hv as ->.
Qed.

Lemma choose_raise_missing (h : heuristic) (net : Network)
  (remaining : list string) (rng : tape) (e : exn) :
  remaining <> [] ->
  choose h net remaining rng = Raise e ->
  exists v, e = KeyError v /\ In v remaining /\
            (dict_get v (probabilities net) = None \/
             dict_get v (parents net) = None).
Proof.
  intros Hne.
  assert (Hby : forall pick key,
            (forall v e', key v = Raise e' ->
               e' = KeyError v /\
               (dict_get v (probabilities net) = None \/
                dict_get v (parents net) = None)) ->
            (v <- extremum pick key remaining ;; Ok (v, rng)) = Raise e ->
            exists v, e = KeyError v /\ In v remaining /\
                      (dict_get v (probabilities net) = None \/
                       dict_get v (parents net) = None)).
  { intros pick key Hkey.
    destruct (extremum pick key remaining) as [v|e'] eqn:He; cbn [bind];
      [discriminate|].
    intros H. injection H as ->.
    destruct (extremum_raise_In pick key remaining e Hne He) as [v [Hin Hv]].
    destruct (Hkey v e Hv) as [-> Hm]. now exists v. }
  assert (Hsize : forall v e', key_size net v = Raise e' ->
            e' = KeyError v /\
            (dict_get v (probabilities net) = None \/
             dict_get v (parents net) = None)).
  { intros v e'. unfold key_size, dict_item.
    destruct (dict_get v (probabilities net)); cbn [bind]; [discriminate|].
    intros H. injection H as <-. tauto. }
  assert (Hinc : forall v e', key_incoming net v = Raise e' ->
            e' = KeyError v /\
            (dict_get v (probabilities net) = None \/
             dict_get v (parents net) = None)).
  { intros v e'. unfold key_incoming, dict_item.
    destruct (dict_get v (parents net)); cbn [bind]; [discriminate|].
    intros H. injection H as <-. tauto. }
  unfold choose. cbv zeta. destruct h as [name|order]; [|discriminate].
  repeat (match goal with
          | |- context [if String.eqb name ?s then _ else _] =>
              destruct (String.eqb name s)
          end); try discriminate; apply Hby; try assumption; discriminate.
Qed.

Lemma order_loop_raise (h : heuristic) (net : Network) (fuel : nat) :
  forall (remaining : list string) (rng : tape) (e : exn),
  (List.length remaining <= fuel)%nat ->
  order_loop fuel h net remaining rng = Raise e ->
  exists v, e = KeyError v /\ In v remaining /\
            (dict_get v (probabilities net) = None \/
             dict_get v (parents net) = None).
Proof.
  induction fuel as [|fuel IH]; intros remaining rng e Hlen;
    destruct remaining as [|x remaining]; cbn [order_loop];
    try discriminate; try (simpl in Hlen; lia).
  destruct (choose h net (x :: remaining) rng) as [vr|e'] eqn:Hc; cbn [bind].
  - assert (Hin : In (fst vr) (x :: remaining))
      by (apply (choose_In h net _ rng); [discriminate | assumption]).
    destruct (order_loop fuel h net _ (snd vr)) as [rest|e''] eqn:Hr; cbn [bind];
      [discriminate|].
    intros H. injection H as ->. apply IH in Hr.
    + destruct Hr as [v [He [Hv Hm]]]. exists v. apply set_remove_In in Hv. tauto.
    + apply set_remove_length in Hin. simpl in *. lia.
  - intros H. injection H as ->. apply choose_raise_missing in Hc; [assumption|].
    discriminate.
Qed.

(** X4.  The only way [elimination_order] fails is a [KeyError] that names a
    node of the network, not observed, that has no table in [probabilities]
    or no entry in [parents]. *)
Theorem elimination_order_raises_key_error (net : Network) (h : heuristic)
  (observed : evidence) (rng : tape) (e : exn) :
  elimination_order net h observed rng = Raise e ->
  exists v, e = KeyError v /\
            In v (nodes net) /\ ~ In v (dict_keys observed) /\
            (dict_get v (probabilities net) = None \/
             dict_get v (parents net) = None).
Proof.
  unfold elimination_order. intros H. apply order_loop_raise in H; [|lia].
  destruct H as [v [He [Hv Hm]]]. apply remaining_In in Hv. exists v. tauto.
Qed.

Lemma elimination_order_raises_key_error_witness :
  exists v, KeyError "A" = KeyError v /\
            In v (nodes net_empty) /\ ~ In v (dict_keys (@nil (string * cell))) /\
            (dict_get v (probabilities net_empty) = None \/
             dict_get v (parents net_empty) = None).
Proof.
  apply (elimination_order_raises_key_error net_empty (Named "min-size") [] []).
  vm_compute. reflexivity.
Defined.

(** ** Static heuristics *)

Lemma scored_keys (key : string -> result nat) (l : list string) :
  forall scored,
  mapM (fun v => k <- key v ;; Ok (v, k)) l = Ok scored ->
  Forall (fun x => key (fst x) = Ok (snd x)) scored.
Proof.
  induction l as [|v l IH]; intros scored; simpl.
  - intros H. injection H as <-. constructor.
  - destruct (key v) as [k|] eqn:Hk; cbn [bind]; [|discriminate].
    destruct (mapM _ l) as [rest|]; cbn [bind]; [|discriminate].
    intros H. injection H as <-. constructor; [assumption | now apply IH].
Qed.

Lemma first_min_least (l : list (string * nat)) : forall best,
  exists k, In (first_min best l, k) (best :: l) /\
            forall x, In x (best :: l) -> (k <= snd x)%nat.
Proof.
  induction l as [|x l IH]; intros [b kb]; simpl.
  - exists kb. split; [now left|]. intros y [<-|[]]. simpl. lia.
  - destruct (Nat.ltb (snd x) kb) eqn:Hlt.
    + apply Nat.ltb_lt in Hlt. destruct (IH x) as [k [Hin Hle]].
      exists k. split; [now right|].
      intros y [<-|Hy]; [|now apply Hle].
      simpl. specialize (Hle x (or_introl eq_refl)). lia.
    + apply Nat.ltb_ge in Hlt. destruct (IH (b, kb)) as [k [Hin Hle]].
      exists k. split.
      * destruct Hin as [Hin|Hin]; [now left | right; now right].
      * intros y [<-|[<-|Hy]].
        -- apply (Hle (b, kb)). now left.
        -- specialize (Hle (b, kb) (or_introl eq_refl)). simpl in Hle. lia.
        -- apply Hle. now right.
Qed.

Lemma first_max_greatest (l : list (string * nat)) : forall best,
  exists k, In (first_max best l, k) (best :: l) /\
            forall x, In x (best :: l) -> (snd x <= k)%nat.
Proof.
  induction l as [|x l IH]; intros [b kb]; simpl.
  - exists kb. split; [now left|]. intros y [<-|[]]. simpl. lia.
  - destruct (Nat.ltb kb (snd x)) eqn:Hlt.
    + apply Nat.ltb_lt in Hlt. destruct (IH x) as [k [Hin Hle]].
      exists k. split; [now right|].
      intros y [<-|Hy]; [|now apply Hle].
      simpl. specialize (Hle x (or_introl eq_refl)). lia.
    + apply Nat.ltb_ge in Hlt. destruct (IH (b, kb)) as [k [Hin Hle]].
      exists k. split.
      * destruct Hin as [Hin|Hin]; [now left | right; now right].
      * intros y [<-|[<-|Hy]].
        -- apply (Hle (b, kb)). now left.
        -- specialize (Hle (b, kb) (or_introl eq_refl)). simpl in Hle. lia.
        -- apply Hle. now right.
Qed.

Lemma scored_In (key : string -> result nat) (l : list string)
  (scored : list (string * nat)) (u : string) :
  mapM (fun v => k <- key v ;; Ok (v, k)) l = Ok scored ->
  In u l -> exists ku, In (u, ku) scored.
Proof.
  intros Hs Hu. rewrite <- (scored_fst key l scored Hs) in Hu.
  apply in_map_iff in Hu. destruct Hu as [[u' ku] [<- Hin]]. now exists ku.
Qed.

Lemma extremum_min_least (key : string -> result nat) (remaining : list string)
  (v : string) :
  extremum first_min key remaining = Ok v ->
  exists k, key v = Ok k /\
            forall u, In u remaining -> exists ku, key u = Ok ku /\ (k <= ku)%nat.
Proof.
  unfold extremum.
  destruct (mapM _ remaining) as [scored|] eqn:Hs; cbn [bind]; [|discriminate].
  pose proof (scored_keys key remaining scored Hs) as Hk.
  rewrite Forall_forall in Hk.
  destruct scored as [|x l]; [discriminate|]. intros H. injection H as <-.
  destruct (first_min_least l x) as [k [Hin Hle]]. exists k. split.
  - exact (Hk _ Hin).
  - intros u Hu. destruct (scored_In key remaining (x :: l) u Hs Hu) as [ku Hku].
    exists ku. split; [exact (Hk _ Hku) | exact (Hle _ Hku)].
Qed.

Lemma extremum_max_greatest (key : string -> result nat) (remaining : list string)
  (v : string) :
  extremum first_max key remaining = Ok v ->
  exists k, key v = Ok k /\
            forall u, In u remaining -> exists ku, key u = Ok ku /\ (ku <= k)%nat.
Proof.
  unfold extremum.
  destruct (mapM _ remaining) as [scored|] eqn:Hs; cbn [bind]; [|discriminate].
  pose proof (scored_keys key remaining scored Hs) as Hk.
  rewrite Forall_forall in Hk.
  destruct scored as [|x l]; [discriminate|]. intros H. injection H as <-.
  destruct (first_max_greatest l x) as [k [Hin Hle]]. exists k. split.
  - exact (Hk _ Hin).
  - intros u Hu. destruct (scored_In key remaining (x :: l) u Hs Hu) as [ku Hku].
    exists ku. split; [exact (Hk _ Hku) | exact (Hle _ Hku)].
Qed.

(** A loop that picks an extremum of a score that does not change lists the
    variables in the order of the score. *)
Lemma order_loop_sorted (h : heuristic) (net : Network)
  (pick : string * nat -> list (string * nat) -> string)
  (key : string -> result nat) (score : string -> nat) (R : nat -> nat -> Prop) :
  (forall remaining rng,
      choose h net remaining rng =
      (v <- extremum pick key remaining ;; Ok (v, rng))) ->
  (forall v k, key v = Ok k -> k = score v) ->
  (forall remaining v, extremum pick key remaining = Ok v ->
      exists k, key v = Ok k /\
                forall u, In u remaining -> exists ku, key u = Ok ku /\ R k ku) ->
  forall (fuel : nat) (remaining : list string) (rng : tape) (order : list string),
  NoDup remaining ->
  order_loop fuel h net remaining rng = Ok order ->
  StronglySorted (fun a b => R (score a) (score b)) order.
Proof.
  intros Hchoose Hscore Hext.
  induction fuel as [|fuel IH]; intros remaining rng order Hnd;
    destruct remaining as [|x remaining]; cbn [order_loop];
    try discriminate; try (intros H; injection H as <-; constructor).
  rewrite Hchoose.
  destruct (extremum pick key (x :: remaining)) as [v|] eqn:He; cbn [bind fst snd];
    [|discriminate].
  destruct (order_loop fuel h net (set_remove v (x :: remaining)) rng)
    as [rest|] eqn:Hr; cbn [bind]; [|discriminate].
  intros H. injection H as <-.
  pose proof (NoDup_filter (fun y => negb (String.eqb v y)) Hnd) as Hnd'.
  constructor; [exact (IH _ _ _ Hnd' Hr)|].
  destruct (order_loop_spec h net fuel _ _ _ Hnd' Hr) as [_ Hmem].
  destruct (Hext _ _ He) as [k [Hk Hle]].
  apply Forall_forall. intros u Hu. apply Hmem, set_remove_In in Hu.
  destruct (Hle u (proj1 Hu)) as [ku [Hku HR]].
  now rewrite <- (Hscore _ _ Hk), <- (Hscore _ _ Hku).
Qed.

Lemma key_size_score (net : Network) (v : string) (k : nat) :
  key_size net v = Ok k -> k = table_size net v.
Proof.
  unfold key_size, table_size, dict_item.
  destruct (dict_get v (probabilities net)); cbn [bind]; [|discriminate].
  intros H. now injection H.
Qed.

Lemma key_incoming_score (net : Network) (v : string) (k : nat) :
  key_incoming net v = Ok k -> k = parent_count net v.
Proof.
  unfold key_incoming, parent_count, dict_item.
  destruct (dict_get v (parents net)); cbn [bind]; [|discriminate].
  intros H. now injection H.
Qed.

(** X5.  Under [min-size], [min-weight], [least-incoming-arcs] and
    [fewest-factors] the ordering lists the variables by non-decreasing
    score: the number of rows of the variable's table for the first two, the
    number of its parents, and the number of tables of the network that
    mention it.  The scores are read from the network, which the loop does
    not change. *)
Theorem minimising_heuristics_sorted (net : Network) (name : string)
  (score : string -> nat) (observed : evidence) (rng : tape)
  (order : list string) :
  score_of net name = Some score ->
  elimination_order net (Named name) observed rng = Ok order ->
  StronglySorted (fun a b => (score a <= score b)%nat) order.
Proof.
  unfold score_of, elimination_order. intros Hs.
  destruct (String.eqb name "min-size") eqn:E1.
  { apply String.eqb_eq in E1. subst name. injection Hs as <-.
    apply (order_loop_sorted _ net first_min (key_size net) (table_size net) le);
      [reflexivity | apply key_size_score | apply extremum_min_least
      | apply remaining_nodup]. }
  destruct (String.eqb name "least-incoming-arcs") eqn:E2.
  { apply String.eqb_eq in E2. subst name. injection Hs as <-.
    apply (order_loop_sorted _ net first_min (key_incoming net) (parent_count net) le);
      [reflexivity | apply key_incoming_score | apply extremum_min_least
      | apply remaining_nodup]. }
  destruct (String.eqb name "min-weight") eqn:E3.
  { apply String.eqb_eq in E3. subst name. injection Hs as <-.
    apply (order_loop_sorted _ net first_min (key_size net) (table_size net) le);
      [reflexivity | apply key_size_score | apply extremum_min_least
      | apply remaining_nodup]. }
  destruct (String.eqb name "fewest-factors") eqn:E4; [|discriminate].
  apply String.eqb_eq in E4. subst name. injection Hs as <-.
  apply (order_loop_sorted _ net first_min (key_factors net) (factor_count net) le);
    [reflexivity | | apply extremum_min_least | apply remaining_nodup].
  intros v k H. now injection H.
Qed.

Lemma minimising_heuristics_sorted_witness :
  StronglySorted (fun a b => (table_size net_ABC a <= table_size net_ABC b)%nat)
                 ["A"; "B"; "C"].
Proof.
  apply (minimising_heuristics_sorted net_ABC "min-weight" (table_size net_ABC) [] []).
  - reflexivity.
  - vm_compute. reflexivity.
Defined.

(** X6.  Under [outgoing-arcs-first] the ordering lists the variables by
    non-increasing number of children. *)
Theorem outgoing_arcs_first_sorted (net : Network) (observed : evidence)
  (rng : tape) (order : list string) :
  elimination_order net (Named "outgoing-arcs-first") observed rng = Ok order ->
  StronglySorted (fun a b => (child_count net b <= child_count net a)%nat) order.
Proof.
  unfold elimination_order.
  apply (order_loop_sorted _ net first_max (key_outgoing net) (child_count net)
           (fun a b => (b <= a)%nat));
    [reflexivity | | apply extremum_max_greatest | apply remaining_nodup].
  intros v k H. now injection H.
Qed.

Lemma outgoing_arcs_first_sorted_witness :
  StronglySorted (fun a b => (child_count net_ABC b <= child_count net_ABC a)%nat)
                 ["A"; "B"; "C"].
Proof.
  apply (outgoing_arcs_first_sorted net_ABC [] []).
  vm_compute. reflexivity.
Defined.

(* ================================================================== *)
(** ** The elimination loop *)

Lemma dict_del_keys_In {V : Type} (k k' : string) (d : dict V) :
  In k' (dict_keys (dict_del k d)) -> In k' (dict_keys d).
Proof.
  unfold dict_keys. induction d as [|[k0 v0] d IH]; simpl; [tauto|].
  destruct (String.eqb k k0); simpl; tauto.
Qed.

Lemma dict_del_NoDup {V : Type} (k : string) (d : dict V) :
  NoDup (dict_keys d) -> NoDup (dict_keys (dict_del k d)).
Proof.
  unfold dict_keys. induction d as [|[k0 v0] d IH]; simpl; intros H; [constructor|].
  inversion H as [|? ? Hk0 Hd]; subst.
  destruct (String.eqb k k0); [assumption|]. simpl. constructor; [|now apply IH].
  intros Hin. apply Hk0. now apply (dict_del_keys_In k).
Qed.

Lemma dict_del_gone {V : Type} (k : string) (d : dict V) :
  NoDup (dict_keys d) -> ~ In k (dict_keys (dict_del k d)).
Proof.
  unfold dict_keys. induction d as [|[k0 v0] d IH]; simpl; intros H; [tauto|].
  inversion H as [|? ? Hk0 Hd]; subst.
  destruct (String.eqb k k0) eqn:E.
  - apply String.eqb_eq in E. now subst.
  - simpl. apply String.eqb_neq in E. intros [H'|H']; [congruence|]. now apply IH.
Qed.

Lemma delete_all_NoDup (fs : list string) : forall d : dict tracked,
  NoDup (dict_keys d) -> NoDup (dict_keys (delete_all fs d)).
Proof.
  unfold delete_all. induction fs as [|f fs IH]; intros d H; simpl; [assumption|].
  apply IH. now apply dict_del_NoDup.
Qed.

Lemma delete_all_keys_In (fs : list string) : forall (d : dict tracked) (k : string),
  In k (dict_keys (delete_all fs d)) -> In k (dict_keys d).
Proof.
  unfold delete_all. induction fs as [|f fs IH]; intros d k; simpl; [tauto|].
  intros H. apply IH in H. now apply dict_del_keys_In in H.
Qed.

Lemma delete_all_gone (fs : list string) : forall (d : dict tracked) (k : string),
  NoDup (dict_keys d) -> In k fs -> ~ In k (dict_keys (delete_all fs d)).
Proof.
  unfold delete_all. induction fs as [|f fs IH]; intros d k Hnd Hk; [destruct Hk|].
  simpl. destruct Hk as [->|Hk].
  - intros Hin. apply (delete_all_keys_In fs) in Hin.
    now apply (dict_del_gone k d Hnd).
  - apply IH; [now apply dict_del_NoDup | assumption].
Qed.

Lemma dict_set_keys_In {V : Type} (k : string) (v : V) (d : dict V) (k' : string) :
  In k' (dict_keys (dict_set k v d)) <-> k' = k \/ In k' (dict_keys d).
Proof.
  unfold dict_keys. induction d as [|[k0 v0] d IH]; simpl; [intuition|].
  destruct (String.eqb k k0) eqn:E; simpl.
  - apply String.eqb_eq in E. subst. intuition.
  - rewrite IH. intuition.
Qed.

Lemma dict_set_NoDup {V : Type} (k : string) (v : V) (d : dict V) :
  NoDup (dict_keys d) -> NoDup (dict_keys (dict_set k v d)).
Proof.
  induction d as [|[k0 v0] d IH]; simpl; intros H.
  - repeat constructor. intros [].
  - inversion H as [|? ? Hk0 Hd]; subst. destruct (String.eqb k k0) eqn:E.
    + apply String.eqb_eq in E. subst. now constructor.
    + apply String.eqb_neq in E. simpl. constructor; [|now apply IH].
      fold (dict_keys (dict_set k v d)). rewrite dict_set_keys_In.
      intros [Heq|Hin]; [congruence | contradiction].
Qed.

Lemma related_factors_In (var : string) (factors : dict tracked)
  (k : string) (t : tracked) :
  In (k, t) factors -> In var (columns (frame t)) ->
  In k (related_factors var factors).
Proof.
  intros Hin Hc. unfold related_factors, dict_keys.
  apply in_map_iff. exists (k, t). split; [reflexivity|].
  apply filter_In. split; [assumption|]. now apply has_column_In.
Qed.

Lemma eliminate_var_removes (net : Network) (var : string)
  (factors factors' : dict tracked) :
  NoDup (dict_keys factors) -> var <> "prob" -> var <> "index" ->
  eliminate_var net var factors = Ok factors' ->
  absent_from_factors var factors' /\ NoDup (dict_keys factors').
Proof.
  intros Hnd Hp Hi. unfold eliminate_var.
  destruct (related_factors var factors) as [|f0 fs] eqn:Hrel.
  - intros H. injection H as <-. split; [|assumption].
    intros k t Hin Hc. apply (related_factors_In var factors k t Hin) in Hc.
    rewrite Hrel in Hc. destruct Hc.
  - destruct (dict_item f0 factors) as [t0|]; cbn [bind]; [|discriminate].
    destruct (multiply_related net factors (frame t0) fs) as [c|];
      cbn [bind]; [|discriminate].
    destruct (sum_out net var (Frame c)) as [r|] eqn:Hr; cbn [bind]; [|discriminate].
    intros H. injection H as <-. split.
    + intros k t Hin. apply dict_set_In in Hin. destruct Hin as [Heq|Hin].
      * injection Heq as _ ->. cbn [frame fresh]. intros Hc.
        destruct (sum_out_labels net var c r Hr var Hc) as [[_ H]|[H|H]]; congruence.
      * intros Hc. pose proof Hin as Hin'.
        apply (delete_all_In (f0 :: fs)) in Hin'.
        apply (related_factors_In var factors k t Hin') in Hc.
        rewrite Hrel in Hc.
        apply (delete_all_gone (f0 :: fs) factors k Hnd Hc).
        unfold dict_keys. apply in_map_iff. exists (k, t).
        split; [reflexivity | exact Hin].
    + apply dict_set_NoDup. exact (delete_all_NoDup (f0 :: fs) factors Hnd).
Qed.

(** X7.  When the loop of step 1 ends, none of the variables it was given is
    a label of any tracked factor: the factors that mentioned a variable are
    deleted, the factor that replaces them does not mention it, and later
    products do not bring it back.  The keys of the working dictionary stay
    distinct. *)
Theorem eliminate_removes_variables (net : Network) (order : list string) :
  forall (factors factors' : dict tracked),
  NoDup (dict_keys factors) ->
  (forall v, In v order -> v <> "prob" /\ v <> "index") ->
  eliminate net order factors = Ok factors' ->
  (forall v, In v order -> absent_from_factors v factors') /\
  NoDup (dict_keys factors').
Proof.
  induction order as [|var order IH]; intros factors factors' Hnd Hnames; simpl.
  - intros H. injection H as <-. split; [intros v []|assumption].
  - destruct (eliminate_var net var factors) as [f1|] eqn:H1; cbn [bind];
      [|discriminate].
    intros Hrest.
    destruct (Hnames var (or_introl eq_refl)) as [Hp Hi].
    destruct (eliminate_var_removes net var factors f1 Hnd Hp Hi H1) as [Habs Hnd1].
    destruct (IH f1 factors' Hnd1) as [Hall Hnd']; [|assumption|].
    { intros v Hv. apply Hnames. now right. }
    split; [|assumption]. intros v [<-|Hv]; [|now apply Hall].
    apply (eliminate_absent var Hp Hi net order f1 factors' Habs Hrest).
Qed.

Lemma eliminate_removes_variables_witness :
  exists factors',
    eliminate net_ABC ["A"; "B"] (copy_probabilities (probabilities net_ABC)) =
      Ok factors' /\
    (forall v, In v ["A"; "B"] -> absent_from_factors v factors') /\
    NoDup (dict_keys factors').
Proof.
  eexists. split; [vm_compute; reflexivity|].
  apply (eliminate_removes_variables net_ABC ["A"; "B"]
           (copy_probabilities (probabilities net_ABC))).
  - simpl. repeat constructor; simpl; intuition discriminate.
  - intros v [<-|[<-|[]]]; split; discriminate.
  - vm_compute. reflexivity.
Defined.

(* ================================================================== *)
(** ** What [run] returns *)

Lemma remove_extra_labels (net : Network) (observed : evidence)
  (vars : list string) : forall (ff out : tracked),
  remove_extra net observed vars ff = Ok out ->
  forall c, In c (columns (frame out)) ->
            (In c (columns (frame ff)) /\ ~ In c vars) \/
            c = "prob" \/ c = "index".
Proof.
  induction vars as [|var vars IH]; intros ff out; simpl.
  - intros H c Hc. injection H as <-. tauto.
  - destruct (match dict_get var observed with
              | Some value => _
              | None => _
              end) as [f|] eqn:Hf; cbn [bind]; [|discriminate].
    intros Hout c Hc. destruct (IH _ _ Hout c Hc) as [[Hcf Hnv]|H]; [|tauto].
    cbn [frame fresh] in Hcf.
    assert (Hstep : (In c (columns (frame ff)) /\ c <> var) \/
                    c = "prob" \/ c = "index").
    { destruct (dict_get var observed) as [value|].
      - unfold select_eq in Hf.
        destruct (has_column var (frame ff)); cbn [bind] in Hf; [|discriminate].
        apply (drop_labels _ _ _ Hf) in Hcf. destruct Hcf as [Hcf Hn].
        left. split; [exact Hcf|]. intros ->. apply Hn. now left.
      - exact (sum_out_labels net var (frame ff) f Hf c Hcf). }
    destruct Hstep as [[H1 H2]|H]; [|tauto].
    left. split; [assumption|]. intros [Heq|Hin]; [congruence | contradiction].
Qed.

Lemma normalize_labels (df out : DataFrame) :
  normalize df = Ok out ->
  In "prob" (columns df) /\ columns out = columns df.
Proof.
  unfold normalize, column.
  destruct (has_column "prob" df) eqn:Hc; cbn [bind]; [|discriminate].
  destruct (mapM as_num _) as [xs|]; cbn [bind]; [|discriminate].
  intros H. injection H as <-. split; [now apply has_column_In|].
  unfold assign. now rewrite Hc.
Qed.

(** X8.  A table returned by [run] has the label [prob], and every other
    label is the query or [index] (the label pandas gives when the last
    variable is summed out of a table without rows); if the query is itself
    observed, it is not a label of the result. *)
Theorem run_result_labels (net : Network) (query : string)
  (observed : evidence) (h : heuristic) (rng : tape) (df : DataFrame) :
  fst (run net query observed h rng) = Ok df ->
  In "prob" (columns df) /\
  (forall c, In c (columns df) -> c = query \/ c = "prob" \/ c = "index") /\
  (In query (dict_keys observed) -> query <> "prob" -> query <> "index" ->
   ~ In query (columns df)).
Proof.
  intros Hrun. split; [|split].
  - revert Hrun. unfold run. cbv zeta.
    destruct (final_factor_of _ query observed h rng) as [ff|]; [|discriminate].
    destruct (normalize (frame ff)) as [out|] eqn:Hn; [|discriminate].
    cbn [fst]. intros H. injection H as <-.
    destruct (normalize_labels _ _ Hn) as [Hp ->]. exact Hp.
  - revert Hrun. unfold run. cbv zeta.
    destruct (final_factor_of _ query observed h rng) as [ff|] eqn:Hff;
      [|discriminate].
    destruct (normalize (frame ff)) as [out|] eqn:Hn; [|discriminate].
    cbn [fst]. intros H. injection H as <-.
    destruct (normalize_labels _ _ Hn) as [_ ->].
    unfold final_factor_of in Hff.
    destruct (elimination_sequence _ query observed h rng) as [order|];
      cbn [bind] in Hff; [|discriminate].
    destruct (eliminate _ order _) as [factors|]; cbn [bind] in Hff; [|discriminate].
    destruct (multiply_remaining _ None (dict_values factors)) as [[f0|]|];
      cbn [bind] in Hff; try discriminate.
    intros c Hc.
    destruct (remove_extra_labels _ _ _ _ _ Hff c Hc) as [[Hc0 Hnot]|H]; [|tauto].
    unfold extra_vars in Hnot. rewrite filter_In in Hnot.
    destruct (String.eqb c query) eqn:Eq; [apply String.eqb_eq in Eq; tauto|].
    destruct (String.eqb c "prob") eqn:Ep; [apply String.eqb_eq in Ep; tauto|].
    exfalso. apply Hnot. now split.
  - intros Hq Hp Hi. now apply (observed_query_never_returned net query observed h rng).
Qed.

Lemma run_result_labels_witness :
  In "prob" ["B"; "prob"] /\
  (forall c, In c ["B"; "prob"] -> c = "B" \/ c = "prob" \/ c = "index") /\
  (In "B" (dict_keys [("A", yes)]) -> "B" <> "prob" -> "B" <> "index" ->
   ~ In "B" ["B"; "prob"]).
Proof.
  apply (run_result_labels net_AB "B" [("A", yes)] (Named "min-weight") []
           (mkDF ["B"; "prob"] [[yes; pr 9 10]; [no; pr 1 10]])).
  vm_compute. reflexivity.
Defined.

(** ** Normalisation *)

Lemma row_get_row_set (cols : list string) (c : string) (v : cell) :
  forall r : row,
  (exists x, row_get cols c r = Some x) ->
  row_get cols c (row_set cols c v r) = Some v.
Proof.
  induction cols as [|c' cols IH]; intros r [x Hx]; [discriminate|].
  destruct r as [|y r]; [discriminate|]. cbn [row_get row_set] in *.
  destruct (String.eqb c c') eqn:E; cbn [row_get]; rewrite ?E; [reflexivity|].
  apply IH. now exists x.
Qed.

Lemma row_get_row_set_other (cols : list string) (c c' : string) (v : cell) :
  forall r : row,
  c' <> c -> row_get cols c' (row_set cols c v r) = row_get cols c' r.
Proof.
  induction cols as [|c0 cols IH]; intros r Hne; [reflexivity|].
  destruct r as [|y r]; [reflexivity|]. cbn [row_get row_set].
  destruct (String.eqb c c0) eqn:E; cbn [row_get].
  - apply String.eqb_eq in E. subst c0.
    now rewrite (proj2 (String.eqb_neq c' c) Hne).
  - destruct (String.eqb c' c0); [reflexivity | now apply IH].
Qed.

Lemma column_numeric (cols : list string) (rs : list row) :
  Forall (fun r => exists x, row_get cols "prob" r = Some (Num x)) rs ->
  map (fun r => match row_get cols "prob" r with
                | Some x => x
                | None => Num NaN
                end) rs = map (fun r => Num (prob_num cols r)) rs.
Proof.
  intros H. apply map_ext_in. intros r Hr. rewrite Forall_forall in H.
  destruct (H r Hr) as [x Hx]. unfold prob_num. now rewrite Hx.
Qed.

Lemma scaled_rows (cols : list string) (g : num -> num) (rs : list row) :
  Forall (fun r => exists x, row_get cols "prob" r = Some (Num x)) rs ->
  Forall2 (fun r' r =>
             (forall c, c <> "prob" -> row_get cols c r' = row_get cols c r) /\
             row_get cols "prob" r' = Some (Num (g (prob_num cols r))))
          (zip_with (fun r v => row_set cols "prob" v r) rs
                    (map (fun x => Num (g x)) (map (prob_num cols) rs)))
          rs.
Proof.
  induction 1 as [|r rs [x Hx] _ IH]; simpl; constructor; [|exact IH].
  split.
  - intros c Hc. now apply row_get_row_set_other.
  - apply row_get_row_set. now exists (Num x).
Qed.

Lemma normalize_rows (df : DataFrame) :
  In "prob" (columns df) ->
  Forall (fun r => exists x, prob_cell df r = Some (Num x)) (rows df) ->
  exists t out,
    prob_sum df = Ok t /\ normalize df = Ok out /\
    columns out = columns df /\
    Forall2 (fun r' r =>
               (forall c, c <> "prob" ->
                          row_get (columns out) c r' = row_get (columns df) c r) /\
               prob_cell out r' = Some (Num (num_div (prob_num (columns df) r) t)))
            (rows out) (rows df).
Proof.
  intros Hp Hrows. unfold prob_cell in *.
  exists (nansum (map (prob_num (columns df)) (rows df))).
  unfold prob_sum, normalize, column, assign.
  rewrite (proj2 (has_column_In "prob" df) Hp).
  rewrite (column_numeric _ _ Hrows). cbn [bind].
  rewrite mapM_as_num_map. cbn [bind].
  eexists. split; [reflexivity|]. split; [reflexivity|]. cbn [columns rows].
  split; [reflexivity|].
  exact (scaled_rows (columns df)
           (fun x => num_div x (nansum (map (prob_num (columns df)) (rows df))))
           (rows df) Hrows).
Qed.

(** X9.  Step 4 changes nothing but the [prob] column: when the factor that
    reaches it has a number in every [prob] cell, [run] returns a table with
    the same labels and, row by row, the same cells, except that each [prob]
    is the factor's [prob] divided by the sum the factor's [prob] column
    has. *)
Theorem run_divides_by_total (net : Network) (query : string)
  (observed : evidence) (h : heuristic) (rng : tape) (ff : tracked) :
  final_factor_of (simplification observed net) query observed h rng = Ok ff ->
  In "prob" (columns (frame ff)) ->
  Forall (fun r => exists x, prob_cell (frame ff) r = Some (Num x))
         (rows (frame ff)) ->
  exists t df,
    prob_sum (frame ff) = Ok t /\
    fst (run net query observed h rng) = Ok df /\
    columns df = columns (frame ff) /\
    Forall2 (fun r' r =>
               (forall c, c <> "prob" ->
                  row_get (columns df) c r' = row_get (columns (frame ff)) c r) /\
               prob_cell df r' =
               Some (Num (num_div (prob_num (columns (frame ff)) r) t)))
            (rows df) (rows (frame ff)).
Proof.
  intros Hff Hp Hrows.
  destruct (normalize_rows (frame ff) Hp Hrows) as [t [out [Ht [Hn Hout]]]].
  exists t, out. split; [exact Ht|]. split; [|exact Hout].
  unfold run. cbv zeta. now rewrite Hff, Hn.
Qed.

Lemma run_divides_by_total_witness :
  exists t df,
    prob_sum (mkDF ["B"; "prob"] [[yes; pr 27 100]; [no; pr 3 100]]) = Ok t /\
    fst (run net_AB "B" [("A", yes)] (Named "min-weight") []) = Ok df /\
    columns df = ["B"; "prob"] /\
    Forall2 (fun r' r =>
               (forall c, c <> "prob" ->
                  row_get (columns df) c r' = row_get ["B"; "prob"] c r) /\
               prob_cell df r' = Some (Num (num_div (prob_num ["B"; "prob"] r) t)))
            (rows df) [[yes; pr 27 100]; [no; pr 3 100]].
Proof.
  apply (run_divides_by_total net_AB "B" [("A", yes)] (Named "min-weight") []
           (fresh (mkDF ["B"; "prob"] [[yes; pr 27 100]; [no; pr 3 100]]))).
  - vm_compute. reflexivity.
  - simpl. tauto.
  - repeat constructor; eexists; reflexivity.
Defined.

(* ================================================================== *)
(** ** What [run] leaves of the network *)

Lemma reduce_all_keys (var : string) (value : cell) (p : dict DataFrame) :
  dict_keys (reduce_all var value p) = dict_keys p.
Proof.
  unfold dict_keys, reduce_all. rewrite map_map. reflexivity.
Qed.

Lemma simplification_keys (observed : evidence) : forall net : Network,
  dict_keys (probabilities (simplification observed net)) =
  dict_keys (probabilities net).
Proof.
  induction observed as [|[var value] observed IH]; intros net; [reflexivity|].
  simpl. rewrite IH. apply reduce_all_keys.
Qed.

Lemma dict_set_keys_same {V : Type} (k : string) (v : V) (d : dict V) :
  In k (dict_keys d) -> dict_keys (dict_set k v d) = dict_keys d.
Proof.
  unfold dict_keys. induction d as [|[k0 v0] d IH]; simpl; intros H; [destruct H|].
  destruct (String.eqb k k0) eqn:E.
  - apply String.eqb_eq in E. now subst.
  - simpl. f_equal. apply IH. destruct H as [H|H]; [|assumption].
    apply String.eqb_neq in E. congruence.
Qed.

Lemma copy_origins (net : Network) :
  origins_known net (copy_probabilities (probabilities net)).
Proof.
  intros k t key Hin Ho. unfold copy_probabilities in Hin.
  apply in_map_iff in Hin. destruct Hin as [[k0 df] [Heq Hin]].
  injection Heq as <- <-. cbn [origin] in Ho. injection Ho as <-.
  unfold dict_keys. apply in_map_iff. now exists (k0, df).
Qed.

Lemma eliminate_var_origins (net1 net : Network) (var : string)
  (factors factors' : dict tracked) :
  origins_known net factors ->
  eliminate_var net1 var factors = Ok factors' -> origins_known net factors'.
Proof.
  intros Hk. unfold eliminate_var.
  destruct (related_factors var factors) as [|f0 fs].
  - intros H. now injection H as <-.
  - destruct (dict_item f0 factors) as [t0|]; cbn [bind]; [|discriminate].
    destruct (multiply_related net1 factors (frame t0) fs) as [c|];
      cbn [bind]; [|discriminate].
    destruct (sum_out net1 var (Frame c)) as [r|]; cbn [bind]; [|discriminate].
    intros H. injection H as <-. intros k t key Hin Ho.
    apply dict_set_In in Hin. destruct Hin as [Heq|Hin].
    + injection Heq as _ ->. discriminate.
    + apply (delete_all_In (f0 :: fs)) in Hin. exact (Hk k t key Hin Ho).
Qed.

Lemma eliminate_origins (net1 net : Network) (order : list string) :
  forall factors factors' : dict tracked,
  origins_known net factors ->
  eliminate net1 order factors = Ok factors' -> origins_known net factors'.
Proof.
  induction order as [|var order IH]; intros factors factors' Hk; simpl.
  - intros H. now injection H as <-.
  - destruct (eliminate_var net1 var factors) as [f1|] eqn:H1; cbn [bind];
      [|discriminate].
    apply IH. exact (eliminate_var_origins net1 net var factors f1 Hk H1).
Qed.

Lemma multiply_remaining_origin (net1 : Network) (keys : list string)
  (fs : list tracked) : forall (acc : option tracked) (ff : tracked) (key : string),
  Forall (fun t => forall k, origin t = Some k -> In k keys) fs ->
  (forall a k, acc = Some a -> origin a = Some k -> In k keys) ->
  multiply_remaining net1 acc fs = Ok (Some ff) ->
  origin ff = Some key -> In key keys.
Proof.
  induction fs as [|f fs IH]; intros acc ff key Hfs Hacc; simpl.
  - intros H Ho. injection H as ->. exact (Hacc ff key eq_refl Ho).
  - inversion Hfs as [|? ? Hf Hfs']; subst. destruct acc as [a|].
    + destruct (multiplication net1 (Frame (frame a)) (Frame (frame f))) as [m|];
        cbn [bind]; [|discriminate].
      apply IH; [assumption|]. intros a' k Ha'. injection Ha' as <-. discriminate.
    + apply IH; [assumption|]. intros a' k Ha'. injection Ha' as <-. apply Hf.
Qed.

Lemma remove_extra_origin (net1 : Network) (observed : evidence)
  (vars : list string) : forall (ff out : tracked) (key : string),
  remove_extra net1 observed vars ff = Ok out ->
  origin out = Some key -> origin ff = Some key.
Proof.
  induction vars as [|var vars IH]; intros ff out key; simpl.
  - intros H. now injection H as <-.
  - destruct (match dict_get var observed with
              | Some value => _
              | None => _
              end) as [f|]; cbn [bind]; [|discriminate].
    intros Hout Ho. apply (IH _ _ _ Hout) in Ho. discriminate.
Qed.

Lemma final_factor_origin (net1 : Network) (query : string) (observed : evidence)
  (h : heuristic) (rng : tape) (ff : tracked) (key : string) :
  final_factor_of net1 query observed h rng = Ok ff ->
  origin ff = Some key -> In key (dict_keys (probabilities net1)).
Proof.
  unfold final_factor_of.
  destruct (elimination_sequence net1 query observed h rng) as [order|];
    cbn [bind]; [|discriminate].
  destruct (eliminate net1 order _) as [factors|] eqn:He; cbn [bind]; [|discriminate].
  pose proof (eliminate_origins net1 net1 _ _ _ (copy_origins net1) He) as Hk.
  destruct (multiply_remaining net1 None (dict_values factors)) as [[f0|]|] eqn:Hm;
    cbn [bind]; try discriminate.
  intros Hr Ho. apply (remove_extra_origin _ _ _ _ _ _ Hr) in Ho.
  revert Ho. apply (multiply_remaining_origin net1 _ (dict_values factors) None f0);
    [|discriminate|assumption].
  apply Forall_forall. intros t Ht k Hok. unfold dict_values in Ht.
  apply in_map_iff in Ht. destruct Ht as [[k0 t'] [<- Hin]].
  exact (Hk k0 t' k Hin Hok).
Qed.

(** X10.  Whatever [run] returns or raises, it leaves the nodes, the values
    and the parents of the network as they were, and the dictionary of
    tables keeps the same keys in the same order: only the tables themselves
    are replaced. *)
Theorem run_keeps_network_structure (net : Network) (query : string)
  (observed : evidence) (h : heuristic) (rng : tape) :
  nodes (snd (run net query observed h rng)) = nodes net /\
  values (snd (run net query observed h rng)) = values net /\
  parents (snd (run net query observed h rng)) = parents net /\
  dict_keys (probabilities (snd (run net query observed h rng))) =
  dict_keys (probabilities net).
Proof.
  destruct (simplification_nodes observed net) as [Hn [Hp Hv]].
  pose proof (simplification_keys observed net) as Hk.
  unfold run. cbv zeta.
  destruct (final_factor_of (simplification observed net) query observed h rng)
    as [ff|] eqn:Hff; cbn [snd]; [|tauto].
  destruct (normalize (frame ff)) as [df|]; cbn [snd]; [|tauto].
  unfold write_back. destruct (origin ff) as [key|] eqn:Ho; [|tauto].
  cbn [nodes values parents probabilities with_probabilities].
  repeat split; try assumption.
  rewrite dict_set_keys_same; [assumption|].
  exact (final_factor_origin _ _ _ _ _ _ _ Hff Ho).
Qed.

(** ** A network without tables *)

Lemma simplification_no_tables (observed : evidence) : forall net : Network,
  probabilities net = [] -> simplification observed net = net.
Proof.
  induction observed as [|[var value] observed IH]; intros net H; [reflexivity|].
  simpl. rewrite H. simpl. rewrite <- H at 1. rewrite with_probabilities_same.
  now apply IH.
Qed.

Lemma eliminate_nothing (net : Network) (order : list string) :
  eliminate net order [] = Ok [].
Proof.
  induction order as [|var order IH]; [reflexivity|]. simpl. exact IH.
Qed.

(** X11.  On a network whose dictionary of tables is empty, once the
    ordering has been computed, [run] raises [AttributeError] (step 3 reads
    [columns] of [None]) and leaves the network as it was. *)
Theorem run_without_tables (net : Network) (query : string)
  (observed : evidence) (h : heuristic) (rng : tape) (order : list string) :
  probabilities net = [] ->
  elimination_order net h observed rng = Ok order ->
  run net query observed h rng = (Raise AttributeError, net).
Proof.
  intros Hp Ho. unfold run. cbv zeta.
  rewrite (simplification_no_tables observed net Hp).
  unfold final_factor_of, elimination_sequence. rewrite Ho. cbn [bind].
  rewrite Hp. cbn [copy_probabilities map]. rewrite eliminate_nothing.
  reflexivity.
Qed.

Lemma run_without_tables_witness :
  run net_empty "A" [] (Named "random") [] = (Raise AttributeError, net_empty).
Proof.
  apply (run_without_tables net_empty "A" [] (Named "random") [] ["A"]).
  - reflexivity.
  - vm_compute. reflexivity.
Defined.

(* ================================================================== *)
(** ** The order of the evidence *)

Lemma row_select_ext (keep keep' : string -> bool) (cols : list string) :
  (forall c, keep c = keep' c) ->
  forall r : row, row_select keep cols r = row_select keep' cols r.
Proof.
  intros H. induction cols as [|c cols IH]; intros [|x r]; simpl; try reflexivity.
  now rewrite H, IH.
Qed.

Lemma row_select_select (keep1 keep2 : string -> bool) (cols : list string) :
  forall r : row,
  row_select keep2 (filter keep1 cols) (row_select keep1 cols r) =
  row_select (fun c => keep1 c && keep2 c) cols r.
Proof.
  induction cols as [|c cols IH]; intros [|x r]; simpl; try reflexivity.
  - destruct (keep1 c); [reflexivity|]. now destruct (filter keep1 cols).
  - destruct (keep1 c); simpl; [|apply IH].
    destruct (keep2 c); now rewrite IH.
Qed.

Lemma filter_twice {A : Type} (f g : A -> bool) (l : list A) :
  filter g (filter f l) = filter (fun a => f a && g a) l.
Proof.
  induction l as [|a l IH]; simpl; [reflexivity|].
  destruct (f a); simpl; [|assumption]. destruct (g a); now rewrite IH.
Qed.

Lemma filter_of_map {A B : Type} (f : A -> B) (p : B -> bool) (l : list A) :
  filter p (map f l) = map f (filter (fun a => p (f a)) l).
Proof.
  induction l as [|a l IH]; simpl; [reflexivity|].
  destruct (p (f a)); simpl; now rewrite IH.
Qed.

(** Reducing by [v2] and then by [v1], when the frame has both labels. *)
Lemma evidence_reduction_twice (v1 v2 : string) (x1 x2 : cell) (df : DataFrame) :
  v1 <> v2 -> has_column v1 df = true -> has_column v2 df = true ->
  evidence_reduction v1 x1 (evidence_reduction v2 x2 df) =
  mkDF (filter (fun c => negb (mem c [v2]) && negb (mem c [v1])) (columns df))
       (map (row_select (fun c => negb (mem c [v2]) && negb (mem c [v1]))
                        (columns df))
            (filter (fun r =>
                       match row_get (columns df) v2 r with
                       | Some x => cell_eqb x x2
                       | None => false
                       end &&
                       match row_get (columns df) v1 r with
                       | Some x => cell_eqb x x1
                       | None => false
                       end) (rows df))).
Proof.
  intros Hne H1 H2. unfold evidence_reduction at 2. rewrite H2.
  unfold evidence_reduction, drop_columns, select_rows, has_column.
  cbn [columns rows].
  assert (Hk : negb (mem v1 [v2]) = true).
  { rewrite mem_singleton. now apply negb_true_iff, String.eqb_neq. }
  replace (mem v1 (filter (fun c => negb (mem c [v2])) (columns df))) with true.
  2:{ symmetry. apply mem_In, filter_In. split; [now apply has_column_In | exact Hk]. }
  rewrite filter_twice. f_equal.
  rewrite filter_of_map, map_map, filter_twice.
  rewrite (map_ext _ _ (row_select_select _ _ (columns df))).
  f_equal. apply filter_ext. intros r. f_equal.
  now rewrite (row_get_select (fun c => negb (mem c [v2])) v1 (columns df) r Hk).
Qed.

Lemma evidence_reduction_has (v1 v2 : string) (x2 : cell) (df : DataFrame) :
  v1 <> v2 ->
  has_column v1 (evidence_reduction v2 x2 df) = has_column v1 df.
Proof.
  intros Hne. unfold evidence_reduction.
  destruct (has_column v2 df); [|reflexivity].
  unfold has_column, drop_columns, select_rows. cbn [columns].
  destruct (mem v1 (columns df)) eqn:H.
  - apply mem_In, filter_In. split; [now apply mem_In|].
    rewrite mem_singleton. now apply negb_true_iff, String.eqb_neq.
  - apply mem_false. rewrite filter_In. apply mem_false in H. tauto.
Qed.

Lemma evidence_reduction_commutes (v1 v2 : string) (x1 x2 : cell) (df : DataFrame) :
  v1 <> v2 ->
  evidence_reduction v1 x1 (evidence_reduction v2 x2 df) =
  evidence_reduction v2 x2 (evidence_reduction v1 x1 df).
Proof.
  intros Hne.
  destruct (has_column v1 df) eqn:H1, (has_column v2 df) eqn:H2.
  - rewrite (evidence_reduction_twice v1 v2 x1 x2 df Hne H1 H2).
    rewrite (evidence_reduction_twice v2 v1 x2 x1 df (not_eq_sym Hne) H2 H1).
    f_equal.
    + apply filter_ext. intros c. apply andb_comm.
    + rewrite (filter_ext _ _ (fun r => andb_comm _ _)).
      apply map_ext. intros r. apply row_select_ext. intros c. apply andb_comm.
  - unfold evidence_reduction at 2. rewrite H2.
    unfold evidence_reduction at 2.
    now rewrite (evidence_reduction_has v2 v1 x1 df (not_eq_sym Hne)), H2.
  - unfold evidence_reduction at 4. rewrite H1.
    unfold evidence_reduction at 1.
    now rewrite (evidence_reduction_has v1 v2 x2 df Hne), H1.
  - unfold evidence_reduction at 2. rewrite H2.
    unfold evidence_reduction at 3. rewrite H1.
    unfold evidence_reduction. now rewrite H1, H2.
Qed.

Lemma simplification_swap (v1 v2 : string) (x1 x2 : cell) (observed : evidence)
  (net : Network) :
  v1 <> v2 ->
  simplification ((v1, x1) :: (v2, x2) :: observed) net =
  simplification ((v2, x2) :: (v1, x1) :: observed) net.
Proof.
  intros Hne. simpl. f_equal. unfold with_probabilities. cbn [nodes values parents
    probabilities]. f_equal. unfold reduce_all. rewrite !map_map.
  apply map_ext. intros [k df]. cbn [fst snd]. f_equal.
  now apply evidence_reduction_commutes.
Qed.

(** X12.  The tables that [simplification] leaves do not depend on the order
    in which the evidence dictionary lists its variables. *)
Theorem simplification_order_independent (observed observed' : evidence) :
  Permutation observed observed' ->
  NoDup (dict_keys observed) ->
  forall net, labels_distinct net ->
              simplification observed net = simplification observed' net.
Proof.
  induction 1 as [|[v x] l l' Hperm IH|[v1 x1] [v2 x2] l|l l' l'' H1 IH1 H2 IH2];
    intros Hnd net Hnet.
  - reflexivity.
  - simpl. inversion Hnd; subst. apply IH; [assumption|].
    intros key df Hin. rewrite probabilities_with in Hin.
    apply reduce_all_In in Hin. destruct Hin as [df0 [Hin ->]].
    unfold evidence_reduction. destruct (has_column v df0); [|now apply (Hnet key)].
    unfold drop_columns, select_rows. cbn [columns].
    apply NoDup_filter. now apply (Hnet key).
  - apply simplification_swap. simpl in Hnd. inversion Hnd as [|? ? Hin _]; subst.
    intros ->. apply Hin. now left.
  - rewrite IH1 by assumption. apply IH2; [|assumption].
    unfold dict_keys in *. apply (Permutation_NoDup (l := map fst l)); [|assumption].
    now apply Permutation_map.
Qed.

Lemma simplification_order_independent_witness :
  Permutation [("A", yes); ("B", no)] [("B", no); ("A", yes)] /\
  simplification [("A", yes); ("B", no)] net_ABC =
  simplification [("B", no); ("A", yes)] net_ABC.
Proof.
  assert (Hp : Permutation [("A", yes); ("B", no)] [("B", no); ("A", yes)])
    by apply perm_swap.
  split; [exact Hp|].
  apply (simplification_order_independent _ _ Hp).
  - simpl. repeat constructor; simpl; intuition discriminate.
  - sample_labels.
Defined.

(* ================================================================== *)
(** ** The rows of a marginal *)

Lemma row_ext (keys : list string) : forall a b : row,
  NoDup keys ->
  List.length a = List.length keys -> List.length b = List.length keys ->
  (forall c, In c keys -> row_get keys c a = row_get keys c b) -> a = b.
Proof.
  induction keys as [|k keys IH]; intros [|x a] [|y b] Hnd Ha Hb H;
    simpl in *; try discriminate; [reflexivity|].
  inversion Hnd as [|? ? Hk Hnd']; subst.
  pose proof (H k (or_introl eq_refl)) as Hx. rewrite String.eqb_refl in Hx.
  injection Hx as ->. f_equal. apply IH; [assumption | lia | lia |].
  intros c Hc. specialize (H c (or_intror Hc)).
  destruct (String.eqb c k) eqn:E; [|assumption].
  apply String.eqb_eq in E. subst. contradiction.
Qed.

Lemma mapM_of_Forall2 {A B C : Type} (f : A -> result B) (g : C -> B)
  (l : list A) (m : list C) :
  Forall2 (fun a c => f a = Ok (g c)) l m -> mapM f l = Ok (map g m).
Proof.
  induction 1 as [|a c l m Ha _ IH]; simpl; [reflexivity|]. now rewrite Ha, IH.
Qed.

Lemma map_of_Forall2 {A B C : Type} (f : A -> B) (g : C -> B)
  (l : list A) (m : list C) :
  Forall2 (fun a c => f a = g c) l m -> map f l = map g m.
Proof.
  induction 1 as [|a c l m Ha _ IH]; simpl; [reflexivity|]. now rewrite Ha, IH.
Qed.

Lemma combine_map {A B C : Type} (f : A -> B) (g : A -> C) (l : list A) :
  combine (map f l) (map g l) = map (fun a => (f a, g a)) l.
Proof.
  induction l as [|a l IH]; simpl; [reflexivity|]. now rewrite IH.
Qed.

Lemma Forall2_In_l {A B : Type} (R : A -> B -> Prop) (l : list A) (m : list B)
  (a : A) : Forall2 R l m -> In a l -> exists b, In b m /\ R a b.
Proof.
  induction 1 as [|a' b l m HR _ IH]; intros Hin; [destruct Hin|].
  destruct Hin as [->|Hin].
  - exists b. split; [now left | assumption].
  - destruct (IH Hin) as [b' [Hb' HR']]. exists b'. split; [now right | assumption].
Qed.

Lemma filtered_map {A B C : Type} (p : A -> bool) (q : B -> bool)
  (w : A -> C) (u : B -> C) (l : list A) (m : list B) :
  Forall2 (fun a b => p a = q b /\ w a = u b) l m ->
  map w (filter p l) = map u (filter q m).
Proof.
  induction 1 as [|a b l m [Hp Hw] _ IH]; simpl; [reflexivity|].
  rewrite Hp. destruct (q b); simpl; now rewrite ?Hw, IH.
Qed.

Section GroupRows.

Variable F : DataFrame.
Variable keys : list string.
Hypothesis F_factor : factor F.
Hypothesis keys_nonempty : keys <> [].
Hypothesis keys_nodup : NoDup keys.
Hypothesis keys_scope : forall c, In c keys -> In c (scope F).

(** Each row of [F] with its projection on the keys and its probability. *)
Lemma projected_rows :
  exists kqs : list (list cell * Q),
    Forall2 (fun r kq =>
               row_project (columns F) keys r = Ok (fst kq) /\
               List.length (fst kq) = List.length keys /\
               Forall string_cell (fst kq) /\
               (forall c, In c keys ->
                          row_get keys c (fst kq) = row_get (columns F) c r) /\
               prob_cell F r = Some (Num (Fin (snd kq))))
            (rows F) kqs.
Proof.
  destruct F_factor as [_ _ _ Hnum Hval].
  induction (rows F) as [|r rs IH]; [exists []; constructor|].
  inversion Hnum as [|? ? [q Hq] Hnum']; subst.
  inversion Hval as [|? ? Hr Hval']; subst.
  destruct (IH Hnum' Hval') as [kqs Hkqs].
  destruct (row_project_ok (columns F) r string_cell keys) as [k [Hk [Hlen [Hstr Hget]]]].
  { intros c Hc. destruct (Hr c (keys_scope c Hc)) as [s Hs].
    exists (Str s). split; [assumption | now exists s]. }
  exists ((k, q) :: kqs). constructor; [|assumption]. cbn [fst snd]. tauto.
Qed.

Lemma groupby_detail (kqs : list (list cell * Q)) :
  Forall2 (fun r kq =>
             row_project (columns F) keys r = Ok (fst kq) /\
             List.length (fst kq) = List.length keys /\
             Forall string_cell (fst kq) /\
             (forall c, In c keys ->
                        row_get keys c (fst kq) = row_get (columns F) c r) /\
             prob_cell F r = Some (Num (Fin (snd kq))))
          (rows F) kqs ->
  groupby_prob_sum keys F =
  Ok (mkDF (keys ++ ["prob"])
           (map (fun k => k ++ [Num (nansum (map (fun kq => Fin (snd kq))
                                                (filter (fun kq => keys_eqb (fst kq) k)
                                                        kqs)))])
                (sort_keys (distinct keys_eqb (map fst kqs))))).
Proof.
  intros HR. rewrite groupby_nonempty by assumption.
  rewrite (mapM_of_Forall2 (row_project (columns F) keys) fst (rows F) kqs).
  2:{ eapply Forall2_impl; [|exact HR]. intros r kq H. apply H. }
  cbn [bind]. unfold column.
  rewrite (proj2 (has_column_In _ _) (factor_prob F F_factor)).
  rewrite (map_of_Forall2 _ (fun kq => Num (Fin (snd kq))) (rows F) kqs).
  2:{ eapply Forall2_impl; [|exact HR]. intros r kq [_ [_ [_ [_ H]]]].
      unfold prob_cell in H. now rewrite H. }
  cbn [bind]. rewrite (mapM_as_num_map (fun kq => Fin (snd kq))). cbn [bind].
  cbv zeta. rewrite combine_map. rewrite filter_all.
  2:{ intros x Hx. apply in_map_iff in Hx. destruct Hx as [kq [<- Hkq]]. cbn [fst].
      destruct (Forall2_In_r _ _ _ _ HR Hkq) as [r [_ [_ [_ [Hs _]]]]].
      now rewrite string_key_no_nan. }
  rewrite map_map. cbn [fst]. do 2 f_equal.
  apply map_ext. intros k. do 3 f_equal. unfold group_rows.
  rewrite filter_of_map, map_map. reflexivity.
Qed.

End GroupRows.

(** X13.  The marginal of a factor has one row for each assignment of the
    remaining variables that occurs in the factor, no two rows for the same
    assignment, and the [prob] of a row is the sum of the [prob] of the rows
    of the factor that carry that assignment. *)
Theorem sum_out_groups (net : Network) (F : DataFrame) (v : string) (G : DataFrame) :
  factor F -> remaining_vars v F <> [] ->
  sum_out net v (Frame F) = Ok G ->
  rows_distinct G /\
  (forall g, In g (rows G) ->
     group_of (remaining_vars v F) F G g <> [] /\
     exists t, prob_cell G g = Some (Num (Fin t)) /\
               (t == Qsum (map (fun r => qval (prob_num (columns F) r))
                               (group_of (remaining_vars v F) F G g)))%Q) /\
  (forall r, In r (rows F) ->
     exists g, In g (rows G) /\ agree_on (remaining_vars v F) F G r g = true).
Proof.
  intros HF Hne. unfold sum_out. cbn [resolve bind].
  set (keys := remaining_vars v F) in *.
  assert (Hnd : NoDup keys).
  { unfold keys, remaining_vars. apply NoDup_filter. now destruct HF. }
  assert (Hscope : forall c, In c keys -> In c (scope F)).
  { intros c Hc. unfold keys in Hc. rewrite remaining_vars_scope in Hc.
    now apply filter_In in Hc. }
  pose proof (keys_not_prob F keys Hscope) as Hnp.
  destruct (projected_rows F keys HF Hscope) as [kqs HR].
  rewrite (groupby_detail F keys HF Hne kqs HR).
  intros H. injection H as <-.
  set (sum_of := fun k : list cell =>
         nansum (map (fun kq : list cell * Q => Fin (snd kq))
                     (filter (fun kq => keys_eqb (fst kq) k) kqs))).
  set (groups := sort_keys (distinct keys_eqb (map fst kqs))).
  set (G := mkDF (keys ++ ["prob"]) (map (fun k => k ++ [Num (sum_of k)]) groups)).
  assert (Hkq : forall kq, In kq kqs ->
            List.length (fst kq) = List.length keys /\ Forall string_cell (fst kq)).
  { intros kq Hin. destruct (Forall2_In_r _ _ _ _ HR Hin) as [r [_ H]]. tauto. }
  destruct (distinct_spec keys_eqb (map fst kqs)) as [Hdnd Hdin].
  { intros x y Hx _. apply keys_eqb_string. apply in_map_iff in Hx.
    destruct Hx as [kq [<- Hin]]. now apply Hkq. }
  assert (Hgroups : forall k, In k groups <-> In k (map fst kqs)).
  { intros k. rewrite <- Hdin. unfold groups. split; apply Permutation_in;
      [|symmetry]; apply sort_keys_perm. }
  assert (Hgnd : NoDup groups).
  { apply (Permutation_NoDup (l := distinct keys_eqb (map fst kqs)));
      [symmetry; apply sort_keys_perm | exact Hdnd]. }
  assert (Hglen : forall k, In k groups -> List.length k = List.length keys).
  { intros k Hk. apply Hgroups, in_map_iff in Hk. destruct Hk as [kq [<- Hin]].
    now apply Hkq. }
  assert (Hag : forall (r : row) (kq : list cell * Q) (k : list cell) (x : cell),
            List.length (fst kq) = List.length keys -> Forall string_cell (fst kq) ->
            (forall c, In c keys -> row_get keys c (fst kq) = row_get (columns F) c r) ->
            List.length k = List.length keys ->
            agree_on keys F G r (k ++ [x]) = keys_eqb (fst kq) k).
  { intros r kq k x Hl Hs Hget Hk. apply eq_true_iff_eq.
    rewrite (keys_eqb_string (fst kq) k Hs). unfold agree_on.
    rewrite forallb_forall. cbn [columns G]. split.
    - intros H. apply (row_ext keys); try assumption.
      intros c Hc. specialize (H c Hc). apply same_cell_eq in H.
      rewrite row_get_app_left in H by assumption. now rewrite Hget.
    - intros <- c Hc. apply same_cell_eq.
      rewrite row_get_app_left by assumption. symmetry. now apply Hget. }
  split; [|split].
  - unfold rows_distinct. cbn [rows G].
    apply NoDup_map_injective; [|assumption].
    intros a a' _ _ Heq. now apply app_inj_tail in Heq.
  - intros g Hg. cbn [rows G] in Hg. apply in_map_iff in Hg.
    destruct Hg as [k [<- Hk]]. pose proof (Hglen k Hk) as Hklen.
    assert (Hmap : map (fun r => qval (prob_num (columns F) r))
                       (group_of keys F G (k ++ [Num (sum_of k)])) =
                   map snd (filter (fun kq => keys_eqb (fst kq) k) kqs)).
    { unfold group_of. apply filtered_map.
      eapply Forall2_impl; [|exact HR].
      intros r kq [_ [Hl [Hs [Hget Hp]]]]. split.
      - now apply Hag.
      - unfold prob_num. unfold prob_cell in Hp. now rewrite Hp. }
    split.
    + intros Hnil.
      change (group_of keys F G (k ++ [Num (sum_of k)]) = []) in Hnil.
      rewrite Hnil in Hmap. simpl in Hmap.
      apply Hgroups, in_map_iff in Hk. destruct Hk as [kq [Hfst Hin]].
      assert (Hf : In kq (filter (fun kq => keys_eqb (fst kq) k) kqs)).
      { apply filter_In. split; [assumption|].
        apply keys_eqb_string; [now apply Hkq | assumption]. }
      destruct (filter _ kqs); [destruct Hf | discriminate].
    + destruct (nansum_finite
                  (map (fun kq : list cell * Q => Fin (snd kq))
                       (filter (fun kq => keys_eqb (fst kq) k) kqs)))
        as [t [Ht He]].
      { apply Forall_forall. intros x Hx. apply in_map_iff in Hx.
        destruct Hx as [kq [<- _]]. now eexists. }
      exists t. split.
      * unfold prob_cell. cbn [columns G].
        rewrite row_get_app_right by assumption. simpl. unfold sum_of.
        now rewrite Ht.
      * rewrite He.
        change (Qsum (map qval (map (fun kq : list cell * Q => Fin (snd kq))
                                    (filter (fun kq => keys_eqb (fst kq) k) kqs))) ==
                Qsum (map (fun r => qval (prob_num (columns F) r))
                          (group_of keys F G (k ++ [Num (sum_of k)]))))%Q.
        rewrite Hmap, map_map. reflexivity.
  - intros r Hr. destruct (Forall2_In_l _ _ _ _ HR Hr) as [kq [Hin [_ [Hl [Hs [Hget _]]]]]].
    exists (fst kq ++ [Num (sum_of (fst kq))]). split.
    + cbn [rows G]. apply in_map_iff. exists (fst kq). split; [reflexivity|].
      apply Hgroups. now apply in_map.
    + rewrite (Hag r kq (fst kq)) by assumption.
      now apply keys_eqb_string.
Qed.

Lemma sum_out_groups_witness :
  factor cpt_B /\
  exists G, sum_out net_AB "A" (Frame cpt_B) = Ok G /\
    rows_distinct G /\
    (forall g, In g (rows G) ->
       group_of (remaining_vars "A" cpt_B) cpt_B G g <> [] /\
       exists t, prob_cell G g = Some (Num (Fin t)) /\
                 (t == Qsum (map (fun r => qval (prob_num (columns cpt_B) r))
                                 (group_of (remaining_vars "A" cpt_B) cpt_B G g)))%Q) /\
    (forall r, In r (rows cpt_B) ->
       exists g, In g (rows G) /\
                 agree_on (remaining_vars "A" cpt_B) cpt_B G r g = true).
Proof.
  assert (HF : factor cpt_B) by sample_factor.
  split; [exact HF|].
  eexists. split; [vm_compute; reflexivity|].
  apply (sum_out_groups net_AB cpt_B "A" _ HF).
  - vm_compute. discriminate.
  - vm_compute. reflexivity.
Defined.

(* ================================================================== *)
(** ** A product needs the [prob] column on both sides *)

Lemma join_keys_present (A B L R : DataFrame) (keys : list string) :
  join_keys A B = (L, R, keys) ->
  forall k, In k keys -> In k (columns L) /\ In k (columns R).
Proof.
  unfold join_keys. destruct (common_vars A B) as [|k0 ks] eqn:Hcommon; intros H;
    injection H as <- <- <-; intros k Hk.
  - destruct Hk as [<-|[]]. unfold assign_const.
    split; apply assign_columns; now right.
  - rewrite <- Hcommon in Hk. apply common_vars_In in Hk. tauto.
Qed.

(** X14.  For two frames with distinct labels whose shared labels hold
    strings: when one of them has no [prob] column, the join leaves no
    [prob_x] column behind and the product stops with the key error for that
    label. *)
Theorem multiplication_needs_prob (net : Network) (A B : DataFrame) :
  NoDup (columns A) -> NoDup (columns B) -> string_keys A B ->
  ~ In "prob" (columns A) \/ ~ In "prob" (columns B) ->
  ~ In "prob_x" (columns A) -> ~ In "prob_x" (columns B) ->
  multiplication net (Frame A) (Frame B) = Raise (KeyError "prob_x").
Proof.
  intros _ _ _ Hprob HxA HxB. unfold multiplication. cbn [resolve bind].
  destruct (join_keys A B) as [[L R] keys] eqn:Hjk.
  destruct (join_keys_labels _ _ _ _ _ Hjk) as [HL [HR Hov]].
  pose proof (join_keys_present _ _ _ _ _ Hjk) as Hkeys.
  destruct (merge L R keys) as [M|e] eqn:Hm; cbn [bind].
  - unfold product_column, column.
    assert (Hno : has_column "prob_x" M = false).
    { apply mem_false. intros Hin.
      destruct (merge_labels _ _ _ _ Hm _ Hin) as [H|[H|[c' [Hc' Heq]]]].
      - destruct (HL _ H) as [H'|H']; [contradiction|discriminate].
      - destruct (HR _ H) as [H'|H']; [contradiction|discriminate].
      - pose proof (Hov _ Hc') as ->. apply overlapping_inv in Hc'.
        destruct Hc' as [_ [H1 H2]].
        destruct (HL _ H1) as [H1'|H1']; [|discriminate].
        destruct (HR _ H2) as [H2'|H2']; [|discriminate].
        tauto. }
    now rewrite Hno.
  - unfold merge in Hm.
    rewrite !first_missing_none in Hm by (intros k Hk; now apply Hkeys).
    discriminate.
Qed.

Lemma multiplication_needs_prob_witness :
  multiplication net_A (Frame (mkDF ["A"] [[yes]; [no]])) (Frame cpt_A) =
  Raise (KeyError "prob_x").
Proof.
  apply multiplication_needs_prob.
  - repeat constructor; simpl; tauto.
  - repeat constructor; simpl; intuition discriminate.
  - intros c Hc. vm_compute in Hc. destruct Hc as [<-|[]].
    split; repeat constructor; eexists; reflexivity.
  - left. simpl. intros [H|[]]. discriminate.
  - simpl. intros [H|[]]. discriminate.
  - simpl. intros [H|[H|[]]]; discriminate.
Defined.

(* ================================================================== *)
(** ** The product does not depend on the order of its arguments *)

Lemma num_mul_comm (a b : num) : num_mul a b = num_mul b a.
Proof.
  destruct a as [x| | |], b as [y| | |]; cbn [num_mul]; try reflexivity.
  f_equal. apply Qred_complete. ring.
Qed.

Lemma list_prod_nil_r {A B : Type} (l : list A) : list_prod l (@nil B) = [].
Proof. induction l as [|a l IH]; simpl; [reflexivity | exact IH]. Qed.

Lemma list_prod_cons_r {A B : Type} (l : list A) (b : B) (m : list B) :
  Permutation (list_prod l (b :: m))
              (map (fun a => (a, b)) l ++ list_prod l m).
Proof.
  induction l as [|a l IH]; simpl; [constructor|].
  apply perm_skip. rewrite IH. apply Permutation_app_swap_app.
Qed.

Lemma list_prod_swap {A B : Type} (l : list A) (m : list B) :
  Permutation (list_prod m l)
              (map (fun p => (snd p, fst p)) (list_prod l m)).
Proof.
  induction l as [|a l IH]; simpl.
  - now rewrite list_prod_nil_r.
  - rewrite list_prod_cons_r, map_app, map_map. simpl.
    apply Permutation_app_head. exact IH.
Qed.

Lemma filter_permutation {A : Type} (f : A -> bool) (l m : list A) :
  Permutation l m -> Permutation (filter f l) (filter f m).
Proof.
  induction 1 as [|x l m _ IH|x y l|l m n _ IH1 _ IH2]; simpl.
  - constructor.
  - destruct (f x); [now apply perm_skip | assumption].
  - destruct (f x), (f y); try reflexivity. apply perm_swap.
  - now transitivity (filter f m).
Qed.

Lemma Forall2_permutation_r {A B : Type} (R : A -> B -> Prop)
  (l : list A) (m m' : list B) :
  Forall2 R l m -> Permutation m m' ->
  exists l', Permutation l l' /\ Forall2 R l' m'.
Proof.
  intros HF HP. revert l HF.
  induction HP as [|x m m' _ IH|x y m|m m' m'' _ IH1 _ IH2]; intros l HF.
  - exists l. split; [reflexivity | assumption].
  - inversion HF as [|a b l0 m0 Hab HF0]; subst.
    destruct (IH l0 HF0) as [l' [Hp Hf]].
    exists (a :: l'). split; [now apply perm_skip | now constructor].
  - inversion HF as [|a b l0 m0 Hab HF0]; subst.
    inversion HF0 as [|a' b' l1 m1 Hab' HF1]; subst.
    exists (a' :: a :: l1). split; [apply perm_swap | now repeat constructor].
  - destruct (IH1 l HF) as [l' [Hp Hf]].
    destruct (IH2 l' Hf) as [l'' [Hp' Hf']].
    exists l''. split; [now transitivity l' | assumption].
Qed.

Lemma Forall2_common {A B C : Type} (R : A -> C -> Prop) (S : B -> C -> Prop)
  (l : list A) (m : list B) (n : list C) :
  Forall2 R l n -> Forall2 S m n ->
  Forall2 (fun a b => exists c, R a c /\ S b c) l m.
Proof.
  intros HR. revert m. induction HR as [|a c l n Hac HR IH]; intros m HS;
    inversion HS; subst; constructor.
  - now exists c.
  - now apply IH.
Qed.

Lemma agree_sym (A B : DataFrame) (a b : row) : agree A B a b = agree B A b a.
Proof.
  unfold agree. apply eq_true_iff_eq. rewrite !forallb_forall.
  split; intros H c Hc; apply same_cell_eq; symmetry; apply same_cell_eq, H;
    apply common_scope_In, common_vars_In;
    apply common_scope_In, common_vars_In in Hc; tauto.
Qed.

Lemma equi_join_pairs_swap (A B : DataFrame) :
  Permutation (equi_join_pairs B A)
              (map (fun p => (snd p, fst p)) (equi_join_pairs A B)).
Proof.
  unfold equi_join_pairs.
  rewrite (filter_permutation _ _ _ (list_prod_swap (rows A) (rows B))).
  rewrite filter_of_map. cbn [fst snd].
  erewrite filter_ext; [reflexivity|].
  intros [a b]. cbn [fst snd]. apply agree_sym.
Qed.

Lemma product_of_factors (net : Network) (A B M : DataFrame) :
  factor A -> factor B -> avoids_reserved A -> avoids_reserved B ->
  multiplication net (Frame A) (Frame B) = Ok M -> is_product A B M.
Proof.
  intros HA HB RA RB HM.
  destruct (common_vars A B) as [|k ks] eqn:Hc.
  - destruct (multiplication_disjoint net A B HA HB RA RB Hc) as [M' [HM' Hp]].
    congruence.
  - destruct (multiplication_shared net A B HA HB RA RB) as [M' [HM' Hp]];
      congruence.
Qed.

Lemma product_columns (A B M : DataFrame) (c : string) :
  is_product A B M ->
  In c (columns M) <-> In c (scope A) \/ In c (scope B) \/ c = "prob".
Proof.
  intros [_ [Hs [Hp _]]]. rewrite <- or_assoc, <- Hs, scope_In.
  destruct (string_dec c "prob") as [->|Hne]; tauto.
Qed.

Lemma joined_rows_same (A B M1 M2 : DataFrame) (m1 m2 a b : row) :
  is_product A B M1 ->
  joined_row A B M1 m1 (a, b) -> joined_row B A M2 m2 (b, a) ->
  same_row M1 M2 m1 m2.
Proof.
  intros HM1 [_ [HA1 [HB1 [x [y [Hx [Hy Hxy]]]]]]]
         [_ [HB2 [HA2 [y' [x' [Hy' [Hx' Hyx]]]]]]] c Hc.
  cbn [fst snd] in *.
  apply (product_columns A B M1 c HM1) in Hc. destruct Hc as [Hc|[Hc| ->]].
  - now rewrite HA1, HA2.
  - now rewrite HB1, HB2.
  - unfold prob_cell in *. rewrite Hxy, Hyx. rewrite Hx in Hx'. rewrite Hy in Hy'.
    injection Hx' as <-. injection Hy' as <-. now rewrite num_mul_comm.
Qed.

(** X15.  Multiplying two factors in either order gives the same table up to
    the order of the columns and of the rows: the same labels, and the rows
    of one result are, after a rearrangement, cell by cell the rows of the
    other. *)
Theorem multiplication_commutes (net : Network) (A B M1 M2 : DataFrame) :
  factor A -> factor B -> avoids_reserved A -> avoids_reserved B ->
  multiplication net (Frame A) (Frame B) = Ok M1 ->
  multiplication net (Frame B) (Frame A) = Ok M2 ->
  (forall c, In c (columns M1) <-> In c (columns M2)) /\
  exists rs, Permutation (rows M2) rs /\ Forall2 (same_row M1 M2) (rows M1) rs.
Proof.
  intros HA HB RA RB H1 H2.
  pose proof (product_of_factors net A B M1 HA HB RA RB H1) as P1.
  pose proof (product_of_factors net B A M2 HB HA RB RA H2) as P2.
  split.
  - intros c. rewrite (product_columns A B M1 c P1), (product_columns B A M2 c P2).
    tauto.
  - pose proof P1 as [_ [_ [_ [_ F1]]]]. pose proof P2 as [_ [_ [_ [_ F2]]]].
    destruct (Forall2_permutation_r _ _ _ _ F2 (equi_join_pairs_swap A B))
      as [rs [Hperm Hrs]].
    exists rs. split; [assumption|].
    pose proof (proj1 (Forall2_map_r (joined_row B A M2)
                         (fun p : row * row => (snd p, fst p)) rs
                         (equi_join_pairs A B)) Hrs) as Hrs'.
    pose proof (Forall2_common _ _ _ _ _ F1 Hrs') as Hboth.
    eapply Forall2_impl; [|exact Hboth].
    intros m1 m2 [[a b] [J1 J2]]. cbn [fst snd] in J2.
    now apply (joined_rows_same A B M1 M2 m1 m2 a b).
Qed.

Lemma multiplication_commutes_witness :
  factor cpt_A /\ factor cpt_B /\
  exists M1 M2,
    multiplication net_AB (Frame cpt_A) (Frame cpt_B) = Ok M1 /\
    multiplication net_AB (Frame cpt_B) (Frame cpt_A) = Ok M2 /\
    (forall c, In c (columns M1) <-> In c (columns M2)) /\
    exists rs, Permutation (rows M2) rs /\ Forall2 (same_row M1 M2) (rows M1) rs.
Proof.
  assert (HA : factor cpt_A) by sample_factor.
  assert (HB : factor cpt_B) by sample_factor.
  split; [exact HA|]. split; [exact HB|].
  eexists. eexists.
  split; [vm_compute; reflexivity|]. split; [vm_compute; reflexivity|].
  apply (multiplication_commutes net_AB cpt_A cpt_B _ _ HA HB).
  - intros c Hc. simpl in *. intuition (subst; discriminate).
  - intros c Hc. simpl in *. intuition (subst; discriminate).
  - vm_compute. reflexivity.
  - vm_compute. reflexivity.
Defined.

(* ================================================================== *)
(** ** Names the network does not have *)

Lemma run_from_order (net : Network) (query : string) (observed : evidence)
  (h : heuristic) (rng : tape) :
  run net query observed h rng =
  run_from net query observed
           (elimination_order (simplification observed net) h observed rng).
Proof.
  unfold run, run_from, final_factor_of, final_factor_from, elimination_sequence.
  cbv zeta.
  destruct (elimination_order (simplification observed net) h observed rng);
    reflexivity.
Qed.

Lemma unknown_simplification (v : string) (observed : evidence) (net : Network) :
  unknown net v -> unknown (simplification observed net) v.
Proof.
  intros [Hn [Ht [Hp Hi]]]. split; [|split; [|split]]; try assumption.
  - now destruct (simplification_nodes observed net) as [-> _].
  - now apply absent_simplification.
Qed.

Lemma run_labels (net : Network) (query : string) (observed : evidence)
  (h : heuristic) (rng : tape) (df : DataFrame) :
  fst (run net query observed h rng) = Ok df ->
  forall c, In c (columns df) -> c = query \/ c = "prob" \/ c = "index".
Proof.
  unfold run. cbv zeta.
  destruct (final_factor_of _ query observed h rng) as [ff|] eqn:Hff;
    [|discriminate].
  destruct (normalize (frame ff)) as [out|] eqn:Hn; [|discriminate].
  cbn [fst]. intros H. injection H as <-.
  destruct (normalize_labels _ _ Hn) as [_ ->].
  unfold final_factor_of in Hff.
  destruct (elimination_sequence _ query observed h rng) as [order|];
    cbn [bind] in Hff; [|discriminate].
  destruct (eliminate _ order _) as [factors|]; cbn [bind] in Hff; [|discriminate].
  destruct (multiply_remaining _ None (dict_values factors)) as [[f0|]|];
    cbn [bind] in Hff; try discriminate.
  intros c Hc.
  destruct (remove_extra_labels _ _ _ _ _ Hff c Hc) as [[Hc0 Hnot]|H]; [|tauto].
  unfold extra_vars in Hnot. rewrite filter_In in Hnot.
  destruct (String.eqb c query) eqn:Eq; [apply String.eqb_eq in Eq; tauto|].
  destruct (String.eqb c "prob") eqn:Ep; [apply String.eqb_eq in Ep; tauto|].
  exfalso. apply Hnot. now split.
Qed.

Lemma unknown_query_absent (net : Network) (query : string) (observed : evidence)
  (h : heuristic) (rng : tape) (df : DataFrame) :
  unknown net query ->
  fst (run net query observed h rng) = Ok df -> ~ In query (columns df).
Proof.
  intros Hq. destruct (unknown_simplification query observed net Hq)
    as [_ [Ht [Hp Hi]]].
  unfold run. cbv zeta.
  destruct (final_factor_of _ query observed h rng) as [ff|] eqn:Hff;
    [|discriminate].
  destruct (normalize (frame ff)) as [out|] eqn:Hn; [|discriminate].
  cbn [fst]. intros H. injection H as <-.
  destruct (normalize_labels _ _ Hn) as [_ ->].
  exact (final_factor_absent query Hp Hi _ _ _ _ _ _ Ht Hff).
Qed.

(** C5, amended.  Names the network does not have are not rejected.

    An evidence entry on a name [v] the network does not have is ignored:
    [simplification] leaves the same tables, the same variables remain to be
    ordered, and whatever [elimination_order] then returns or raises, the
    rest of the call returns or raises exactly what it does without the
    entry and leaves the network in the same state.  ([run] is [run_from] at
    the outcome of [elimination_order]; the theorem does not assume that two
    calls with different evidence iterate their sets in the same order.)

    A query [q] the network does not have is not rejected either: a table
    that [run] returns for it has no label other than [prob] and [index]. *)
Theorem run_validates_nothing (net : Network) (v q : string) :
  unknown net v -> unknown net q ->
  (forall query observed h rng,
     run net query observed h rng =
     run_from net query observed
              (elimination_order (simplification observed net) h observed rng)) /\
  (forall query obs1 obs2 x,
     simplification (obs1 ++ (v, x) :: obs2) net =
     simplification (obs1 ++ obs2) net /\
     (forall n, In n (nodes net) ->
        (In n (dict_keys (obs1 ++ (v, x) :: obs2)) <->
         In n (dict_keys (obs1 ++ obs2)))) /\
     (forall order,
        run_from net query (obs1 ++ (v, x) :: obs2) order =
        run_from net query (obs1 ++ obs2) order)) /\
  (forall observed h rng df,
     fst (run net q observed h rng) = Ok df ->
     forall c, In c (columns df) -> c = "prob" \/ c = "index").
Proof.
  intros [Hvn [Hvt [Hvp Hvi]]] Hq. split; [|split].
  - intros. apply run_from_order.
  - intros query obs1 obs2 x. split; [|split].
    + now apply simplification_skip.
    + intros n Hn. unfold dict_keys. rewrite !map_app, !in_app_iff. simpl.
      split; [|tauto]. intros [H|[H|H]]; try tauto. subst n. contradiction.
    + intros order. unfold run_from. cbv zeta.
      rewrite simplification_skip by assumption.
      rewrite (final_factor_from_skip v Hvp Hvi); [reflexivity|].
      now apply absent_simplification.
  - intros observed h rng df Hrun c Hc.
    destruct (run_labels net q observed h rng df Hrun c Hc) as [->|H];
      [|assumption].
    exfalso. exact (unknown_query_absent net q observed h rng df Hq Hrun Hc).
Qed.

Lemma run_validates_nothing_witness :
  unknown net_AB "Burglary" /\ unknown net_AB "Z" /\
  (forall order,
     run_from net_AB "B" ([("A", yes)] ++ ("Burglary", yes) :: []) order =
     run_from net_AB "B" ([("A", yes)] ++ []) order) /\
  (forall df,
     fst (run net_AB "Z" [("A", yes); ("B", yes)] (Named "min-weight") []) = Ok df ->
     forall c, In c (columns df) -> c = "prob" \/ c = "index").
Proof.
  assert (H : forall name, name <> "A" -> name <> "B" -> name <> "prob" ->
                           name <> "index" -> unknown net_AB name).
  { intros name HA HB Hp Hi. split; [|split; [|split]]; try assumption.
    - simpl. intuition congruence.
    - intros key df [E|[E|[]]]; injection E as <- <-; simpl; intuition congruence. }
  assert (Hv : unknown net_AB "Burglary") by (apply H; discriminate).
  assert (Hq : unknown net_AB "Z") by (apply H; discriminate).
  split; [exact Hv|]. split; [exact Hq|].
  destruct (run_validates_nothing net_AB "Burglary" "Z" Hv Hq) as [_ [He Hz]].
  split.
  - intros order. apply (He "B" [("A", yes)] [] yes).
  - intros df. apply Hz.
Defined.

(* ================================================================== *)
(** ** The total of a marginal *)

Lemma nansum_regrouped (l : list num) : Forall finite l -> regrouped l (nansum l).
Proof.
  induction 1 as [|x l [q ->] _ IH]; cbn [nansum is_nan]; [constructor|].
  apply (regrouped_add [Fin q] l); [constructor | exact IH].
Qed.

Lemma concat_permutation {A : Type} (l m : list (list A)) :
  Permutation l m -> Permutation (List.concat l) (List.concat m).
Proof.
  induction 1 as [|x l m _ IH|x y l|l m n _ IH1 _ IH2]; simpl.
  - constructor.
  - now apply Permutation_app_head.
  - rewrite !app_assoc. apply Permutation_app_tail, Permutation_app_comm.
  - now transitivity (List.concat m).
Qed.

Lemma regrouped_concat (ps : list num) (t : num) :
  regrouped ps t ->
  forall ls, Forall2 regrouped ls ps -> regrouped (List.concat ls) t.
Proof.
  induction 1 as [|x|l m a b _ IHl _ IHm|l m a Hperm _ IH]; intros ls Hls.
  - inversion Hls; subst. constructor.
  - inversion Hls as [|l0 ? ls0 ? Hl0 Hrest]; subst. inversion Hrest; subst.
    simpl. now rewrite app_nil_r.
  - apply Forall2_app_inv_r in Hls. destruct Hls as [l1 [l2 [H1 [H2 ->]]]].
    rewrite concat_app. apply regrouped_add; [now apply IHl | now apply IHm].
  - destruct (Forall2_permutation_r _ _ _ _ Hls (Permutation_sym Hperm))
      as [ls' [Hp Hls']].
    apply (regrouped_perm (List.concat ls')).
    + apply concat_permutation. now symmetry.
    + now apply IH.
Qed.

Lemma Qsum_permutation (l m : list Q) : Permutation l m -> (Qsum l == Qsum m)%Q.
Proof.
  induction 1 as [|x l m _ IH|x y l|l m n _ IH1 _ IH2]; simpl.
  - reflexivity.
  - now rewrite IH.
  - ring.
  - now rewrite IH1.
Qed.

(** In exact arithmetic every regrouping of finite numbers gives their
    sum. *)
Lemma regrouped_exact (l : list num) (t : num) :
  regrouped l t -> Forall finite l ->
  exists q, t = Fin q /\ (q == Qsum (map qval l))%Q.
Proof.
  induction 1 as [|x|l m a b _ IHl _ IHm|l m a Hperm _ IH]; intros Hfin.
  - exists 0%Q. split; reflexivity.
  - inversion Hfin as [|? ? [q ->] _]; subst. exists q. split; [reflexivity|].
    simpl. ring.
  - apply Forall_app in Hfin. destruct Hfin as [Hl Hm].
    destruct (IHl Hl) as [qa [-> Ha]]. destruct (IHm Hm) as [qb [-> Hb]].
    exists (Qred (qa + qb)). split; [reflexivity|].
    assert (Hred : (Qred (qa + qb) == qa + qb)%Q) by apply Qred_correct.
    rewrite Hred, Ha, Hb, map_app. clear.
    induction (map qval l) as [|x xs IHx]; simpl; [ring|]. rewrite <- IHx. ring.
  - destruct IH as [q [-> Hq]].
    + rewrite Forall_forall in *. intros x Hx. apply Hfin.
      now apply (Permutation_in x Hperm).
    + exists q. split; [reflexivity|]. rewrite Hq.
      apply Qsum_permutation. now apply Permutation_map.
Qed.

Lemma flat_map_nothing {A B : Type} (l : list A) :
  flat_map (fun _ : A => @nil B) l = [].
Proof. induction l as [|a l IH]; simpl; [reflexivity | exact IH]. Qed.

Lemma flat_map_same {A B : Type} (f g : A -> list B) (l : list A) :
  (forall a, In a l -> f a = g a) -> flat_map f l = flat_map g l.
Proof.
  induction l as [|a l IH]; intros H; simpl; [reflexivity|].
  rewrite (H a) by now left. f_equal. apply IH. intros a' Ha'. apply H. now right.
Qed.

(** The groups of the keys [D] split the keyed rows: every row is in the
    group of its key and in no other. *)
Lemma groups_partition {A : Type} (D : list (list cell)) (Hnd : NoDup D) :
  forall kqs : list (list cell * A),
  (forall kq, In kq kqs -> In (fst kq) D) ->
  (forall kq k, In kq kqs -> (keys_eqb (fst kq) k = true <-> fst kq = k)) ->
  Permutation (flat_map (fun k => filter (fun kq => keys_eqb (fst kq) k) kqs) D)
              kqs.
Proof.
  induction kqs as [|kq kqs IH]; intros Hin Heq.
  - simpl. now rewrite flat_map_nothing.
  - assert (IH' : Permutation
      (flat_map (fun k => filter (fun kq => keys_eqb (fst kq) k) kqs) D) kqs).
    { apply IH; intros; [apply Hin | apply Heq]; now right. }
    pose proof (Hin kq (or_introl eq_refl)) as Hk.
    apply in_split in Hk. destruct Hk as [D1 [D2 ->]].
    apply NoDup_remove_2 in Hnd.
    assert (Hother : forall Dx, (forall k, In k Dx -> In k (D1 ++ D2)) ->
      flat_map (fun k => filter (fun kq0 => keys_eqb (fst kq0) k) (kq :: kqs)) Dx =
      flat_map (fun k => filter (fun kq0 => keys_eqb (fst kq0) k) kqs) Dx).
    { intros Dx HDx. apply flat_map_same. intros k Hkx. simpl.
      destruct (keys_eqb (fst kq) k) eqn:E; [|reflexivity].
      apply (Heq kq k (or_introl eq_refl)) in E. subst k.
      exfalso. apply Hnd. now apply HDx. }
    rewrite flat_map_app in *. simpl in *.
    rewrite (Hother D1) by (intros k Hk; apply in_or_app; now left).
    rewrite (Hother D2) by (intros k Hk; apply in_or_app; now right).
    rewrite (proj2 (Heq kq (fst kq) (or_introl eq_refl)) eq_refl).
    simpl. rewrite <- Permutation_middle. now apply perm_skip.
Qed.

Lemma concat_map_map {A B C : Type} (f : B -> C) (g : A -> list B) (l : list A) :
  List.concat (map (fun a => map f (g a)) l) = map f (flat_map g l).
Proof.
  induction l as [|a l IH]; simpl; [reflexivity|]. now rewrite map_app, IH.
Qed.

Lemma prob_num_last (keys : list string) (k : list cell) (x : num) :
  List.length k = List.length keys -> ~ In "prob" keys ->
  prob_num (keys ++ ["prob"]) (k ++ [Num x]) = x.
Proof.
  intros Hl Hp. unfold prob_num. now rewrite row_get_app_right.
Qed.

(** One step: the marginal is again a factor, over the remaining variables,
    without repeated rows, and each of its [prob] values is a sum of [prob]
    values of [F], every value of [F] being used once. *)
Lemma sum_out_regrouped (net : Network) (F : DataFrame) (v : string) :
  factor F -> remaining_vars v F <> [] ->
  exists G, sum_out net v (Frame F) = Ok G /\
            factor G /\ rows_distinct G /\ scope G = remaining_vars v F /\
            exists ls, Forall2 regrouped ls (probs G) /\
                       Permutation (List.concat ls) (probs F).
Proof.
  intros HF Hne.
  destruct (sum_out_factor net F v HF Hne) as [G [HG [HfG [Hs _]]]].
  exists G. split; [exact HG|]. split; [exact HfG|].
  revert HG Hs. unfold sum_out. cbn [resolve bind].
  set (keys := remaining_vars v F) in *.
  assert (Hscope : forall c, In c keys -> In c (scope F)).
  { intros c Hc. unfold keys in Hc. rewrite remaining_vars_scope in Hc.
    now apply filter_In in Hc. }
  pose proof (keys_not_prob F keys Hscope) as Hnp.
  destruct (projected_rows F keys HF Hscope) as [kqs HR].
  rewrite (groupby_detail F keys HF Hne kqs HR).
  intros H Hs. injection H as <-.
  set (group := fun k : list cell =>
         map (fun kq : list cell * Q => Fin (snd kq))
             (filter (fun kq => keys_eqb (fst kq) k) kqs)).
  set (groups := sort_keys (distinct keys_eqb (map fst kqs))).
  assert (Hkq : forall kq, In kq kqs ->
            List.length (fst kq) = List.length keys /\ Forall string_cell (fst kq)).
  { intros kq Hin. destruct (Forall2_In_r _ _ _ _ HR Hin) as [r [_ H]]. tauto. }
  destruct (distinct_spec keys_eqb (map fst kqs)) as [Hdnd Hdin].
  { intros x y Hx _. apply keys_eqb_string. apply in_map_iff in Hx.
    destruct Hx as [kq [<- Hin]]. now apply Hkq. }
  assert (Hgroups : forall k, In k groups <-> In k (map fst kqs)).
  { intros k. rewrite <- Hdin. unfold groups. split; apply Permutation_in;
      [|symmetry]; apply sort_keys_perm. }
  assert (Hgnd : NoDup groups).
  { apply (Permutation_NoDup (l := distinct keys_eqb (map fst kqs)));
      [symmetry; apply sort_keys_perm | exact Hdnd]. }
  assert (HprobsG :
    probs (mkDF (keys ++ ["prob"])
                (map (fun k => k ++ [Num (nansum (group k))]) groups)) =
    map (fun k => nansum (group k)) groups).
  { unfold probs. cbn [columns rows]. rewrite map_map. apply map_ext_in.
    intros k Hk. apply prob_num_last; [|assumption].
    apply Hgroups, in_map_iff in Hk. destruct Hk as [kq [<- Hin]]. now apply Hkq. }
  assert (HprobsF : probs F = map (fun kq : list cell * Q => Fin (snd kq)) kqs).
  { unfold probs. apply map_of_Forall2. eapply Forall2_impl; [|exact HR].
    intros r kq [_ [_ [_ [_ Hp]]]]. unfold prob_num. unfold prob_cell in Hp.
    now rewrite Hp. }
  split; [|split; [exact Hs|]].
  - unfold rows_distinct. cbn [rows].
    apply NoDup_map_injective; [|assumption].
    intros a a' _ _ Heq. now apply app_inj_tail in Heq.
  - exists (map group groups). split.
    + change (Forall2 regrouped (map group groups)
                (probs (mkDF (keys ++ ["prob"])
                   (map (fun k => k ++ [Num (nansum (group k))]) groups)))).
      rewrite HprobsG.
      assert (Hall : forall l : list (list cell),
                Forall2 regrouped (map group l)
                        (map (fun k => nansum (group k)) l)).
      { induction l as [|k l IHl]; simpl; constructor; [|exact IHl].
        apply nansum_regrouped. apply Forall_forall. intros x Hx.
        apply in_map_iff in Hx. destruct Hx as [kq [<- _]]. now eexists. }
      apply Hall.
    + rewrite HprobsF. unfold group. rewrite concat_map_map.
      apply Permutation_map. apply groups_partition; [assumption| |].
      * intros kq Hin. apply Hgroups. now apply in_map.
      * intros kq k Hin. apply keys_eqb_string. now apply Hkq.
Qed.

Lemma prob_sum_regrouped (G : DataFrame) :
  factor G -> exists t, prob_sum G = Ok t /\ regrouped (probs G) t.
Proof.
  intros HG. exists (nansum (probs G)). split.
  - unfold prob_sum, column, probs.
    rewrite (proj2 (has_column_In "prob" G)) by now destruct HG.
    rewrite (column_numeric _ _ (factor_numeric_any G HG)). cbn [bind].
    now rewrite mapM_as_num_map.
  - apply nansum_regrouped. destruct HG as [_ _ _ Hnum _].
    unfold probs. apply Forall_forall. intros x Hx. apply in_map_iff in Hx.
    destruct Hx as [r [<- Hr]]. rewrite Forall_forall in Hnum.
    destruct (Hnum r Hr) as [q Hq]. exists q. unfold prob_num.
    unfold prob_cell in Hq. now rewrite Hq.
Qed.

Lemma sum_out_all_regrouped (net : Network) (w : string) (vs : list string) :
  forall F : DataFrame,
  factor F -> rows_distinct F -> In w (scope F) -> ~ In w vs ->
  exists G, sum_out_all net vs F = Ok G /\
            factor G /\ rows_distinct G /\
            scope G = filter (fun c => negb (mem c vs)) (scope F) /\
            exists t, prob_sum G = Ok t /\ regrouped (probs F) t.
Proof.
  induction vs as [|v vs IH]; intros F HF Hd Hw Hwvs.
  - exists F. split; [reflexivity|]. split; [assumption|]. split; [assumption|].
    split; [symmetry; now apply filter_all | now apply prob_sum_regrouped].
  - assert (Hwv : w <> v) by (intros ->; apply Hwvs; now left).
    assert (Hw1 : In w (remaining_vars v F)).
    { rewrite remaining_vars_scope. apply filter_In. split; [assumption|].
      now apply negb_true_iff, String.eqb_neq. }
    destruct (sum_out_regrouped net F v HF)
      as [F1 [H1 [HF1 [Hd1 [Hs1 [ls [Hls Hperm]]]]]]].
    { intros Hnil. rewrite Hnil in Hw1. destruct Hw1. }
    destruct (IH F1 HF1 Hd1) as [G [HG [HFG [HdG [HsG [t [Ht Hreg]]]]]]].
    { now rewrite Hs1. }
    { intros H. apply Hwvs. now right. }
    exists G. simpl. rewrite H1. cbn [bind]. split; [assumption|].
    split; [assumption|]. split; [assumption|]. split.
    + rewrite HsG, Hs1, remaining_vars_scope. apply filter_remove_mem.
    + exists t. split; [assumption|].
      apply (regrouped_perm (List.concat ls)); [assumption|].
      now apply (regrouped_concat (probs F1)).
Qed.

(** C9, the claim fails.  [cpt_R] is a factor over [B] and [A] without
    repeated rows; summing out [A] leaves the single variable [B].  With the
    [prob] column in binary64 the four values add up to 2, the two group
    sums (1.2999999999999998 and 0.7) to the float just below 2,
    1.9999999999999998: the total is not preserved. *)
Lemma total_rounds_in_binary64 :
  factor cpt_R /\ rows_distinct cpt_R /\
  In "A" (scope cpt_R) /\ In "B" (scope cpt_R) /\
  sum_out net_AB "A" (Frame cpt_R) =
    Ok (mkDF ["B"; "prob"] [[no; pr 13 10]; [yes; pr 7 10]]) /\
  exists prob_G,
    sum_out64 "A" vars_R prob_R = Ok (mkDF ["B"] [[no]; [yes]], prob_G) /\
    sum64 prob_R = 2%float /\
    sum64 prob_G = 0x1.fffffffffffffp+0%float /\
    PrimFloat.ltb (sum64 prob_G) (sum64 prob_R) = true /\
    sum64 prob_G <> sum64 prob_R.
Proof.
  split; [sample_factor|]. split.
  { unfold rows_distinct. simpl.
    repeat constructor; simpl; intuition discriminate. }
  split; [simpl; tauto|]. split; [simpl; tauto|].
  split; [vm_compute; reflexivity|].
  eexists. split; [vm_compute; reflexivity|].
  split; [vm_compute; reflexivity|].
  split; [vm_compute; reflexivity|].
  split; [vm_compute; reflexivity|].
  intros Heq.
  match type of Heq with
  | ?a = ?b =>
      assert (Hlt : PrimFloat.ltb a b = true) by (vm_compute; reflexivity);
      rewrite Heq in Hlt
  end.
  vm_compute in Hlt. discriminate.
Qed.

Lemma factor_table (df : DataFrame) : factor df -> table df.
Proof.
  intros [H1 H2 H3 H4 H5]. constructor; try assumption.
  eapply Forall_impl; [|exact H4]. intros r [q Hq]. now exists (Fin q).
Qed.

(** C9, amended.  Summing a variable out of a factor that keeps at least one
    other variable succeeds and gives a table over the remaining variables
    without repeated rows; each of its [prob] values is a sum of [prob]
    values of the original, every one of which is used exactly once, so that
    its total is the original values added in another order and grouping.
    Summing out, one after the other, all variables but [w] of a factor
    without repeated rows yields a table over [w] alone, without repeated
    rows, whose total is again a regrouped sum of the original values. *)
Theorem sum_out_regroups_total (net : Network) (F : DataFrame) (HF : factor F) :
  (forall v w, In v (scope F) -> In w (scope F) -> w <> v ->
     exists G, sum_out net v (Frame F) = Ok G /\
               table G /\ rows_distinct G /\ scope G = remaining_vars v F /\
               (exists ls, Forall2 regrouped ls (probs G) /\
                           Permutation (List.concat ls) (probs F)) /\
               exists t, prob_sum G = Ok t /\ regrouped (probs F) t) /\
  (forall vs w, rows_distinct F -> In w (scope F) -> ~ In w vs ->
     (forall c, In c (scope F) -> c = w \/ In c vs) ->
     exists G, sum_out_all net vs F = Ok G /\
               table G /\ rows_distinct G /\ scope G = [w] /\
               exists t, prob_sum G = Ok t /\ regrouped (probs F) t).
Proof.
  split.
  - intros v w _ Hw Hne.
    destruct (sum_out_regrouped net F v HF)
      as [G [HG [HFG [Hd [Hs [ls [Hls Hperm]]]]]]].
    + rewrite remaining_vars_scope. intros Hnil.
      assert (Hin : In w (filter (fun c => negb (String.eqb c v)) (scope F))).
      { apply filter_In. split; [assumption|].
        now apply negb_true_iff, String.eqb_neq. }
      rewrite Hnil in Hin. destruct Hin.
    + exists G. split; [assumption|]. split; [now apply factor_table|].
      split; [assumption|]. split; [assumption|]. split; [now exists ls|].
      destruct (prob_sum_regrouped G HFG) as [t [Ht Hreg]].
      exists t. split; [assumption|].
      apply (regrouped_perm (List.concat ls)); [assumption|].
      now apply (regrouped_concat (probs G)).
  - intros vs w Hd Hw Hwvs Hall.
    destruct (sum_out_all_regrouped net w vs F HF Hd Hw Hwvs)
      as [G [HG [HFG [HdG [Hs Ht]]]]].
    exists G. split; [assumption|]. split; [now apply factor_table|].
    split; [assumption|]. split; [|assumption].
    rewrite Hs. apply filter_only; try assumption.
    unfold scope. apply NoDup_filter. now destruct HF.
Qed.

Lemma sum_out_regroups_total_witness :
  factor cpt_R /\
  (exists G, sum_out net_AB "A" (Frame cpt_R) = Ok G /\
             table G /\ rows_distinct G /\
             scope G = remaining_vars "A" cpt_R /\
             (exists ls, Forall2 regrouped ls (probs G) /\
                         Permutation (List.concat ls) (probs cpt_R)) /\
             exists t, prob_sum G = Ok t /\ regrouped (probs cpt_R) t) /\
  (exists G, sum_out_all net_AB ["A"] cpt_R = Ok G /\
             table G /\ rows_distinct G /\ scope G = ["B"] /\
             exists t, prob_sum G = Ok t /\ regrouped (probs cpt_R) t).
Proof.
  assert (HF : factor cpt_R) by sample_factor.
  split; [exact HF|].
  destruct (sum_out_regroups_total net_AB cpt_R HF) as [H1 H2]. split.
  - apply (H1 "A" "B"); simpl; [tauto | tauto | discriminate].
  - apply (H2 ["A"] "B"); simpl; [| tauto | intuition discriminate |].
    + unfold rows_distinct. simpl.
      repeat constructor; simpl; intuition discriminate.
    + intros c [<-|[<-|[]]]; tauto.
Defined.
